(** * Quasi-Monte Carlo engines of [scipy/stats/_qmc.py]: a shallow embedding

    The numerical routines ([discrepancy], [_update_discrepancy],
    [_perturb_discrepancy], [van_der_corput], [scale]) are embedded over
    the exact rationals [Q]: every [float] of the source is a rational
    number and every arithmetic operation is the exact one.  That is the
    number which the expressions of the source denote; rounding is not in
    it, but for the one place where the source relies on it, the test that
    ends the loop of [van_der_corput].  [discrepancy],
    [_update_discrepancy] and [_perturb_discrepancy] are embedded a second
    time in [Binary64], over the doubles, with the rounding, the order of
    the reductions and the [OverflowError] of the source: that is what the
    calls return.  Engines are records of their attributes; a method takes
    the record and returns the outcome of the call together with the
    record as the call leaves it (also when the call raises).  The random
    generator, the optimizer, the special functions and the direction
    numbers of Sobol' are interfaces. *)

From Stdlib Require Import ZArith QArith Qabs Qround Qminmax List Bool Lia Lra
  Lqa Permutation Sorted Znumtheory ZifyNat.
From Stdlib Require Import Setoid Morphisms.
From Stdlib Require PrimFloat SpecFloat FloatOps.
Import ListNotations.

Local Open Scope Q_scope.

(** ** Python exceptions and results *)

Inductive exn : Type :=
| ValueError
| ZeroDivisionError
| AttributeError
| IndexError
| OverflowError.

Definition result (A : Type) : Type := (exn + A)%type.

Definition ok {A : Type} (a : A) : result A := inr a.
Definition raise {A : Type} (e : exn) : result A := inl e.

Definition rbind {A B : Type} (m : result A) (f : A -> result B) : result B :=
  match m with
  | inl e => inl e
  | inr a => f a
  end.

Notation "'let?' x ':=' m 'in' k" := (rbind m (fun x => k))
  (at level 10, x name, m at level 100, k at level 200).

(** ** Arrays *)

(** A two-dimensional [numpy] array of floats: [shape = (nrows, ncols)]. *)
Record array2 : Type := mk_array2 {
  ncols : nat;
  rows : list (list Q)
}.

Definition nrows (a : array2) : nat := length (rows a).

Definition well_shaped (a : array2) : Prop :=
  Forall (fun r => length r = ncols a) (rows a).

Definition well_shapedb (a : array2) : bool :=
  forallb (fun r => Nat.eqb (length r) (ncols a)) (rows a).

Fixpoint sumQ (l : list Q) : Q :=
  match l with
  | [] => 0
  | x :: l' => x + sumQ l'
  end.

Fixpoint prodQ (l : list Q) : Q :=
  match l with
  | [] => 1
  | x :: l' => x * prodQ l'
  end.

Fixpoint map2 {A B C : Type} (f : A -> B -> C) (l : list A) (m : list B)
  : list C :=
  match l, m with
  | a :: l', b :: m' => f a b :: map2 f l' m'
  | _, _ => []
  end.

(** [n ** k] for a floating base. *)
Fixpoint Qpow (q : Q) (k : nat) : Q :=
  match k with
  | O => 1
  | S k' => q * Qpow q k'
  end.

Definition Qnat (n : nat) : Q := inject_Z (Z.of_nat n).

(** [sample[:, i]] *)
Definition column (i : nat) (m : list (list Q)) : list Q :=
  map (fun r => nth i r 0) m.

(** [f(s0[:, None], s0)]: the square array whose entry [(a, b)] is
    [f s0[a] s0[b]]. *)
Definition outer (f : Q -> Q -> Q) (s0 : list Q) : list (list Q) :=
  map (fun a => map (fun b => f a b) s0) s0.

(** The value of [prod_arr]: the Python integer it starts as, or the array
    that [*=] makes of it. *)
Inductive scalar_or_array : Type :=
| Scalar (q : Q)
| Matrix (m : list (list Q)).

(** [prod_arr *= m] *)
Definition imul (p : scalar_or_array) (m : list (list Q)) : scalar_or_array :=
  match p with
  | Scalar q => Matrix (map (map (fun x => q * x)) m)
  | Matrix p' => Matrix (map2 (map2 Qmult) p' m)
  end.

(** [prod_arr.sum()]: a Python [int] has no [sum]. *)
Definition arr_sum (p : scalar_or_array) : result Q :=
  match p with
  | Scalar _ => raise AttributeError
  | Matrix m => ok (sumQ (map sumQ m))
  end.

(** [num / den], [den] a Python [int]. *)
Definition div_int (num : Q) (den : nat) : result Q :=
  match den with
  | O => raise ZeroDivisionError
  | _ => ok (num / Qnat den)
  end.

(** [a[i]] on an axis of length [n]: a negative index counts from the end,
    an index outside [-n, n) raises. *)
Definition np_index (i : Z) (n : nat) : result nat :=
  if ((0 <=? i) && (i <? Z.of_nat n))%Z then ok (Z.to_nat i)
  else if ((- Z.of_nat n <=? i) && (i <? 0))%Z
       then ok (Z.to_nat (i + Z.of_nat n))
       else raise IndexError.

(** [a[i] = v], [i] in range. *)
Fixpoint set_at {A : Type} (i : nat) (v : A) (l : list A) : list A :=
  match l, i with
  | [], _ => []
  | _ :: l', O => v :: l'
  | x :: l', S i' => x :: set_at i' v l'
  end.

(** [a[mask]] *)
Fixpoint select {A : Type} (mask : list bool) (l : list A) : list A :=
  match mask, l with
  | b :: mask', x :: l' => if b then x :: select mask' l' else select mask' l'
  | _, _ => []
  end.

(** The builtin [sum]. *)
Definition py_sum (l : list Q) : Q := fold_left Qplus l 0.

(** ** Discrepancy *)

Module Discrepancy.

Inductive method : Type := CD | WD | MD | Unknown.

Definition cd_term (x : Q) : Q :=
  1 + (1#2) * Qabs (x - (1#2)) - (1#2) * Qpow (Qabs (x - (1#2))) 2.

Definition cd_kernel (a b : Q) : Q :=
  1 + (1#2) * Qabs (a - (1#2)) + (1#2) * Qabs (b - (1#2))
    - (1#2) * Qabs (a - b).

Definition wd_kernel (a b : Q) : Q :=
  (3#2) - Qabs (a - b) + Qpow (Qabs (a - b)) 2.

Definition md_term (x : Q) : Q :=
  (5#3) - (1#4) * Qabs (x - (1#2)) - (1#4) * Qpow (Qabs (x - (1#2))) 2.

Definition md_kernel (a b : Q) : Q :=
  (15#8) - (1#4) * Qabs (a - (1#2)) - (1#4) * Qabs (b - (1#2))
    - (3#4) * Qabs (a - b) + (1#2) * Qpow (Qabs (a - b)) 2.

(** The loop [for i in range(d): s0 = sample[:, i]; prod_arr *= ...]. *)
Definition prod_arr_loop (f : Q -> Q -> Q) (sample : array2)
  : scalar_or_array :=
  fold_left (fun p i => imul p (outer f (column i (rows sample))))
            (seq 0 (ncols sample)) (Scalar 1).

(** [discrepancy(sample, iterative, method)]; the ['star'] method takes a
    square root and is left out: [Unknown] stands for every other string. *)
Definition discrepancy (sample : array2) (iterative : bool) (m : method)
  : result Q :=
  let d := ncols sample in
  let n := if iterative then S (nrows sample) else nrows sample in
  match m with
  | CD =>
      let disc1 := sumQ (map (fun r => prodQ (map cd_term r)) (rows sample)) in
      let? disc2 := arr_sum (prod_arr_loop cd_kernel sample) in
      let? c1 := div_int 2 n in
      let? c2 := div_int 1 (n * n) in
      ok (Qpow (13 # 12) d - c1 * disc1 + c2 * disc2)
  | WD =>
      let prod_arr := prod_arr_loop wd_kernel sample in
      let? c2 := div_int 1 (n * n) in
      let? s := arr_sum prod_arr in
      ok (- Qpow (4 # 3) d + c2 * s)
  | MD =>
      let disc1 := sumQ (map (fun r => prodQ (map md_term r)) (rows sample)) in
      let? disc2 := arr_sum (prod_arr_loop md_kernel sample) in
      let disc := Qpow (19 # 12) d in
      let? c1 := div_int 2 n in
      let disc1 := c1 * disc1 in
      let? c2 := div_int 1 (n * n) in
      let disc2 := c2 * disc2 in
      ok (disc - disc1 + disc2)
  | Unknown => raise ValueError
  end.

(** [_update_discrepancy(x_new, sample, initial_disc)] *)
Definition update_discrepancy (x_new : list Q) (sample : array2)
  (initial_disc : Q) : Q :=
  let n := Qnat (nrows sample + 1) in
  let abs_ := map (fun x => Qabs (x - (1#2))) x_new in
  let disc1 :=
    - (2 / n) * prodQ (map (fun a => 1 + (1#2) * a - (1#2) * Qpow a 2) abs_) in
  let disc2 :=
    2 / Qpow n 2 *
    sumQ (map (fun r =>
                 prodQ (map2 (fun ax s => 1 + (1#2) * fst ax
                                          + (1#2) * Qabs (s - (1#2))
                                          - (1#2) * Qabs (snd ax - s))
                             (combine abs_ x_new) r))
              (rows sample)) in
  let disc3 := 1 / Qpow n 2 * prodQ (map (fun a => 1 + a) abs_) in
  initial_disc + disc1 + disc2 + disc3.

(** [_perturb_discrepancy(sample, i1, i2, k, disc)].  The quotients of two
    floats are total in [numpy] (a zero divisor gives [inf] or [nan] and a
    warning), as [Qdiv] is total; no divisor is zero on a sample of the unit
    cube. *)
Definition perturb_discrepancy (sample : array2) (i1 i2 k : Z) (disc : Q)
  : result Q :=
  let n := nrows sample in
  let z_ij := map (map (fun s => s - (1#2))) (rows sample) in
  let? inv_n2 := div_int 1 (n * n) in
  let? r1 := np_index i1 n in
  let z1 := nth r1 z_ij [] in
  let c_i1j :=
    map (fun zj => inv_n2 *
           prodQ (map2 (fun a b => (1#2) * (2 + Qabs a + Qabs b - Qabs (a - b)))
                       z1 zj)) z_ij in
  let? r2 := np_index i2 n in
  let z2 := nth r2 z_ij [] in
  let c_i2j :=
    map (fun zj => inv_n2 *
           prodQ (map2 (fun a b => (1#2) * (2 + Qabs a + Qabs b - Qabs (a - b)))
                       z2 zj)) z_ij in
  let c_i1i1 :=
    1 / Qpow (Qnat n) 2 * prodQ (map (fun a => 1 + Qabs a) z1)
    - 2 / Qnat n * prodQ (map (fun a => 1 + (1#2) * Qabs a - (1#2) * Qpow a 2)
                              z1) in
  let c_i2i2 :=
    1 / Qpow (Qnat n) 2 * prodQ (map (fun a => 1 + Qabs a) z2)
    - 2 / Qnat n * prodQ (map (fun a => 1 + (1#2) * Qabs a - (1#2) * Qpow a 2)
                              z2) in
  let? c := np_index k (ncols sample) in
  let z1k := nth c z1 0 in
  let z2k := nth c z2 0 in
  let zk := column c z_ij in
  let num := map (fun zjk => 2 + Qabs z2k + Qabs zjk - Qabs (z2k - zjk)) zk in
  let denum := map (fun zjk => 2 + Qabs z1k + Qabs zjk - Qabs (z1k - zjk)) zk in
  let gamma := map2 Qdiv num denum in
  let c_p_i1j := map2 Qmult gamma c_i1j in
  let c_p_i2j := map2 Qdiv c_i2j gamma in
  let alpha := (1 + Qabs z2k) / (1 + Qabs z1k) in
  let beta := (2 - Qabs z2k) / (2 - Qabs z1k) in
  let g_i1 := prodQ (map (fun a => 1 + Qabs a) z1) in
  let g_i2 := prodQ (map (fun a => 1 + Qabs a) z2) in
  let h_i1 :=
    prodQ (map (fun a => 1 + (1#2) * Qabs a - (1#2) * Qpow a 2) z1) in
  let h_i2 :=
    prodQ (map (fun a => 1 + (1#2) * Qabs a - (1#2) * Qpow a 2) z2) in
  let c_p_i1i1 :=
    (g_i1 * alpha) / Qpow (Qnat n) 2 - 2 * alpha * beta * h_i1 / Qnat n in
  let c_p_i2i2 :=
    g_i2 / (Qpow (Qnat n) 2 * alpha) - 2 * h_i2 / (Qnat n * alpha * beta) in
  let sum_ :=
    map2 Qminus (map2 Qplus (map2 Qminus c_p_i1j c_i1j) c_p_i2j) c_i2j in
  let mask := set_at r2 false (set_at r1 false (repeat true n)) in
  let sum_ := py_sum (select mask sum_) in
  ok (disc + c_p_i1i1 - c_i1i1 + c_p_i2i2 - c_i2i2 + 2 * sum_).

End Discrepancy.

(** ** The numerical routines on doubles

    The same routines with the arithmetic of the source: every [float] is
    a binary64 number and every operation rounds to the nearest one, ties
    to even.  The reductions follow [numpy]: [np.prod] multiplies in index
    order, [np.sum] adds pairwise, the builtin [sum] adds in index order. *)

Module Binary64.

Import PrimFloat.
Local Open Scope float_scope.

(** A two-dimensional array of doubles. *)
Record array2 : Type := mk_array2 {
  ncols : nat;
  rows : list (list float)
}.

Definition nrows (a : array2) : nat := length (rows a).

Definition column (i : nat) (m : list (list float)) : list float :=
  map (fun r => nth i r 0) m.

Definition outer (f : float -> float -> float) (s0 : list float)
  : list (list float) :=
  map (fun a => map (fun b => f a b) s0) s0.

(** The double nearest to [m * 2 ^ e]; [szero] is the sign of a zero. *)
Definition nearest_signed (m e : Z) (szero : bool) : SpecFloat.spec_float :=
  SpecFloat.binary_normalize FloatOps.prec FloatOps.emax m e szero.

Definition nearest (m e : Z) : SpecFloat.spec_float :=
  nearest_signed m e false.

(** The integers from which no double is nearer than infinity:
    [2 ** 1024 - 2 ** 970] lies half way between the largest double and
    [2 ** 1024]. *)
Definition too_large : Z := (2 ^ 1024 - 2 ^ 970)%Z.

(** [float(z)] of a Python [int]: the nearest double, [OverflowError]
    when there is none. *)
Definition of_int (z : Z) : result float :=
  if (too_large <=? Z.abs z)%Z then raise OverflowError
  else ok (FloatOps.SF2Prim (nearest z 0)).

(** [a / b] of two Python [int]s: the double nearest to the quotient.
    The quotient is taken with [k] more bits than a double has, the last
    one set when it is not exact, and rounded from there. *)
Definition int_truediv (a b : Z) : result float :=
  if (b =? 0)%Z then raise ZeroDivisionError
  else
    let num := Z.abs a in
    let den := Z.abs b in
    let k := Z.max 0 (56 + Z.log2 den - Z.log2 num) in
    let q := (num * 2 ^ k / den)%Z in
    let inexact := negb ((num * 2 ^ k) mod den =? 0)%Z in
    let m := (2 * q + (if inexact then 1 else 0))%Z in
    let negative := xorb (a <? 0)%Z (b <? 0)%Z in
    match nearest_signed (if negative then - m else m)%Z (- k - 1) negative
    with
    | SpecFloat.S754_infinity _ => raise OverflowError
    | v => ok (FloatOps.SF2Prim v)
    end.

(** [x / y] of two Python [float]s. *)
Definition float_truediv (x y : float) : result float :=
  if y =? 0 then raise ZeroDivisionError else ok (x / y).

(** [x ** d], [x] a Python [float] and [d >= 0] a Python [int]: the double
    nearest to the power, [OverflowError] when it is beyond the doubles. *)
Definition float_pow (x : float) (d : nat) : result float :=
  match d with
  | O => ok 1
  | S _ =>
      match FloatOps.Prim2SF x with
      | SpecFloat.S754_finite s m e =>
          let p := (Z.pos m ^ Z.of_nat d)%Z in
          let ed := (e * Z.of_nat d)%Z in
          if (too_large * 2 ^ Z.max 0 (- ed) <=? p * 2 ^ Z.max 0 ed)%Z
          then raise OverflowError
          else ok (FloatOps.SF2Prim
                     (nearest (if s && Nat.odd d then - p else p)%Z ed))
      | SpecFloat.S754_zero s => ok (if s && Nat.odd d then -0 else 0)
      | SpecFloat.S754_infinity s =>
          ok (if s && Nat.odd d then neg_infinity else infinity)
      | SpecFloat.S754_nan => ok nan
      end
  end.

(** [np.prod] of a one-dimensional array, or along an axis. *)
Definition np_prod (l : list float) : float := fold_left mul l 1.

(** The builtin [sum]. *)
Definition py_sum (l : list float) : float := fold_left add l 0.

(** The loop of [numpy]'s pairwise sum over the blocks of eight entries
    that follow the first: eight running sums. *)
Fixpoint add_blocks (fuel : nat) (r : list float) (l : list float)
  : list float * list float :=
  match fuel with
  | O => (r, l)
  | S fuel' =>
      if (length l <? 8)%nat then (r, l)
      else add_blocks fuel' (map2 add r (firstn 8 l)) (skipn 8 l)
  end.

(** [pairwise_sum]: fewer than eight entries are added in index order; up
    to 128 entries go to eight running sums that are added as a tree, the
    entries left over after it; a longer array is cut in two. *)
Fixpoint pairwise_sum (fuel : nat) (l : list float) : float :=
  let n := length l in
  if (n <? 8)%nat then fold_left add l 0
  else if (n <=? 128)%nat then
    let (r, rest) := add_blocks n (firstn 8 l) (skipn 8 l) in
    let r := fun i => nth i r 0 in
    fold_left add rest
      (((r 0%nat + r 1%nat) + (r 2%nat + r 3%nat))
       + ((r 4%nat + r 5%nat) + (r 6%nat + r 7%nat)))
  else
    match fuel with
    | O => 0
    | S fuel' =>
        let n2 := (n / 2 - (n / 2) mod 8)%nat in
        pairwise_sum fuel' (firstn n2 l) + pairwise_sum fuel' (skipn n2 l)
    end.

(** [np.sum] of a contiguous array: the pairwise sum of its entries, added
    to the initial [0.]. *)
Definition np_sum (l : list float) : float := 0 + pairwise_sum (length l) l.

(** The value of [prod_arr]. *)
Inductive scalar_or_array : Type :=
| Scalar (x : float)
| Matrix (m : list (list float)).

Definition imul (p : scalar_or_array) (m : list (list float))
  : scalar_or_array :=
  match p with
  | Scalar x => Matrix (map (map (fun y => x * y)) m)
  | Matrix p' => Matrix (map2 (map2 mul) p' m)
  end.

Definition arr_sum (p : scalar_or_array) : result float :=
  match p with
  | Scalar _ => raise AttributeError
  | Matrix m => ok (np_sum (concat m))
  end.

Definition cd_term (x : float) : float :=
  let a := abs (x - 0.5) in 1 + 0.5 * a - 0.5 * (a * a).

Definition cd_kernel (a b : float) : float :=
  1 + 0.5 * abs (a - 0.5) + 0.5 * abs (b - 0.5) - 0.5 * abs (a - b).

Definition wd_kernel (a b : float) : float :=
  let x := abs (a - b) in 3 / 2 - x + x * x.

Definition md_term (x : float) : float :=
  let a := abs (x - 0.5) in 5 / 3 - 0.25 * a - 0.25 * (a * a).

Definition md_kernel (a b : float) : float :=
  15 / 8 - 0.25 * abs (a - 0.5) - 0.25 * abs (b - 0.5)
    - 3 / 4 * abs (a - b) + 0.5 * (abs (a - b) * abs (a - b)).

Definition prod_arr_loop (f : float -> float -> float) (sample : array2)
  : scalar_or_array :=
  fold_left (fun p i => imul p (outer f (column i (rows sample))))
            (seq 0 (ncols sample)) (Scalar 1).

(** [c / n], [c] a [float] constant and [n] a Python [int]: [n] is
    converted, and the division raises when it is [0.0], which no other
    [int] than [0] is. *)
Definition div_int (c : float) (n : Z) : result float :=
  let? x := of_int n in
  if (n =? 0)%Z then raise ZeroDivisionError else ok (c / x).

(** [discrepancy(sample, iterative, method)] for ['CD'], ['WD'] and
    ['MD']. *)
Definition discrepancy (sample : array2) (iterative : bool)
  (m : Discrepancy.method) : result float :=
  let d := ncols sample in
  let n := Z.of_nat (if iterative then S (nrows sample) else nrows sample) in
  match m with
  | Discrepancy.CD =>
      let disc1 := np_sum (map (fun r => np_prod (map cd_term r))
                             (rows sample)) in
      let? disc2 := arr_sum (prod_arr_loop cd_kernel sample) in
      let? p := float_pow (13 / 12) d in
      let? c1 := div_int 2 n in
      let? c2 := div_int 1 (n * n) in
      ok (p - c1 * disc1 + c2 * disc2)
  | Discrepancy.WD =>
      let prod_arr := prod_arr_loop wd_kernel sample in
      let? p := float_pow (4 / 3) d in
      let? c2 := div_int 1 (n * n) in
      let? s := arr_sum prod_arr in
      ok (- p + c2 * s)
  | Discrepancy.MD =>
      let disc1 := np_sum (map (fun r => np_prod (map md_term r))
                             (rows sample)) in
      let? disc2 := arr_sum (prod_arr_loop md_kernel sample) in
      let? disc := float_pow (19 / 12) d in
      let? c1 := div_int 2 n in
      let disc1 := c1 * disc1 in
      let? c2 := div_int 1 (n * n) in
      let disc2 := c2 * disc2 in
      ok (disc - disc1 + disc2)
  | Discrepancy.Unknown => raise ValueError
  end.

(** [_update_discrepancy(x_new, sample, initial_disc)] *)
Definition update_discrepancy (x_new : list float) (sample : array2)
  (initial_disc : float) : result float :=
  let n := Z.of_nat (nrows sample + 1) in
  let abs_ := map (fun x => abs (x - 0.5)) x_new in
  let? half := int_truediv 1 2 in
  let? c1 := int_truediv (- 2) n in
  let disc1 :=
    c1 * np_prod (map (fun a => 1 + half * a - half * (a * a)) abs_) in
  let? c2 := int_truediv 2 (n * n) in
  let disc2 :=
    c2 * np_sum (map (fun r =>
                   np_prod (map2 (fun ax s => 1 + half * fst ax
                                              + half * abs (s - 0.5)
                                              - half * abs (snd ax - s))
                               (combine abs_ x_new) r))
                 (rows sample)) in
  let? c3 := int_truediv 1 (n * n) in
  let disc3 := c3 * np_prod (map (fun a => 1 + a) abs_) in
  ok (initial_disc + disc1 + disc2 + disc3).

(** [_perturb_discrepancy(sample, i1, i2, k, disc)] *)
Definition perturb_discrepancy (sample : array2) (i1 i2 k : Z) (disc : float)
  : result float :=
  let n := nrows sample in
  let z_ij := map (map (fun s => s - 0.5)) (rows sample) in
  let? nf := of_int (Z.of_nat n) in
  let? n2f := float_pow nf 2 in
  let? inv_n2f := float_truediv 1 n2f in
  let? r1 := np_index i1 n in
  let z1 := nth r1 z_ij [] in
  let c_i1j :=
    map (fun zj => inv_n2f *
           np_prod (map2 (fun a b => 0.5 * (2 + abs a + abs b - abs (a - b)))
                         z1 zj)) z_ij in
  let? r2 := np_index i2 n in
  let z2 := nth r2 z_ij [] in
  let c_i2j :=
    map (fun zj => inv_n2f *
           np_prod (map2 (fun a b => 0.5 * (2 + abs a + abs b - abs (a - b)))
                         z2 zj)) z_ij in
  let? inv_n2 := div_int 1 (Z.of_nat n * Z.of_nat n) in
  let? two_n := div_int 2 (Z.of_nat n) in
  let c_i1i1 :=
    inv_n2 * np_prod (map (fun a => 1 + abs a) z1)
    - two_n * np_prod (map (fun a => 1 + 0.5 * abs a - 0.5 * (a * a)) z1) in
  let c_i2i2 :=
    inv_n2 * np_prod (map (fun a => 1 + abs a) z2)
    - two_n * np_prod (map (fun a => 1 + 0.5 * abs a - 0.5 * (a * a)) z2) in
  let? c := np_index k (ncols sample) in
  let z1k := nth c z1 0 in
  let z2k := nth c z2 0 in
  let zk := column c z_ij in
  let num := map (fun zjk => 2 + abs z2k + abs zjk - abs (z2k - zjk)) zk in
  let denum := map (fun zjk => 2 + abs z1k + abs zjk - abs (z1k - zjk)) zk in
  let gamma := map2 div num denum in
  let c_p_i1j := map2 mul gamma c_i1j in
  let c_p_i2j := map2 div c_i2j gamma in
  let alpha := (1 + abs z2k) / (1 + abs z1k) in
  let beta := (2 - abs z2k) / (2 - abs z1k) in
  let g_i1 := np_prod (map (fun a => 1 + abs a) z1) in
  let g_i2 := np_prod (map (fun a => 1 + abs a) z2) in
  let h_i1 := np_prod (map (fun a => 1 + 0.5 * abs a - 0.5 * (a * a)) z1) in
  let h_i2 := np_prod (map (fun a => 1 + 0.5 * abs a - 0.5 * (a * a)) z2) in
  let? n2 := of_int (Z.of_nat n * Z.of_nat n) in
  let c_p_i1i1 := (g_i1 * alpha) / n2 - 2 * alpha * beta * h_i1 / nf in
  let c_p_i2i2 := g_i2 / (n2 * alpha) - 2 * h_i2 / (nf * alpha * beta) in
  let sum_ :=
    map2 sub (map2 add (map2 sub c_p_i1j c_i1j) c_p_i2j) c_i2j in
  let mask := set_at r2 false (set_at r1 false (repeat true n)) in
  let sum_ := py_sum (select mask sum_) in
  ok (disc + c_p_i1i1 - c_i1i1 + c_p_i2i2 - c_i2i2 + 2 * sum_).

End Binary64.

(** ** Methods: state passing with exceptions

    A method of an object of type [S] that returns an [A]: it is given the
    object and returns the outcome together with the object as the call
    leaves it.  An exception keeps the assignments made before it. *)

Definition meth (S A : Type) : Type := S -> result A * S.

Definition mret {S A : Type} (a : A) : meth S A := fun s => (ok a, s).

Definition mraise {S A : Type} (e : exn) : meth S A := fun s => (raise e, s).

Definition mbind {S A B : Type} (m : meth S A) (f : A -> meth S B)
  : meth S B :=
  fun s => match m s with
           | (inl e, s') => (inl e, s')
           | (inr a, s') => f a s'
           end.

Definition mget {S : Type} : meth S S := fun s => (ok s, s).

Definition mput {S : Type} (s : S) : meth S unit := fun _ => (ok tt, s).

Definition mlift {S A : Type} (r : result A) : meth S A := fun s => (r, s).

Declare Scope meth_scope.
Delimit Scope meth_scope with meth.

Notation "x <- c ;; k" := (mbind c (fun x => k))
  (at level 61, c at next level, right associativity) : meth_scope.
Notation "c ;; k" := (mbind c (fun _ => k))
  (at level 61, right associativity) : meth_scope.

(** ** Numbers *)

(** A float that may be [np.inf]. *)
Inductive extended : Type :=
| Finite (q : Q)
| PlusInf.

Definition ext_ltb (a b : extended) : bool :=
  match a, b with
  | Finite x, Finite y => negb (Qle_bool y x)
  | Finite _, PlusInf => true
  | PlusInf, _ => false
  end.

Definition ext_le (a b : extended) : Prop :=
  match a, b with
  | Finite x, Finite y => x <= y
  | _, PlusInf => True
  | PlusInf, Finite _ => False
  end.

(** [np.round(x).astype(int)]: to the nearest integer, a tie to the even
    one. *)
Definition np_round (q : Q) : Z :=
  let f := Qfloor q in
  let r := q - inject_Z f in
  if Qle_bool r (1#2)
  then if Qle_bool (1#2) r
       then (if Z.even f then f else f + 1)%Z
       else f
  else (f + 1)%Z.

(** [x % base] on floats: the result has the sign of [base].  (Here and in
    the Van der Corput loop the rationals are kept in lowest terms, [Qred],
    which does not change their value.) *)
Definition np_mod (x base : Q) : Q :=
  Qred (x - base * inject_Z (Qfloor (x / base))).

(** [x.astype(int)]: towards zero. *)
Definition astype_int (x : Q) : Z := (Qnum x ÷ Z.pos (Qden x))%Z.

(** [a.reshape(n, d)] of a flat array: [n] rows of [d] entries. *)
Fixpoint reshape {A : Type} (n d : nat) (l : list A) : list (list A) :=
  match n with
  | O => []
  | S n' => firstn d l :: reshape n' d (skipn d l)
  end.

(** [np.array(cols).T.reshape(n, d)] for [d] columns of length [n]. *)
Definition transpose (n : nat) (cols : list (list Q)) : list (list Q) :=
  map (fun i => map (fun c => nth i c 0) cols) (seq 0 n).

(** ** The random generator

    [numpy.random.Generator] is a collaborator outside the repository: the
    engines use it through the five methods below.  [G] is the state of a
    generator; a method returns the values drawn and the state it leaves.
    The two laws are the contract of [integers] ([high] is exclusive) that
    the engines rely on. *)

Class RandomSource (G : Type) : Type := {
  (** [np.random.default_rng(seed)] for an integer seed *)
  default_rng : Z -> G;
  (** [rng.random(size)] (or [random_sample]): floats of [[0, 1)] *)
  rs_random : nat -> G -> list Q * G;
  (** [rng.integers(low, high, size)] (or [randint]) for [low < high] *)
  rs_integers : Z -> Z -> nat -> G -> list Z * G;
  (** [rng.uniform(low, high, size)] *)
  rs_uniform : Q -> Q -> nat -> G -> list Q * G;
  (** [rng.shuffle(x)] *)
  rs_shuffle : list Q -> G -> list Q * G;
  (** [rng.permutation(n)] *)
  rs_permutation : Z -> G -> list Z * G;
  rs_integers_range : forall low high size g,
    (low < high)%Z ->
    Forall (fun z => (low <= z < high)%Z) (fst (rs_integers low high size g));
  rs_integers_length : forall low high size g,
    length (fst (rs_integers low high size g)) = size
}.

(** [rng.integers(low, high, size)]: [numpy] raises [ValueError] when
    [low >= high], unless no value is asked for. *)
Definition integers {G : Type} `{RandomSource G} (low high : Z) (size : nat)
  (g : G) : result (list Z) * G :=
  if (size =? 0)%nat then (ok [], g)
  else if (high <=? low)%Z then (raise ValueError, g)
  else let (v, g') := rs_integers low high size g in (ok v, g').

(** The seeds that make an engine reproducible: an integer or a generator.
    ([seed=None] asks the operating system for entropy and is outside the
    embedding.) *)
Inductive seed_t (G : Type) : Type :=
| SeedInt (z : Z)
| SeedGen (g : G).
Arguments SeedInt {G} z.
Arguments SeedGen {G} g.

(** [check_random_state(seed)]: a new generator for an integer, the
    generator itself otherwise. *)
Definition check_random_state {G : Type} `{RandomSource G} (seed : seed_t G)
  : G :=
  match seed with
  | SeedInt z => default_rng z
  | SeedGen g => g
  end.

(** ** [QMCEngine]: the attributes and methods every engine inherits *)

Module QMCEngine.

(** What [self.rng] refers to: a generator object of its own, or the very
    object that [self.rng_seed] holds (then drawing from the one advances
    the other). *)
Inductive rng_ref (G : Type) : Type :=
| Own (g : G)
| SeedObject.
Arguments Own {G} g.
Arguments SeedObject {G}.

Record t (G : Type) : Type := mk {
  d : nat;
  rng : rng_ref G;
  rng_seed : seed_t G;
  num_generated : Z
}.
Arguments mk {G}.
Arguments d {G}.
Arguments rng {G}.
Arguments rng_seed {G}.
Arguments num_generated {G}.

Section WithSource.
Context {G : Type} `{RandomSource G}.

(** [super().__init__(d=d, seed=seed)]: [self.rng] is the caller's
    generator (or a new one), [self.rng_seed] a deep copy of the seed. *)
Definition __init__ (d : nat) (seed : seed_t G) : t G :=
  mk d (Own (check_random_state seed)) seed 0.

(** The state of the generator [self.rng]. *)
Definition get_rng (e : t G) : G :=
  match rng e with
  | Own g => g
  | SeedObject => check_random_state (rng_seed e)
  end.

(** A draw from [self.rng] leaves the generator in state [g]. *)
Definition set_rng (g : G) (e : t G) : t G :=
  match rng e with
  | Own _ => mk (d e) (Own g) (rng_seed e) (num_generated e)
  | SeedObject => mk (d e) SeedObject (SeedGen g) (num_generated e)
  end.

(** [self.num_generated += n] *)
Definition advance (n : Z) (e : t G) : t G :=
  mk (d e) (rng e) (rng_seed e) (num_generated e + n).

(** [reset]: [check_random_state] hands back the object in
    [self.rng_seed] when that is a generator. *)
Definition reset (e : t G) : t G :=
  mk (d e)
     (match rng_seed e with
      | SeedInt z => Own (default_rng z)
      | SeedGen _ => SeedObject
      end)
     (rng_seed e) 0.

Definition fast_forward (n : Z) (e : t G) : t G := advance n e.

End WithSource.

End QMCEngine.

(** ** Prime numbers *)

(** [sieve[start::step] = False] *)
Definition clear_slice (start step : nat) (sieve : list bool) : list bool :=
  map (fun ib : nat * bool =>
         let (i, b) := ib in
         if (start <=? i)%nat && ((i - start) mod step =? 0)%nat
         then false else b)
      (combine (seq 0 (length sieve)) sieve).

(** [np.nonzero(sieve)[0]] *)
Definition nonzero (sieve : list bool) : list nat :=
  map fst (filter snd (combine (seq 0 (length sieve)) sieve)).

(** [primes_from_2_to(n)] *)
Definition primes_from_2_to (n : nat) : list Z :=
  let sieve0 := repeat true (n / 3 + (if (n mod 6 =? 2)%nat then 1 else 0)) in
  let sieve :=
    fold_left
      (fun sieve i =>
         let k := Nat.lor (3 * i + 1) 1 in
         let sieve := clear_slice (k * k / 3) (2 * k) sieve in
         clear_slice (k * (k - 2 * Nat.land i 1 + 4) / 3) (2 * k) sieve)
      (seq 1 (Nat.sqrt n / 3))
      sieve0 in
  2%Z :: 3%Z ::
    map (fun i => Z.of_nat (Nat.lor (3 * i + 1) 1)) (tl (nonzero sieve)).

Definition first_primes : list Z :=
  [2; 3; 5; 7; 11; 13; 17; 19; 23; 29; 31; 37; 41; 43; 47; 53; 59;
   61; 67; 71; 73; 79; 83; 89; 97; 101; 103; 107; 109; 113; 127;
   131; 137; 139; 149; 151; 157; 163; 167; 173; 179; 181; 191; 193;
   197; 199; 211; 223; 227; 229; 233; 239; 241; 251; 257; 263; 269;
   271; 277; 281; 283; 293; 307; 311; 313; 317; 331; 337; 347; 349;
   353; 359; 367; 373; 379; 383; 389; 397; 401; 409; 419; 421; 431;
   433; 439; 443; 449; 457; 461; 463; 467; 479; 487; 491; 499; 503;
   509; 521; 523; 541; 547; 557; 563; 569; 571; 577; 587; 593; 599;
   601; 607; 613; 617; 619; 631; 641; 643; 647; 653; 659; 661; 673;
   677; 683; 691; 701; 709; 719; 727; 733; 739; 743; 751; 757; 761;
   769; 773; 787; 797; 809; 811; 821; 823; 827; 829; 839; 853; 857;
   859; 863; 877; 881; 883; 887; 907; 911; 919; 929; 937; 941; 947;
   953; 967; 971; 977; 983; 991; 997]%Z.

(** The loop [while 'Not enough primes'] of [n_primes]; [None] when
    [fuel] rounds do not find [n] primes. *)
Fixpoint more_primes (fuel n big_number : nat) : option (list Z) :=
  match fuel with
  | O => None
  | S fuel' =>
      let primes := firstn n (primes_from_2_to big_number) in
      if (length primes =? n)%nat then Some primes
      else more_primes fuel' n (big_number + 1000)
  end.

(** [n_primes(n)]; the search beyond the table is given [n] rounds. *)
Definition n_primes (n : nat) : option (list Z) :=
  let primes := firstn n first_primes in
  if (length primes <? n)%nat then more_primes n n 2000 else Some primes.

(** ** Van der Corput *)

Module VanDerCorput.

(** The loop test [(1 - b2r) < 1] in double precision: the difference
    rounds to [1.0] exactly when [b2r <= 2 ** -54]. *)
Definition one_minus_lt_one (b2r : Q) : bool :=
  negb (Qle_bool b2r (1 # 2 ^ 54)).

Section WithSource.
Context {G : Type} `{RandomSource G}.

(** [perm[np.array(remainder).astype(int)]] *)
Definition take (perm : list Z) (remainder : list Q) : list Q :=
  map (fun r => inject_Z (nth (Z.to_nat (astype_int r)) perm 0%Z)) remainder.

(** The body of the [while] loop, all points at once. *)
Definition step (base : Z) (scramble : bool) (rng : G) (b2r : Q)
  (quotient sequence : list Q) : G * Q * list Q * list Q :=
  let remainder := map (fun q => np_mod q (inject_Z base)) quotient in
  let (remainder, rng) :=
    if scramble
    then let (perm, rng') := rs_permutation base rng in
         (take perm remainder, rng')
    else (remainder, rng) in
  let sequence := map2 (fun s r => Qred (s + r * b2r)) sequence remainder in
  let b2r := Qred (b2r / inject_Z base) in
  let quotient :=
    map2 (fun q r => Qred ((q - r) / inject_Z base)) quotient remainder in
  (rng, b2r, quotient, sequence).

(** [while (1 - b2r) < 1: ...]; [None] when [fuel] rounds do not end the
    loop. *)
Fixpoint loop (fuel : nat) (base : Z) (scramble : bool) (rng : G) (b2r : Q)
  (quotient sequence : list Q) : option (list Q * G) :=
  if one_minus_lt_one b2r then
    match fuel with
    | O => None
    | S fuel' =>
        let '(rng, b2r, quotient, sequence) :=
          step base scramble rng b2r quotient sequence in
        loop fuel' base scramble rng b2r quotient sequence
    end
  else Some (sequence, rng).

(** [np.arange(start_index, start_index + n)] *)
Definition arange (start : Z) (n : nat) : list Q :=
  map (fun i => inject_Z (start + Z.of_nat i)) (seq 0 n).

(** [van_der_corput(n, base, start_index, scramble, seed)], [rng] the
    generator that [check_random_state(seed)] gives; the result comes with
    the state the generator is left in.  [None]: the loop does not end
    within 64 rounds (a base of two or more ends it within 53, a base of
    one never does). *)
Definition van_der_corput (n : nat) (base start_index : Z) (scramble : bool)
  (rng : G) : option (result (list Q) * G) :=
  if (base =? 0)%Z then Some (raise ZeroDivisionError, rng)
  else
    match loop 64 base scramble rng (1 / inject_Z base)
               (arange start_index n) (repeat 0 n) with
    | Some (sequence, rng') => Some (ok sequence, rng')
    | None => None
    end.

End WithSource.

End VanDerCorput.

(** ** Halton *)

Module Halton.

Record t (G : Type) : Type := mk {
  base : QMCEngine.t G;
  seed : seed_t G;
  bases : list Z;
  scramble : bool
}.
Arguments mk {G}.
Arguments base {G}.
Arguments seed {G}.
Arguments bases {G}.
Arguments scramble {G}.

Section WithSource.
Context {G : Type} `{RandomSource G}.

(** [None] when [n_primes] does not find [d] primes. *)
Definition __init__ (d : nat) (scramble : bool) (seed : seed_t G)
  : option (t G) :=
  match n_primes d with
  | Some primes => Some (mk (QMCEngine.__init__ d seed) seed primes scramble)
  | None => None
  end.

(** The list comprehension of [random]: one Van der Corput sequence per
    base, each from a new deep copy of [self.seed]. *)
Fixpoint sequences (n : nat) (start : Z) (scramble : bool) (seed : seed_t G)
  (bases : list Z) : option (result (list (list Q))) :=
  match bases with
  | [] => Some (ok [])
  | bdim :: bases' =>
      match VanDerCorput.van_der_corput n bdim start scramble
              (check_random_state seed) with
      | None => None
      | Some (inl e, _) => Some (raise e)
      | Some (inr col, _) =>
          match sequences n start scramble seed bases' with
          | None => None
          | Some (inl e) => Some (raise e)
          | Some (inr cols) => Some (ok (col :: cols))
          end
      end
  end.

(** [random(n)]; [None] when a Van der Corput loop does not end. *)
Definition random (n : nat) (e : t G) : option (result array2 * t G) :=
  match sequences n (QMCEngine.num_generated (base e)) (scramble e) (seed e)
          (bases e) with
  | None => None
  | Some (inl err) => Some (raise err, e)
  | Some (inr sample) =>
      Some (ok (mk_array2 (QMCEngine.d (base e)) (transpose n sample)),
            mk (QMCEngine.advance (Z.of_nat n) (base e)) (seed e) (bases e)
               (scramble e))
  end.

Definition reset (e : t G) : t G :=
  mk (QMCEngine.reset (base e)) (seed e) (bases e) (scramble e).

Definition fast_forward (n : nat) (e : t G) : t G :=
  mk (QMCEngine.fast_forward (Z.of_nat n) (base e)) (seed e) (bases e)
     (scramble e).

End WithSource.

End Halton.

(** ** Orthogonal Latin hypercube *)

Module OrthogonalLatinHypercube.

Section WithSource.
Context {G : Type} `{RandomSource G}.

Definition t : Type := QMCEngine.t G.

Definition __init__ (d : nat) (seed : seed_t G) : t :=
  QMCEngine.__init__ d seed.

(** The loop [for _ in range(self.d)]: one stratified, shuffled column per
    round. *)
Fixpoint columns (d n : nat) (step : Q) (g : G) : list (list Q) * G :=
  match d with
  | O => ([], g)
  | S d' =>
      let j := map (fun i => Qnat i * step) (seq 0 n) in
      let (u, g1) := rs_uniform 0 step n g in
      let temp := map2 Qplus j u in
      let (temp, g2) := rs_shuffle temp g1 in
      let (rest, g3) := columns d' n step g2 in
      (temp :: rest, g3)
  end.

Definition random (n : nat) : meth t array2 :=
  (step <- mlift (div_int 1 n) ;;
   e <- mget ;;
   let (sample, g) := columns (QMCEngine.d e) n step (QMCEngine.get_rng e) in
   mput (QMCEngine.advance (Z.of_nat n) (QMCEngine.set_rng g e)) ;;
   mret (mk_array2 (QMCEngine.d e) (transpose n sample)))%meth.

Definition reset (e : t) : t := QMCEngine.reset e.

Definition fast_forward (n : nat) (e : t) : t :=
  QMCEngine.fast_forward (Z.of_nat n) e.

End WithSource.

End OrthogonalLatinHypercube.

(** ** Latin hypercube *)

Module LatinHypercube.

Record t (G : Type) : Type := mk {
  base : QMCEngine.t G;
  centered : bool
}.
Arguments mk {G}.
Arguments base {G}.
Arguments centered {G}.

Section WithSource.
Context {G : Type} `{RandomSource G}.

Definition __init__ (d : nat) (centered : bool) (seed : seed_t G) : t G :=
  mk (QMCEngine.__init__ d seed) centered.

(** A draw through [self.rg_sample] or [self.rg_integers], the methods of
    [self.rng] bound by [__init__]. *)
Definition with_rng {A : Type} (f : G -> A * G) : meth (t G) A :=
  fun e =>
    let (a, g) := f (QMCEngine.get_rng (base e)) in
    (ok a, mk (QMCEngine.set_rng g (base e)) (centered e)).

Definition with_rng_result {A : Type} (f : G -> result A * G)
  : meth (t G) A :=
  fun e =>
    match f (QMCEngine.get_rng (base e)) with
    | (inl err, _) => (raise err, e)
    | (inr a, g) => (ok a, mk (QMCEngine.set_rng g (base e)) (centered e))
    end.

(** [inv * (q - r)], [r] the float [0.5] or an array of the shape of
    [q]. *)
Definition cells (inv : Q) (q : list Z) (r : option (list Q)) : list Q :=
  match r with
  | None => map (fun qi => inv * (inject_Z qi - (1#2))) q
  | Some r => map2 (fun qi ri => inv * (inject_Z qi - ri)) q r
  end.

Definition random (n : nat) : meth (t G) array2 :=
  (e <- mget ;;
   let d := QMCEngine.d (base e) in
   r <- (if centered e then mret None
         else (r <- with_rng (rs_random (n * d)) ;; mret (Some r))) ;;
   q <- with_rng_result (integers 1 (Z.of_nat n) (n * d)) ;;
   e <- mget ;;
   mput (mk (QMCEngine.advance (Z.of_nat n) (base e)) (centered e)) ;;
   inv <- mlift (div_int 1 n) ;;
   mret (mk_array2 d (reshape n d (cells inv q r))))%meth.

(** [reset]: [__init__] again, with [self.rng_seed] for the seed. *)
Definition reset (e : t G) : t G :=
  __init__ (QMCEngine.d (base e)) (centered e) (QMCEngine.rng_seed (base e)).

Definition fast_forward (n : nat) (e : t G) : t G :=
  mk (QMCEngine.fast_forward (Z.of_nat n) (base e)) (centered e).

End WithSource.

End LatinHypercube.

(** ** Optimal design *)

(** A run of the optimizer [method(func, x0, bounds)], seen from the engine:
    the optimizer asks for the value of [func] at a point and goes on from
    the value it gets, until it stops.  It may draw from the generator it is
    given ([basinhopping] is given [self.rng]); [Stop g] leaves the
    generator in state [g].  An exception of [func] ends the run and is
    raised by [random]. *)
Inductive optimizer_run (G : Type) : Type :=
| Stop (g : G)
| Ask (x : Q * Q * Q) (k : extended -> optimizer_run G).
Arguments Stop {G} g.
Arguments Ask {G} x k.

Definition method_t (G : Type) : Type :=
  Q * Q * Q -> list (Z * Z) -> G -> optimizer_run G.

(** [scipy.optimize.basinhopping] with the [L-BFGS-B] minimizer and
    [niter=100], a collaborator outside the file. *)
Class Minimizer (G : Type) : Type := {
  basinhopping : method_t G
}.

Module OptimalDesign.

Record t (G : Type) : Type := mk {
  base : QMCEngine.t G;
  start_design : option array2;
  niter : nat;
  method : method_t G;
  best_doe : option array2;
  best_disc : extended;
  (** [self.olhs]; its [rng] is the object [self.rng], whose state is kept
      in [base] *)
  olhs : QMCEngine.t G
}.
Arguments mk {G}.
Arguments base {G}.
Arguments start_design {G}.
Arguments niter {G}.
Arguments method {G}.
Arguments best_doe {G}.
Arguments best_disc {G}.
Arguments olhs {G}.

Section WithSource.
Context {G : Type} `{RandomSource G} `{Minimizer G}.

(** [__init__(d, start_design, niter, method, seed)]; the defaults are
    [start_design=None], [niter=1], [method=None]. *)
Definition __init__ (d : nat) (start_design : option array2) (niter : nat)
  (method : option (method_t G)) (seed : seed_t G) : result (t G) :=
  let base := QMCEngine.__init__ d seed in
  let method := match method with
                | None => basinhopping
                | Some m => m
                end in
  let? best_disc :=
    match start_design with
    | Some design =>
        let? c := Discrepancy.discrepancy design false Discrepancy.CD in
        ok (Finite c)
    | None => ok PlusInf
    end in
  ok (mk base start_design niter method start_design best_disc
         (OrthogonalLatinHypercube.__init__ d
            (SeedGen (QMCEngine.get_rng base)))).

(** [self.olhs.random(n)]: the draw advances the generator that [self.rng]
    and [self.olhs.rng] both name. *)
Definition olhs_random (n : nat) : meth (t G) array2 :=
  fun e =>
    let view :=
      QMCEngine.mk (QMCEngine.d (olhs e))
                   (QMCEngine.Own (QMCEngine.get_rng (base e)))
                   (QMCEngine.rng_seed (olhs e))
                   (QMCEngine.num_generated (olhs e)) in
    let (r, view') := OrthogonalLatinHypercube.random n view in
    (r, mk (QMCEngine.set_rng (QMCEngine.get_rng view') (base e))
           (start_design e) (niter e) (method e) (best_doe e) (best_disc e)
           view').

(** [_perturb_discrepancy(self.best_doe, ..., self.best_disc)]: an
    infinite [disc] stays infinite. *)
Definition perturb_ext (doe : array2) (row_1 row_2 col : Z) (disc : extended)
  : result extended :=
  match disc with
  | Finite c =>
      let? v := Discrepancy.perturb_discrepancy doe row_1 row_2 col c in
      ok (Finite v)
  | PlusInf =>
      let? _ := Discrepancy.perturb_discrepancy doe row_1 row_2 col 0 in
      ok PlusInf
  end.

(** [doe[row_1, col], doe[row_2, col] = doe[row_2, col], doe[row_1, col]] *)
Definition swap_cells (doe : array2) (row_1 row_2 col : nat) : array2 :=
  let a := nth col (nth row_2 (rows doe) []) 0 in
  let b := nth col (nth row_1 (rows doe) []) 0 in
  let rows1 :=
    set_at row_1
      (set_at col a (nth row_1 (rows doe) [])) (rows doe) in
  let rows2 :=
    set_at row_2
      (set_at col b (nth row_2 rows1 [])) rows1 in
  mk_array2 (ncols doe) rows2.

(** The closure [_perturb_best_doe(x)] of [random]. *)
Definition _perturb_best_doe (x : Q * Q * Q) : meth (t G) extended :=
  fun e =>
    match best_doe e with
    | None => (raise AttributeError, e)
    | Some doe =>
        let '(x0, x1, x2) := x in
        let col := np_round x0 in
        let row_1 := np_round x1 in
        let row_2 := np_round x2 in
        match perturb_ext doe row_1 row_2 col (best_disc e) with
        | inl err => (raise err, e)
        | inr disc =>
            if ext_ltb disc (best_disc e)
            then
              match np_index row_1 (nrows doe),
                    np_index row_2 (nrows doe),
                    np_index col (ncols doe) with
              | inr r1, inr r2, inr c =>
                  (ok disc,
                   mk (base e) (start_design e) (niter e) (method e)
                      (Some (swap_cells doe r1 r2 c)) disc (olhs e))
              | _, _, _ => (raise IndexError, e)
              end
            else (ok disc, e)
        end
    end.

(** One call [self.method(_perturb_best_doe, x0, bounds)], the optimizer
    having decided on the run [r]. *)
Fixpoint run (r : optimizer_run G) : meth (t G) unit :=
  match r with
  | Stop g =>
      fun e => (ok tt,
                mk (QMCEngine.set_rng g (base e)) (start_design e) (niter e)
                   (method e) (best_doe e) (best_disc e) (olhs e))
  | Ask x k =>
      (disc <- _perturb_best_doe x ;; run (k disc))%meth
  end.

(** [for _ in range(self.niter): self.method(...)] *)
Fixpoint iterate (niter : nat) (x0 : Q * Q * Q) (bounds : list (Z * Z))
  : meth (t G) unit :=
  match niter with
  | O => mret tt
  | S niter' =>
      (e <- mget ;;
       run (method e x0 bounds (QMCEngine.get_rng (base e))) ;;
       iterate niter' x0 bounds)%meth
  end.

(** The first block of [random]: the design to start from. *)
Definition initial_design (n : nat) : meth (t G) unit :=
  (e <- mget ;;
   match best_doe e with
   | Some _ => mret tt
   | None =>
       doe <- olhs_random n ;;
       e <- mget ;;
       mput (mk (base e) (start_design e) (niter e) (method e) (Some doe)
                (best_disc e) (olhs e)) ;;
       c <- mlift (Discrepancy.discrepancy doe false Discrepancy.CD) ;;
       e <- mget ;;
       mput (mk (base e) (start_design e) (niter e) (method e) (best_doe e)
                (Finite c) (olhs e))
   end)%meth.

Definition random (n : nat) : meth (t G) array2 :=
  (e <- mget ;;
   let d := QMCEngine.d (base e) in
   if (d =? 0)%nat then mret (mk_array2 0 (repeat [] n))
   else
     initial_design n ;;
     iterate (niter e) (0, 0, 0)
       [(0, Z.of_nat d - 1); (0, Z.of_nat n - 1); (0, Z.of_nat n - 1)]%Z ;;
     e <- mget ;;
     mput (mk (QMCEngine.advance (Z.of_nat n) (base e)) (start_design e)
              (niter e) (method e) (best_doe e) (best_disc e) (olhs e)) ;;
     match best_doe e with
     | Some doe => mret doe
     | None => mraise AttributeError
     end)%meth.

(** [reset]: [self.__init__(d=self.d, seed=self.rng_seed)], every other
    argument at its default. *)
Definition reset (e : t G) : t G :=
  let base := QMCEngine.__init__ (QMCEngine.d (base e))
                (QMCEngine.rng_seed (base e)) in
  mk base None 1 basinhopping None PlusInf
     (OrthogonalLatinHypercube.__init__ (QMCEngine.d base)
        (SeedGen (QMCEngine.get_rng base))).

Definition fast_forward (n : nat) (e : t G) : t G :=
  mk (QMCEngine.fast_forward (Z.of_nat n) (base e)) (start_design e) (niter e)
     (method e) (best_doe e) (best_disc e) (olhs e).

End WithSource.

End OptimalDesign.

(** ** Sobol' *)

(** The direction numbers and the scrambling of [scipy.stats._sobol], which
    is not part of the file: [initialize_v d] is the [d x MAXBIT] matrix
    that [initialize_v(sv, d)] fills, [cscramble d ltm sv] the matrix that
    [_cscramble(d, ltm, sv)] leaves in [sv]. *)
Class SobolTables : Type := {
  initialize_v : nat -> list (list Z);
  cscramble : nat -> list (list (list Z)) -> list (list Z) -> list (list Z)
}.

Module Sobol.

Definition MAXDIM : Z := 21201.
Definition MAXBIT : nat := 30.

Record t (G : Type) : Type := mk {
  base : QMCEngine.t G;
  _sv : list (list Z);
  _shift : list Z;
  _quasi : list Z;
  _first_point : list Q
}.
Arguments mk {G}.
Arguments base {G}.
Arguments _sv {G}.
Arguments _shift {G}.
Arguments _quasi {G}.
Arguments _first_point {G}.

(** The position of the lowest bit of [i] that is not set. *)
Fixpoint low_0_bit_pos (p : positive) : nat :=
  match p with
  | xI p' => S (low_0_bit_pos p')
  | xO _ => O
  | xH => 1%nat
  end.

Definition low_0_bit (i : Z) : nat :=
  match i with
  | Zpos p => low_0_bit_pos p
  | _ => O
  end.

(** Modelled from the spec: [_draw] and [_fast_forward] of
    [scipy.stats._sobol] are not part of the file.  One step of the
    Gray-code recurrence at index [i]: [quasi[j] ^= V[j][c]] for every
    dimension [j], [c] the position of the lowest unset bit of [i]. *)
Definition gray_step (sv : list (list Z)) (i : Z) (quasi : list Z) : list Z :=
  map2 (fun q v => Z.lxor q (nth (low_0_bit i) v 0%Z)) quasi sv.

(** Modelled from the spec: the point that a state of [quasi] emits,
    [quasi / 2 ** MAXBIT]. *)
Definition emit (quasi : list Z) : list Q :=
  map (fun q => inject_Z q / inject_Z (2 ^ Z.of_nat MAXBIT)) quasi.

(** Modelled from the spec: [_draw(n, num_gen, d, sv, quasi, sample)],
    the points emitted at the indices [num_gen, ..., num_gen + n - 1] and
    the accumulator after them. *)
Fixpoint _draw (n : nat) (num_gen : Z) (sv : list (list Z)) (quasi : list Z)
  : list (list Q) * list Z :=
  match n with
  | O => ([], quasi)
  | S n' =>
      let quasi := gray_step sv num_gen quasi in
      let (points, quasi') := _draw n' (num_gen + 1) sv quasi in
      (emit quasi :: points, quasi')
  end.

(** Modelled from the spec: [_fast_forward(n, num_gen, d, sv, quasi)], [n]
    consecutive steps without emission. *)
Fixpoint _fast_forward (n : nat) (num_gen : Z) (sv : list (list Z))
  (quasi : list Z) : list Z :=
  match n with
  | O => quasi
  | S n' => _fast_forward n' (num_gen + 1) sv (gray_step sv num_gen quasi)
  end.

Section WithSource.
Context {G : Type} `{RandomSource G} `{SobolTables}.

(** [np.tril] of a square matrix. *)
Definition tril (m : list (list Z)) : list (list Z) :=
  map (fun ir : nat * list Z =>
         let (i, r) := ir in
         map (fun jx : nat * Z =>
                let (j, x) := jx in if (j <=? i)%nat then x else 0%Z)
             (combine (seq 0 (length r)) r))
      (combine (seq 0 (length m)) m).

(** [np.dot(bits, 2 ** np.arange(MAXBIT))] for one row of bits. *)
Definition dot_pow2 (bits : list Z) : Z :=
  fold_right Z.add 0%Z
    (map2 (fun b k => (b * 2 ^ Z.of_nat k)%Z) bits (seq 0 MAXBIT)).

(** [_scramble]: the shift and the scrambled direction numbers. *)
Definition _scramble (d : nat) (sv : list (list Z)) (g : G)
  : list Z * list (list Z) * G :=
  let (bits, g1) := rs_integers 0 2 (d * MAXBIT) g in
  let shift := map dot_pow2 (reshape d MAXBIT bits) in
  let (tri, g2) := rs_integers 0 2 (d * MAXBIT * MAXBIT) g1 in
  let ltm := map tril (map (reshape MAXBIT MAXBIT)
                         (reshape d (MAXBIT * MAXBIT) tri)) in
  (shift, cscramble d ltm sv, g2).

Definition __init__ (d : nat) (scramble : bool) (seed : seed_t G)
  : result (t G) :=
  if (MAXDIM <? Z.of_nat d)%Z then raise ValueError
  else
    let base := QMCEngine.__init__ d seed in
    let sv := initialize_v d in
    let '(shift, sv, base) :=
      if scramble
      then let '(shift, sv, g) := _scramble d sv (QMCEngine.get_rng base) in
           (shift, sv, QMCEngine.set_rng g base)
      else (repeat 0%Z d, sv, base) in
    ok (mk base sv shift shift (emit shift)).

(** [self.num_generated += n] *)
Definition advance (n : Z) (e : t G) : t G :=
  mk (QMCEngine.advance n (base e)) (_sv e) (_shift e) (_quasi e)
     (_first_point e).

(** [_draw(n, num_gen, ...)] on the engine: the first rows of [sample] are
    written and [self._quasi] is updated in place. *)
Definition draw_into (n : Z) (num_gen : Z) (sample : list (list Q))
  (e : t G) : list (list Q) * t G :=
  let (points, quasi) := _draw (Z.to_nat n) num_gen (_sv e) (_quasi e) in
  (firstn (length sample) (points ++ skipn (length points) sample),
   mk (base e) (_sv e) (_shift e) quasi (_first_point e)).

(** [random(n)].  [np.empty((n, d))] is an array of unspecified content,
    here of zeros; the warning on an [n] that is not a power of two has no
    effect on the engine or on the sample. *)
Definition random (n : nat) : meth (t G) array2 :=
  fun e =>
    let d := QMCEngine.d (base e) in
    let sample := repeat (repeat 0 d) n in
    let (sample, e) :=
      if (QMCEngine.num_generated (base e) =? 0)%Z then
        if (n =? 1)%nat then ([_first_point e], e)
        else
          let (sample, e) :=
            draw_into (Z.of_nat n - 1) (QMCEngine.num_generated (base e))
                      sample e in
          (firstn n (_first_point e :: sample), e)
      else
        draw_into (Z.of_nat n) (QMCEngine.num_generated (base e) - 1)
                  sample e in
    (ok (mk_array2 d sample), advance (Z.of_nat n) e).

Definition random_base2 (m : nat) : meth (t G) array2 :=
  fun e =>
    let n := (2 ^ Z.of_nat m)%Z in
    let total_n := (QMCEngine.num_generated (base e) + n)%Z in
    if negb (Z.land total_n (total_n - 1) =? 0)%Z
    then (raise ValueError, e)
    else random (Z.to_nat n) e.

Definition reset (e : t G) : t G :=
  mk (QMCEngine.mk (QMCEngine.d (base e)) (QMCEngine.rng (base e))
                   (QMCEngine.rng_seed (base e)) 0)
     (_sv e) (_shift e) (_shift e) (_first_point e).

Definition fast_forward (n : nat) (e : t G) : t G :=
  let quasi :=
    if (QMCEngine.num_generated (base e) =? 0)%Z
    then _fast_forward (Z.to_nat (Z.of_nat n - 1))
           (QMCEngine.num_generated (base e)) (_sv e) (_quasi e)
    else _fast_forward n (QMCEngine.num_generated (base e) - 1) (_sv e)
           (_quasi e) in
  advance (Z.of_nat n)
    (mk (base e) (_sv e) (_shift e) quasi (_first_point e)).

End WithSource.

End Sobol.

(** [a op v] for [a] of shape [(n, d)] and [v] of shape [(d',)], with the
    broadcasting of [numpy]: the trailing lengths are equal, or one of them
    is [1]. *)
Definition broadcast (op : Q -> Q -> Q) (a : array2) (v : list Q)
  : result array2 :=
  if (ncols a =? length v)%nat
  then ok (mk_array2 (ncols a) (map (fun r => map2 op r v) (rows a)))
  else if (ncols a =? 1)%nat
  then ok (mk_array2 (length v)
             (map (fun r => map (op (nth 0 r 0)) v) (rows a)))
  else if (length v =? 1)%nat
  then ok (mk_array2 (ncols a)
             (map (map (fun x => op x (nth 0 v 0))) (rows a)))
  else raise ValueError.

(** ** The engine interface

    What a sampler that is built on another engine uses of it ([random],
    [reset]), with the cursor and [fast_forward] of the base class.
    [random] is [None] when the call does not return; [cursor] and
    [fast_forward] raise [AttributeError] on an object that has no
    [num_generated]. *)
Class Engine (E : Type) : Type := {
  engine_random : nat -> E -> option (result array2 * E);
  engine_reset : E -> E;
  engine_fast_forward : nat -> E -> result unit * E;
  engine_cursor : E -> result Z
}.

(** The special functions and the linear algebra that the normal sampler
    takes from [numpy] and [scipy.stats.norm]; [cov_root_of] is the root of
    a covariance matrix that [__init__] computes (the symmetry test, the
    Cholesky factor or the eigendecomposition). *)
Class SpecialFunctions : Type := {
  norm_ppf : Q -> Q;
  np_sqrt : Q -> Q;
  np_log : Q -> Q;
  np_cos : Q -> Q;
  np_sin : Q -> Q;
  math_pi : Q;
  cov_root_of : list (list Q) -> result (list (list Q))
}.

(** ** Multivariate normal *)

Module MultivariateNormalQMC.

Record t (G E : Type) : Type := mk {
  base : QMCEngine.t G;
  _inv_transform : bool;
  engine : E;
  _mean : list Q;
  _corr_matrix : option (list (list Q))
}.
Arguments mk {G E}.
Arguments base {G E}.
Arguments _inv_transform {G E}.
Arguments engine {G E}.
Arguments _mean {G E}.
Arguments _corr_matrix {G E}.

Section WithSource.
Context {G : Type} `{RandomSource G} `{SobolTables} `{SpecialFunctions}.

(** The covariance arguments of [__init__]: the root that is stored. *)
Definition root (d : nat) (cov cov_root : option (list (list Q)))
  : result (option (list (list Q))) :=
  match cov, cov_root with
  | Some cov, _ =>
      if negb (d =? length cov)%nat then raise ValueError
      else let? r := cov_root_of cov in ok (Some r)
  | None, Some cov_root =>
      if negb (d =? length cov_root)%nat then raise ValueError
      else ok (Some cov_root)
  | None, None => ok None
  end.

(** [2 * math.ceil(d / 2)] *)
Definition engine_dim (d : nat) (inv_transform : bool) : nat :=
  if inv_transform then d else (2 * ((d + 1) / 2))%nat.

(** [__init__] with an [engine] given. *)
Definition __init__ {E : Type} (mean : list Q)
  (cov cov_root : option (list (list Q))) (inv_transform : bool) (engine : E)
  (seed : seed_t G) : result (t G E) :=
  let d := length mean in
  let? cov_root := root d cov cov_root in
  ok (mk (QMCEngine.__init__ d seed) inv_transform engine mean cov_root).

(** [__init__] with [engine=None]: a scrambled Sobol' engine. *)
Definition __init__default (mean : list Q)
  (cov cov_root : option (list (list Q))) (inv_transform : bool)
  (seed : seed_t G) : result (t G (Sobol.t G)) :=
  let d := length mean in
  let? cov_root := root d cov cov_root in
  let? engine := Sobol.__init__ (engine_dim d inv_transform) true seed in
  ok (mk (QMCEngine.__init__ d seed) inv_transform engine mean cov_root).

(** [a[even]] and [a[1 + even]] of one row: the entries at the even
    positions, and the ones that follow them. *)
Fixpoint pairs (row : list Q) : result (list (Q * Q)) :=
  match row with
  | [] => ok []
  | [_] => raise IndexError
  | u :: v :: row' => let? ps := pairs row' in ok ((u, v) :: ps)
  end.

Fixpoint mapM {A B : Type} (f : A -> result B) (l : list A)
  : result (list B) :=
  match l with
  | [] => ok []
  | x :: l' => let? y := f x in let? ys := mapM f l' in ok (y :: ys)
  end.

(** The Box-Muller transform of one row: [Rs * cos] and [Rs * sin] of
    every pair, next to each other as [np.stack(..., -1)] lays them out. *)
Definition box_muller (row : list Q) : result (list Q) :=
  let? ps := pairs row in
  ok (flat_map (fun uv : Q * Q =>
                  let (u, v) := uv in
                  let Rs := np_sqrt (- (2) * np_log u) in
                  let theta := 2 * math_pi * v in
                  [Rs * np_cos theta; Rs * np_sin theta]) ps).

(** [a.reshape(n, -1)]: [n] rows of the entries of [a] in order;
    [ValueError] when [n] is zero or does not divide their number. *)
Definition reshape_rows (n : nat) (a : list (list Q)) : result array2 :=
  let flat := concat a in
  if (n =? 0)%nat || negb (length flat mod n =? 0)%nat then raise ValueError
  else ok (mk_array2 (length flat / n) (reshape n (length flat / n) flat)).

(** [a[:, :d]] *)
Definition first_columns (d : nat) (a : array2) : array2 :=
  mk_array2 (Nat.min d (ncols a)) (map (firstn d) (rows a)).

(** [a @ m] *)
Definition matmul (a : array2) (m : list (list Q)) : result array2 :=
  if (ncols a =? length m)%nat
  then ok (mk_array2 (length (hd [] m))
             (map (fun row =>
                     fold_right (map2 Qplus) (repeat 0 (length (hd [] m)))
                       (map2 (fun x r => map (Qmult x) r) row m))
                  (rows a)))
  else raise ValueError.

Definition _correlate {E : Type} (e : t G E) (base_samples : array2)
  : result array2 :=
  match _corr_matrix e with
  | Some m =>
      let? p := matmul base_samples m in broadcast Qplus p (_mean e)
  | None => broadcast Qplus base_samples (_mean e)
  end.

Section WithEngine.
Context {E : Type} `{Engine E}.

Definition with_engine (e : t G E) (engine' : E) : t G E :=
  mk (base e) (_inv_transform e) engine' (_mean e) (_corr_matrix e).

(** [_standard_normal_samples(n)].  In the Box-Muller branch
    [samples[:, 1 + even]] is out of bounds when the engine has an odd
    number of columns. *)
Definition _standard_normal_samples (n : nat) (e : t G E)
  : option (result array2 * t G E) :=
  match engine_random n (engine e) with
  | None => None
  | Some (inl err, engine') => Some (raise err, with_engine e engine')
  | Some (inr samples, engine') =>
      Some (if _inv_transform e
            then ok (mk_array2 (ncols samples)
                       (map (map (fun s =>
                                    norm_ppf ((1#2) + (1 - (1 # 10 ^ 10))
                                                      * (s - (1#2)))))
                            (rows samples)))
            else if Nat.odd (ncols samples) then raise IndexError
            else
              let? transf := mapM box_muller (rows samples) in
              let? transf_samples := reshape_rows n transf in
              ok (first_columns (QMCEngine.d (base e)) transf_samples),
            with_engine e engine')
  end.

Definition random (n : nat) (e : t G E) : option (result array2 * t G E) :=
  match _standard_normal_samples n e with
  | None => None
  | Some (inl err, e') => Some (raise err, e')
  | Some (inr base_samples, e') => Some (_correlate e' base_samples, e')
  end.

Definition reset (e : t G E) : t G E :=
  with_engine e (engine_reset (engine e)).

(** [fast_forward] is the one of the base class. *)
Definition fast_forward (n : nat) (e : t G E) : t G E :=
  mk (QMCEngine.fast_forward (Z.of_nat n) (base e)) (_inv_transform e)
     (engine e) (_mean e) (_corr_matrix e).

End WithEngine.

End WithSource.

End MultivariateNormalQMC.

(** ** Multinomial *)

Module MultinomialQMC.

(** The attributes that [__init__] sets; it does not call the one of the
    base class: the object has no [d], [rng], [rng_seed] or
    [num_generated]. *)
Record t (E : Type) : Type := mk {
  pvals : list Q;
  engine : E
}.
Arguments mk {E}.
Arguments pvals {E}.
Arguments engine {E}.

(** Modelled from the spec: [_fill_p_cumulative] of [scipy.stats._sobol] is
    not part of the file; the cumulative probability vector of [p]. *)
Fixpoint _fill_p_cumulative (acc : Q) (p : list Q) : list Q :=
  match p with
  | [] => []
  | x :: p' => (acc + x) :: _fill_p_cumulative (acc + x) p'
  end.

(** The smallest index [k] with [u < P[k]]. *)
Fixpoint find_index (u : Q) (P : list Q) : option nat :=
  match P with
  | [] => None
  | x :: P' =>
      if negb (Qle_bool x u) then Some O
      else match find_index u P' with
           | Some k => Some (S k)
           | None => None
           end
  end.

(** Modelled from the spec: [_categorize] of [scipy.stats._sobol] is not
    part of the file; every draw [u] adds one to [sample[k]], [k] the
    smallest index with [u < P[k]]. *)
Fixpoint _categorize (draws : list Q) (P : list Q) (sample : list Z)
  : list Z :=
  match draws with
  | [] => sample
  | u :: draws' =>
      let sample :=
        match find_index u P with
        | Some k => set_at k (nth k sample 0 + 1)%Z sample
        | None => sample
        end in
      _categorize draws' P sample
  end.

Section WithEngine.
Context {E : Type} `{Engine E}.

Definition random (n : nat) (e : t E) : option (result (list Z) * t E) :=
  match engine_random n (engine e) with
  | None => None
  | Some (inl err, engine') => Some (raise err, mk (pvals e) engine')
  | Some (inr draws, engine') =>
      let base_draws := concat (rows draws) in
      let p_cumulative := _fill_p_cumulative 0 (pvals e) in
      let sample := repeat 0%Z (length (pvals e)) in
      Some (ok (_categorize base_draws p_cumulative sample),
            mk (pvals e) engine')
  end.

Definition reset (e : t E) : t E := mk (pvals e) (engine_reset (engine e)).

(** [fast_forward] is the one of the base class: [self.num_generated += n]
    on an object without the attribute. *)
Definition fast_forward (n : nat) (e : t E) : result unit * t E :=
  (raise AttributeError, e).

(** [self.num_generated] *)
Definition num_generated (e : t E) : result Z := raise AttributeError.

End WithEngine.

End MultinomialQMC.

(** ** The engines as instances of the interface *)

Section Instances.
Context {G : Type} `{RandomSource G} `{Minimizer G} `{SobolTables}
  `{SpecialFunctions}.

#[export] Instance Halton_Engine : Engine (Halton.t G) := {
  engine_random := Halton.random;
  engine_reset := Halton.reset;
  engine_fast_forward n e := (ok tt, Halton.fast_forward n e);
  engine_cursor e := ok (QMCEngine.num_generated (Halton.base e))
}.

#[export] Instance OrthogonalLatinHypercube_Engine
  : Engine (@OrthogonalLatinHypercube.t G) := {
  engine_random n e := Some (OrthogonalLatinHypercube.random n e);
  engine_reset := OrthogonalLatinHypercube.reset;
  engine_fast_forward n e := (ok tt, OrthogonalLatinHypercube.fast_forward n e);
  engine_cursor e := ok (QMCEngine.num_generated e)
}.

#[export] Instance LatinHypercube_Engine : Engine (LatinHypercube.t G) := {
  engine_random n e := Some (LatinHypercube.random n e);
  engine_reset := LatinHypercube.reset;
  engine_fast_forward n e := (ok tt, LatinHypercube.fast_forward n e);
  engine_cursor e := ok (QMCEngine.num_generated (LatinHypercube.base e))
}.

#[export] Instance OptimalDesign_Engine : Engine (OptimalDesign.t G) := {
  engine_random n e := Some (OptimalDesign.random n e);
  engine_reset := OptimalDesign.reset;
  engine_fast_forward n e := (ok tt, OptimalDesign.fast_forward n e);
  engine_cursor e := ok (QMCEngine.num_generated (OptimalDesign.base e))
}.

#[export] Instance Sobol_Engine : Engine (Sobol.t G) := {
  engine_random n e := Some (Sobol.random n e);
  engine_reset := Sobol.reset;
  engine_fast_forward n e := (ok tt, Sobol.fast_forward n e);
  engine_cursor e := ok (QMCEngine.num_generated (Sobol.base e))
}.

#[export] Instance MultivariateNormalQMC_Engine {E : Type} `{Engine E}
  : Engine (MultivariateNormalQMC.t G E) := {
  engine_random := MultivariateNormalQMC.random;
  engine_reset := MultivariateNormalQMC.reset;
  engine_fast_forward n e := (ok tt, MultivariateNormalQMC.fast_forward n e);
  engine_cursor e :=
    ok (QMCEngine.num_generated (MultivariateNormalQMC.base e))
}.

End Instances.

(** ** A generator to run the engines with

    The state is the number of values drawn so far, and the draw at
    position [k] of the stream is a fixed function of [k]. *)

Module Counter.

Definition float_at (k : nat) : Q :=
  inject_Z ((7 * Z.of_nat k + 3) mod 16) / 16.

Definition int_at (low high : Z) (k : nat) : Z :=
  (low + Z.of_nat k mod (high - low))%Z.

Definition rotate {A : Type} (k : nat) (l : list A) : list A :=
  skipn (k mod length l) l ++ firstn (k mod length l) l.

Definition random (size : nat) (g : nat) : list Q * nat :=
  (map (fun i => float_at (g + i)) (seq 0 size), (g + size)%nat).

Definition integers (low high : Z) (size : nat) (g : nat) : list Z * nat :=
  (map (fun i => int_at low high (g + i)) (seq 0 size), (g + size)%nat).

Definition uniform (low high : Q) (size : nat) (g : nat) : list Q * nat :=
  (map (fun i => low + (high - low) * float_at (g + i)) (seq 0 size),
   (g + size)%nat).

Definition shuffle (x : list Q) (g : nat) : list Q * nat :=
  (rotate g x, S g).

Definition permutation (n : Z) (g : nat) : list Z * nat :=
  (rotate g (map Z.of_nat (seq 0 (Z.to_nat n))), S g).

Lemma integers_range (low high : Z) (size g : nat) :
  (low < high)%Z ->
  Forall (fun z => (low <= z < high)%Z) (fst (integers low high size g)).
Proof.
  intros Hlt. unfold integers, int_at. simpl.
  apply Forall_map, Forall_forall. intros i _.
  pose proof (Z.mod_pos_bound (Z.of_nat (g + i)) (high - low)). lia.
Qed.

Lemma integers_length (low high : Z) (size g : nat) :
  length (fst (integers low high size g)) = size.
Proof.
  unfold integers. simpl. now rewrite length_map, length_seq.
Qed.

#[global] Instance source : RandomSource nat := {
  default_rng z := Z.to_nat z;
  rs_random := random;
  rs_integers := integers;
  rs_uniform := uniform;
  rs_shuffle := shuffle;
  rs_permutation := permutation;
  rs_integers_range := integers_range;
  rs_integers_length := integers_length
}.

(** An optimizer that asks for the value at [x0] and stops. *)
#[global] Instance minimizer : Minimizer nat := {
  basinhopping x0 _ g := Ask x0 (fun _ => Stop g)
}.

End Counter.

(** ** Direction numbers to run the Sobol' engine with

    The first two rows of the table: [V[0][k] = 1 << (B - 1 - k)], and the
    second dimension (polynomial [x + 1], [m_1 = 1]) with
    [m_k = 2 m_(k-1) xor m_(k-1)] and [V[1][k] = m_(k+1) << (B - 1 - k)].
    The scrambling of the direction numbers is left as the identity. *)

Module JoeKuo.

Fixpoint m_values (n : nat) (m : Z) : list Z :=
  match n with
  | O => []
  | S n' => m :: m_values n' (Z.lxor (2 * m) m)
  end.

Definition row0 : list Z :=
  map (fun k => Z.shiftl 1 (Z.of_nat (Sobol.MAXBIT - 1 - k)))
      (seq 0 Sobol.MAXBIT).

Definition row1 : list Z :=
  map2 (fun m k => Z.shiftl m (Z.of_nat (Sobol.MAXBIT - 1 - k)))
       (m_values Sobol.MAXBIT 1) (seq 0 Sobol.MAXBIT).

#[global] Instance tables : SobolTables := {
  initialize_v d := firstn d [row0; row1];
  cscramble _ _ sv := sv
}.

End JoeKuo.

(** ** Scaling *)

Module Scale.

(** [np.min(a, axis=0)] and [np.max(a, axis=0)] of an array of shape
    [(k, d)]: the reduction of every column with [pick]; a reduction over
    an axis of length zero raises [ValueError]. *)
Definition reduce_axis0 (pick : Q -> Q -> Q) (a : array2) : result (list Q) :=
  match rows a with
  | [] => raise ValueError
  | r :: rs =>
      ok (map (fun j => fold_left pick (column j rs) (nth j r 0))
              (seq 0 (ncols a)))
  end.

(** [scale(sample, bounds, reverse)] for a two-dimensional [sample] and
    [bounds].  The quotient of the reverse transformation is the total one
    of [numpy] ([inf] or [nan] on a zero divisor, with a warning), as
    [Qdiv] is total. *)
Definition scale (sample bounds : array2) (reverse : bool) : result array2 :=
  let? min_ := reduce_axis0 Qmin bounds in
  let? max_ := reduce_axis0 Qmax bounds in
  if negb reverse then
    let? t := broadcast Qmult sample (map2 Qminus max_ min_) in
    broadcast Qplus t min_
  else
    let? t := broadcast Qminus sample min_ in
    broadcast Qdiv t (map2 Qminus max_ min_).

End Scale.

(** ** Special functions to run the normal sampler with

    Stand-ins: the properties of the sampler hold for every instance. *)
Module StandIn.

#[global] Instance functions : SpecialFunctions := {
  norm_ppf x := x - (1#2);
  np_sqrt x := x;
  np_log x := x - 1;
  np_cos x := 1 - x * x / 2;
  np_sin x := x;
  math_pi := 355 # 113;
  cov_root_of m := ok m
}.

End StandIn.

(** * Properties *)

Section ListSums.

Lemma sumQ_app (l m : list Q) : sumQ (l ++ m) == sumQ l + sumQ m.
Proof.
  induction l as [|x l IH]; simpl.
  - ring.
  - rewrite IH. ring.
Qed.

Lemma sumQ_map_ext_in {A : Type} (f g : A -> Q) (l : list A) :
  (forall x, In x l -> f x == g x) -> sumQ (map f l) == sumQ (map g l).
Proof.
  induction l as [|x l IH]; intros H; simpl.
  - reflexivity.
  - rewrite (H x) by (left; reflexivity).
    rewrite IH by (intros y Hy; apply H; right; exact Hy).
    reflexivity.
Qed.

Lemma sumQ_map_plus {A : Type} (f g : A -> Q) (l : list A) :
  sumQ (map (fun x => f x + g x) l) == sumQ (map f l) + sumQ (map g l).
Proof.
  induction l as [|x l IH]; simpl.
  - ring.
  - rewrite IH. ring.
Qed.

Lemma sumQ_map_insert {A : Type} (f : A -> Q) (l1 l2 : list A) (x : A) :
  sumQ (map f (l1 ++ x :: l2)) == sumQ (map f (l1 ++ l2)) + f x.
Proof.
  rewrite !map_app, !sumQ_app. simpl. ring.
Qed.

End ListSums.

(** ** The centered discrepancy as a double sum over pairs of rows *)

Section PairSums.

Import Discrepancy.

(** The double sum [sum_a sum_b K a b] over the rows of a design. *)
Definition dsum (K : list Q -> list Q -> Q) (l : list (list Q)) : Q :=
  sumQ (map (fun a => sumQ (map (K a) l)) l).

Definition row_kernel (f : Q -> Q -> Q) (a b : list Q) : Q :=
  prodQ (map2 f a b).

Lemma dsum_insert (K : list Q -> list Q -> Q) (l1 l2 : list (list Q))
  (x : list Q) :
  (forall a, K a x == K x a) ->
  dsum K (l1 ++ x :: l2)
  == dsum K (l1 ++ l2) + 2 * sumQ (map (K x) (l1 ++ l2)) + K x x.
Proof.
  intros Hsym. unfold dsum.
  rewrite (sumQ_map_insert (fun a => sumQ (map (K a) (l1 ++ x :: l2)))).
  rewrite (sumQ_map_insert (K x)).
  rewrite (sumQ_map_ext_in
             (fun a => sumQ (map (K a) (l1 ++ x :: l2)))
             (fun a => sumQ (map (K a) (l1 ++ l2)) + K x a)).
  - rewrite sumQ_map_plus. ring.
  - intros a _. rewrite sumQ_map_insert, Hsym. reflexivity.
Qed.

Lemma map2_map_same {A B C D : Type} (op : B -> C -> D) (g : A -> B)
  (h : A -> C) (l : list A) :
  map2 op (map g l) (map h l) = map (fun x => op (g x) (h x)) l.
Proof.
  induction l as [|x l IH]; simpl; [reflexivity | now rewrite IH].
Qed.

Lemma fold_left_ext_in {A B : Type} (f g : A -> B -> A) (l : list B) (a : A) :
  (forall a' b, In b l -> f a' b = g a' b) ->
  fold_left f l a = fold_left g l a.
Proof.
  revert a. induction l as [|b l IH]; intros a H; simpl.
  - reflexivity.
  - rewrite (H a b) by (left; reflexivity).
    apply IH. intros a' b' Hb'. apply H. right. exact Hb'.
Qed.

Lemma fold_left_over_map {A B C : Type} (f : A -> C -> A) (g : B -> C)
  (l : list B) (a : A) :
  fold_left f (map g l) a = fold_left (fun a' b => f a' (g b)) l a.
Proof.
  revert a. induction l as [|b l IH]; intros a; simpl; [reflexivity|apply IH].
Qed.

(** Entry [(a, b)] of [prod_arr] once the columns in [cols] are multiplied
    in, from the entry [acc] it had before. *)
Definition entry_after (f : Q -> Q -> Q) (cols : list nat) (acc : Q)
  (a b : list Q) : Q :=
  fold_left (fun p i => p * f (nth i a 0) (nth i b 0)) cols acc.

Lemma loop_from_matrix (f : Q -> Q -> Q) (rs : list (list Q)) (cols : list nat)
  (acc : list Q -> list Q -> Q) :
  fold_left (fun p i => imul p (outer f (column i rs))) cols
    (Matrix (map (fun a => map (fun b => acc a b) rs) rs))
  = Matrix (map (fun a => map (fun b => entry_after f cols (acc a b) a b) rs)
              rs).
Proof.
  revert acc. induction cols as [|i cols IH]; intros acc; simpl.
  - reflexivity.
  - unfold outer, column. rewrite map_map.
    rewrite (map2_map_same (map2 Qmult)).
    rewrite (map_ext _ (fun a => map (fun b => acc a b * f (nth i a 0) (nth i b 0)) rs)).
    + apply (IH (fun a b => acc a b * f (nth i a 0) (nth i b 0))).
    + intros a. rewrite map_map. apply map2_map_same.
Qed.

Lemma loop_from_scalar (f : Q -> Q -> Q) (rs : list (list Q)) (i : nat)
  (cols : list nat) (q : Q) :
  fold_left (fun p i => imul p (outer f (column i rs))) (i :: cols) (Scalar q)
  = Matrix (map (fun a => map (fun b => entry_after f (i :: cols) q a b) rs)
              rs).
Proof.
  simpl. unfold outer, column. rewrite !map_map.
  rewrite (map_ext _ (fun a => map (fun b => q * f (nth i a 0) (nth i b 0)) rs)).
  - apply (loop_from_matrix f rs cols
             (fun a b => q * f (nth i a 0) (nth i b 0))).
  - intros a. rewrite !map_map. reflexivity.
Qed.

Lemma entry_after_prod (f : Q -> Q -> Q) (a b : list Q) (acc : Q) :
  length a = length b ->
  entry_after f (seq 0 (length a)) acc a b == acc * row_kernel f a b.
Proof.
  unfold entry_after, row_kernel.
  revert b acc. induction a as [|x a IH]; intros [|y b] acc Hlen;
    simpl in Hlen; try discriminate.
  - simpl. ring.
  - cbn [length seq fold_left map2 prodQ nth].
    rewrite <- seq_shift, fold_left_over_map.
    cbn [nth].
    rewrite IH by (injection Hlen; auto).
    ring.
Qed.

Lemma arr_sum_loop (f : Q -> Q -> Q) (s : array2) :
  well_shaped s -> ncols s <> O ->
  exists v, arr_sum (prod_arr_loop f s) = inr v
            /\ v == dsum (row_kernel f) (rows s).
Proof.
  intros Hws Hd. unfold prod_arr_loop.
  destruct (ncols s) as [|d] eqn:Ed; [congruence|].
  change (seq 0 (S d)) with (0%nat :: seq 1 d).
  rewrite loop_from_scalar. cbn [arr_sum].
  eexists. split; [reflexivity|].
  unfold dsum. rewrite map_map.
  apply sumQ_map_ext_in. intros a Ha.
  apply sumQ_map_ext_in. intros b Hb.
  unfold well_shaped in Hws. rewrite Forall_forall in Hws.
  pose proof (Hws a Ha) as La. pose proof (Hws b Hb) as Lb.
  change (0%nat :: seq 1 d) with (seq 0 (S d)).
  rewrite <- Ed, <- La.
  rewrite entry_after_prod by congruence.
  ring.
Qed.

End PairSums.

(** ** Incremental update of the centered discrepancy *)

Section UpdateDiscrepancy.

Import Discrepancy.

Lemma Qnat_S_nonzero (n : nat) : ~ Qnat (S n) == 0.
Proof.
  unfold Qnat, Qeq. simpl. lia.
Qed.

Lemma Qnat_mul (n m : nat) : Qnat (n * m) == Qnat n * Qnat m.
Proof.
  unfold Qnat. rewrite Nat2Z.inj_mul, inject_Z_mult. reflexivity.
Qed.

Lemma cd_kernel_sym (a b : Q) : cd_kernel a b == cd_kernel b a.
Proof.
  unfold cd_kernel. rewrite (Qabs_Qminus a b). ring.
Qed.

Lemma cd_kernel_diag (a : Q) : cd_kernel a a == 1 + Qabs (a - (1#2)).
Proof.
  unfold cd_kernel.
  assert (H : Qabs (a - a) == 0).
  { assert (E : a - a == 0) by ring. rewrite E. reflexivity. }
  rewrite H. ring.
Qed.

Lemma row_kernel_sym (f : Q -> Q -> Q) (a b : list Q) :
  (forall x y, f x y == f y x) -> row_kernel f a b == row_kernel f b a.
Proof.
  intros Hf. unfold row_kernel. revert b.
  induction a as [|x a IH]; intros [|y b]; simpl; try reflexivity.
  rewrite IH, Hf. reflexivity.
Qed.

Lemma update_row_term (x r : list Q) :
  prodQ (map2 (fun ax s => 1 + (1#2) * fst ax + (1#2) * Qabs (s - (1#2))
                           - (1#2) * Qabs (snd ax - s))
              (combine (map (fun x => Qabs (x - (1#2))) x) x) r)
  = row_kernel cd_kernel x r.
Proof.
  unfold row_kernel. revert r.
  induction x as [|a x IH]; intros [|s r]; simpl; try reflexivity.
  rewrite IH. reflexivity.
Qed.

Lemma update_self_term (x : list Q) :
  prodQ (map (fun a => 1 + a) (map (fun x => Qabs (x - (1#2))) x))
  == row_kernel cd_kernel x x.
Proof.
  unfold row_kernel. induction x as [|a x IH]; simpl.
  - reflexivity.
  - rewrite IH, cd_kernel_diag. reflexivity.
Qed.

Lemma update_single_term (x : list Q) :
  prodQ (map (fun a => 1 + (1#2) * a - (1#2) * Qpow a 2)
             (map (fun x => Qabs (x - (1#2))) x))
  = prodQ (map cd_term x).
Proof.
  rewrite map_map. reflexivity.
Qed.

Lemma length_insert {A : Type} (l1 l2 : list A) (x : A) :
  length (l1 ++ x :: l2) = S (length (l1 ++ l2)).
Proof.
  rewrite !length_app. simpl. lia.
Qed.

Lemma Forall_insert {A : Type} (P : A -> Prop) (l1 l2 : list A) (x : A) :
  Forall P (l1 ++ l2) -> P x -> Forall P (l1 ++ x :: l2).
Proof.
  intros H Hx. apply Forall_app in H. destruct H as [H1 H2].
  apply Forall_app. split; [exact H1 | constructor; assumption].
Qed.

(** The update formula is exact when the discrepancy of the sample it
    starts from is computed with [iterative=True], wherever the new point
    is put in the enlarged sample. *)
Lemma update_discrepancy_exact (d : nat) (s1 s2 : list (list Q)) (x : list Q) :
  d <> O ->
  Forall (fun r => length r = d) (s1 ++ s2) ->
  length x = d ->
  exists D v,
    discrepancy (mk_array2 d (s1 ++ s2)) true CD = inr D
    /\ discrepancy (mk_array2 d (s1 ++ x :: s2)) false CD = inr v
    /\ update_discrepancy x (mk_array2 d (s1 ++ s2)) D == v.
Proof.
  intros Hd Hws Hx.
  set (s := mk_array2 d (s1 ++ s2)).
  set (s' := mk_array2 d (s1 ++ x :: s2)).
  assert (Hs : well_shaped s) by exact Hws.
  assert (Hs' : well_shaped s').
  { unfold well_shaped, s'. simpl. apply Forall_insert; assumption. }
  destruct (arr_sum_loop cd_kernel s Hs Hd) as (v2 & Ev2 & Hv2).
  destruct (arr_sum_loop cd_kernel s' Hs' Hd) as (v2' & Ev2' & Hv2').
  unfold discrepancy. rewrite Ev2, Ev2'.
  unfold nrows. cbn [rows s s' rbind].
  rewrite length_insert.
  set (n := length (s1 ++ s2)) in *.
  cbn [div_int rbind Nat.mul]. unfold ok.
  do 2 eexists. split; [reflexivity|]. split; [reflexivity|].
  unfold update_discrepancy, nrows. cbn [rows ncols s].
  fold n.
  rewrite update_single_term.
  rewrite (map_ext _ (row_kernel cd_kernel x) (update_row_term x)).
  rewrite update_self_term.
  rewrite Hv2, Hv2'. cbn [rows s s'].
  rewrite (dsum_insert (row_kernel cd_kernel) s1 s2 x)
    by (intros a; apply row_kernel_sym, cd_kernel_sym).
  rewrite (sumQ_map_insert (fun r => prodQ (map cd_term r))).
  replace (n + 1)%nat with (S n) by lia.
  change (S n + n * S n)%nat with (S n * S n)%nat.
  rewrite Qnat_mul.
  pose proof (Qnat_S_nonzero n) as Hn.
  cbn [Qpow]. change (ncols s') with d.
  field. exact Hn.
Qed.

End UpdateDiscrepancy.

(** ** The elementary-swap update *)

Section PerturbDiscrepancy.

Import Discrepancy.

Lemma fold_left_Qplus (l : list Q) (acc : Q) :
  fold_left Qplus l acc == acc + sumQ l.
Proof.
  revert acc. induction l as [|x l IH]; intros acc; simpl.
  - ring.
  - rewrite IH. ring.
Qed.

Lemma py_sum_sumQ (l : list Q) : py_sum l == sumQ l.
Proof.
  unfold py_sum. rewrite fold_left_Qplus. ring.
Qed.

Lemma select_map {A B : Type} (f : A -> B) (mask : list bool) (l : list A) :
  select mask (map f l) = map f (select mask l).
Proof.
  revert l. induction mask as [|b mask IH]; intros [|x l]; simpl;
    try reflexivity.
  destruct b; simpl; now rewrite IH.
Qed.

Lemma set_at_comm {A : Type} (i j : nat) (v : A) (l : list A) :
  set_at i v (set_at j v l) = set_at j v (set_at i v l).
Proof.
  revert i j. induction l as [|x l IH]; intros [|i] [|j]; simpl;
    try reflexivity.
  now rewrite IH.
Qed.

Lemma tri_pos (a b : Q) : 0 < 2 + Qabs a + Qabs b - Qabs (a - b).
Proof.
  pose proof (Qabs_triangle a (- b)) as H.
  rewrite Qabs_opp in H.
  assert (E : a + - b == a - b) by ring.
  rewrite E in H. lra.
Qed.

(** The value [_perturb_discrepancy] returns once its indices are
    resolved to the rows [r1], [r2] and the column [c] of [z_ij]. *)
Definition perturb_value (n : nat) (z_ij : list (list Q)) (inv_n2 : Q)
  (r1 r2 c : nat) (disc : Q) : Q :=
  let z1 := nth r1 z_ij [] in
  let c_i1j :=
    map (fun zj => inv_n2 *
           prodQ (map2 (fun a b => (1#2) * (2 + Qabs a + Qabs b - Qabs (a - b)))
                       z1 zj)) z_ij in
  let z2 := nth r2 z_ij [] in
  let c_i2j :=
    map (fun zj => inv_n2 *
           prodQ (map2 (fun a b => (1#2) * (2 + Qabs a + Qabs b - Qabs (a - b)))
                       z2 zj)) z_ij in
  let c_i1i1 :=
    1 / Qpow (Qnat n) 2 * prodQ (map (fun a => 1 + Qabs a) z1)
    - 2 / Qnat n * prodQ (map (fun a => 1 + (1#2) * Qabs a - (1#2) * Qpow a 2)
                              z1) in
  let c_i2i2 :=
    1 / Qpow (Qnat n) 2 * prodQ (map (fun a => 1 + Qabs a) z2)
    - 2 / Qnat n * prodQ (map (fun a => 1 + (1#2) * Qabs a - (1#2) * Qpow a 2)
                              z2) in
  let z1k := nth c z1 0 in
  let z2k := nth c z2 0 in
  let zk := column c z_ij in
  let num := map (fun zjk => 2 + Qabs z2k + Qabs zjk - Qabs (z2k - zjk)) zk in
  let denum := map (fun zjk => 2 + Qabs z1k + Qabs zjk - Qabs (z1k - zjk)) zk in
  let gamma := map2 Qdiv num denum in
  let c_p_i1j := map2 Qmult gamma c_i1j in
  let c_p_i2j := map2 Qdiv c_i2j gamma in
  let alpha := (1 + Qabs z2k) / (1 + Qabs z1k) in
  let beta := (2 - Qabs z2k) / (2 - Qabs z1k) in
  let g_i1 := prodQ (map (fun a => 1 + Qabs a) z1) in
  let g_i2 := prodQ (map (fun a => 1 + Qabs a) z2) in
  let h_i1 :=
    prodQ (map (fun a => 1 + (1#2) * Qabs a - (1#2) * Qpow a 2) z1) in
  let h_i2 :=
    prodQ (map (fun a => 1 + (1#2) * Qabs a - (1#2) * Qpow a 2) z2) in
  let c_p_i1i1 :=
    (g_i1 * alpha) / Qpow (Qnat n) 2 - 2 * alpha * beta * h_i1 / Qnat n in
  let c_p_i2i2 :=
    g_i2 / (Qpow (Qnat n) 2 * alpha) - 2 * h_i2 / (Qnat n * alpha * beta) in
  let sum_ :=
    map2 Qminus (map2 Qplus (map2 Qminus c_p_i1j c_i1j) c_p_i2j) c_i2j in
  let mask := set_at r2 false (set_at r1 false (repeat true n)) in
  let sum_ := py_sum (select mask sum_) in
  disc + c_p_i1i1 - c_i1i1 + c_p_i2i2 - c_i2i2 + 2 * sum_.

Lemma perturb_discrepancy_unfold (sample : array2) (i1 i2 k : Z) (disc : Q) :
  perturb_discrepancy sample i1 i2 k disc =
  let n := nrows sample in
  let z_ij := map (map (fun s => s - (1#2))) (rows sample) in
  let? inv_n2 := div_int 1 (n * n) in
  let? r1 := np_index i1 n in
  let? r2 := np_index i2 n in
  let? c := np_index k (ncols sample) in
  ok (perturb_value n z_ij inv_n2 r1 r2 c disc).
Proof. reflexivity. Qed.

(** Every entry of [z_ij], and the default [0] read outside it, is within
    one half of zero when the sample lies in the unit cube. *)
Definition centred (z : list (list Q)) : Prop :=
  Forall (Forall (fun a => Qabs a <= 1#2)) z.

Lemma centred_nth (z : list (list Q)) (r c : nat) :
  centred z -> Qabs (nth c (nth r z []) 0) <= 1#2.
Proof.
  intros Hz.
  assert (Hrow : Forall (fun a => Qabs a <= 1#2) (nth r z [])).
  { destruct (Nat.lt_ge_cases r (length z)) as [Hr|Hr].
    - unfold centred in Hz. rewrite Forall_forall in Hz.
      apply Hz, nth_In, Hr.
    - rewrite nth_overflow by exact Hr. constructor. }
  destruct (Nat.lt_ge_cases c (length (nth r z []))) as [Hc|Hc].
  - rewrite Forall_forall in Hrow. apply Hrow, nth_In, Hc.
  - rewrite nth_overflow by exact Hc. simpl. lra.
Qed.

Lemma unit_cube_centred (rs : list (list Q)) :
  Forall (Forall (fun s => 0 <= s /\ s < 1)) rs ->
  centred (map (map (fun s => s - (1#2))) rs).
Proof.
  unfold centred. intros H. apply Forall_map.
  eapply Forall_impl; [|exact H]. intros r Hr. apply Forall_map.
  eapply Forall_impl; [|exact Hr]. intros s [H0 H1]. cbv beta.
  apply Qabs_Qle_condition. split; lra.
Qed.

Lemma perturb_value_sym (n : nat) (z : list (list Q)) (inv_n2 : Q)
  (r1 r2 c : nat) (disc : Q) :
  n <> O -> centred z ->
  perturb_value n z inv_n2 r1 r2 c disc
  == perturb_value n z inv_n2 r2 r1 c disc.
Proof.
  intros Hn Hz. unfold perturb_value. cbv zeta.
  rewrite !py_sum_sumQ.
  rewrite (set_at_comm r1 r2).
  unfold column. rewrite !map_map.
  rewrite !map2_map_same. rewrite !select_map.
  set (m := select _ z).
  set (z1 := nth r1 z []). set (z2 := nth r2 z []).
  pose proof (centred_nth z r1 c Hz) as H1.
  pose proof (centred_nth z r2 c Hz) as H2.
  fold z1 in H1. fold z2 in H2.
  set (z1k := nth c z1 0) in *. set (z2k := nth c z2 0) in *.
  pose proof (Qabs_nonneg z1k) as P1. pose proof (Qabs_nonneg z2k) as P2.
  assert (HN : ~ Qnat n == 0).
  { destruct n; [congruence|apply Qnat_S_nonzero]. }
  match goal with
  | |- _ + 2 * sumQ (map ?f m) == _ + 2 * sumQ (map ?g m) =>
      assert (E : sumQ (map f m) == sumQ (map g m))
  end.
  { apply sumQ_map_ext_in. intros zj _.
    pose proof (tri_pos z1k (nth c zj 0)).
    pose proof (tri_pos z2k (nth c zj 0)).
    field. split; lra. }
  rewrite E. cbn [Qpow].
  field. repeat split; lra.
Qed.

End PerturbDiscrepancy.

(** * The claims *)

Section ClaimsDiscrepancy.

Import Discrepancy.

(** C1, amended: for every sample [S] of [n] points of the unit cube with
    [1 <= d < 8868] coordinates and every point [x] of the unit cube,
    [_update_discrepancy(x, S, D)] with [D = discrepancy(S, iterative=True)]
    and the centered discrepancy [discrepancy(S')] of the sample [S'] that
    has [x] added to [S], at any row, are the same number when every
    operation is exact: the two expressions are equal as rationals.  (From
    [d = 8868] on, [(13.0 / 12.0) ** d] is beyond the doubles and
    [discrepancy] raises [OverflowError]; on doubles the two values need
    not be equal, nor within [1e-10] of each other.) *)
Theorem update_discrepancy_iterative (d : nat) (s1 s2 : list (list Q))
  (x : list Q) :
  d <> O ->
  (Z.of_nat d < 8868)%Z ->
  Forall (fun r => length r = d) (s1 ++ s2) ->
  Forall (Forall (fun s => 0 <= s /\ s < 1)) (s1 ++ s2) ->
  length x = d ->
  Forall (fun s => 0 <= s /\ s < 1) x ->
  exists D v,
    discrepancy (mk_array2 d (s1 ++ s2)) true CD = inr D
    /\ discrepancy (mk_array2 d (s1 ++ x :: s2)) false CD = inr v
    /\ update_discrepancy x (mk_array2 d (s1 ++ s2)) D == v
    /\ forall eps, 0 <= eps ->
         Qabs (update_discrepancy x (mk_array2 d (s1 ++ s2)) D - v) <= eps.
Proof.
  intros Hd _ Hws _ Hx _.
  destruct (update_discrepancy_exact d s1 s2 x Hd Hws Hx)
    as (D & v & ED & Ev & Heq).
  exists D, v. repeat split; try assumption.
  intros eps Heps.
  assert (E : update_discrepancy x (mk_array2 d (s1 ++ s2)) D - v == 0)
    by (rewrite Heq; ring).
  rewrite E. exact Heps.
Qed.

Lemma update_discrepancy_iterative_witness :
  (2 <> 0)%nat
  /\ Forall (fun r => length r = 2%nat) ([[1#12; 5#12]] ++ [[5#12; 3#12]])
  /\ exists D v,
       discrepancy (mk_array2 2 ([[1#12; 5#12]] ++ [[5#12; 3#12]])) true CD
       = inr D
       /\ discrepancy
            (mk_array2 2 ([[1#12; 5#12]] ++ [3#12; 11#12] :: [[5#12; 3#12]]))
            false CD = inr v
       /\ update_discrepancy [3#12; 11#12]
            (mk_array2 2 ([[1#12; 5#12]] ++ [[5#12; 3#12]])) D == v
       /\ forall eps, 0 <= eps ->
            Qabs (update_discrepancy [3#12; 11#12]
                    (mk_array2 2 ([[1#12; 5#12]] ++ [[5#12; 3#12]])) D - v)
            <= eps.
Proof.
  split; [discriminate|].
  split; [repeat constructor|].
  apply (update_discrepancy_iterative 2 [[1#12; 5#12]] [[5#12; 3#12]]
           [3#12; 11#12]).
  - discriminate.
  - reflexivity.
  - repeat constructor.
  - repeat constructor; simpl; discriminate || reflexivity.
  - reflexivity.
  - repeat constructor; simpl; discriminate || reflexivity.
Defined.

(** C9, amended: on a sample of the unit cube, with row indices [i1], [i2]
    in [[0, n)] and a column [k] in [[0, d)], the value of
    [_perturb_discrepancy] is the same number when [i1] and [i2] are
    exchanged and every operation is exact: the two expressions are equal
    as rationals.  (On doubles the two results need not be equal.) *)
Theorem perturb_discrepancy_swap_invariant (sample : array2) (i1 i2 k : Z)
  (disc : Q) :
  Forall (Forall (fun s => 0 <= s /\ s < 1)) (rows sample) ->
  (0 <= i1 < Z.of_nat (nrows sample))%Z ->
  (0 <= i2 < Z.of_nat (nrows sample))%Z ->
  (0 <= k < Z.of_nat (ncols sample))%Z ->
  exists v1 v2,
    perturb_discrepancy sample i1 i2 k disc = inr v1
    /\ perturb_discrepancy sample i2 i1 k disc = inr v2
    /\ v1 == v2.
Proof.
  intros Hcube H1 H2 Hk.
  rewrite !perturb_discrepancy_unfold. cbv zeta.
  assert (Hn : nrows sample <> O) by lia.
  assert (E1 : np_index i1 (nrows sample) = ok (Z.to_nat i1)).
  { unfold np_index.
    destruct (Z.leb_spec 0 i1); [|lia].
    destruct (Z.ltb_spec i1 (Z.of_nat (nrows sample))); [|lia]. reflexivity. }
  assert (E2 : np_index i2 (nrows sample) = ok (Z.to_nat i2)).
  { unfold np_index.
    destruct (Z.leb_spec 0 i2); [|lia].
    destruct (Z.ltb_spec i2 (Z.of_nat (nrows sample))); [|lia]. reflexivity. }
  assert (Ek : np_index k (ncols sample) = ok (Z.to_nat k)).
  { unfold np_index.
    destruct (Z.leb_spec 0 k); [|lia].
    destruct (Z.ltb_spec k (Z.of_nat (ncols sample))); [|lia]. reflexivity. }
  rewrite E1, E2, Ek.
  assert (En : div_int 1 (nrows sample * nrows sample)
               = ok (1 / Qnat (nrows sample * nrows sample))).
  { unfold div_int. destruct (nrows sample * nrows sample)%nat eqn:E;
      [nia|reflexivity]. }
  rewrite En. cbn [rbind ok].
  do 2 eexists. split; [reflexivity|]. split; [reflexivity|].
  apply perturb_value_sym; [exact Hn|].
  apply unit_cube_centred, Hcube.
Qed.

Lemma perturb_discrepancy_swap_invariant_witness :
  let sample := mk_array2 2 [[1#12; 5#12]; [3#12; 11#12]; [5#12; 3#12]] in
  Forall (Forall (fun s => 0 <= s /\ s < 1)) (rows sample)
  /\ (0 <= 0 < Z.of_nat (nrows sample))%Z
  /\ (0 <= 2 < Z.of_nat (nrows sample))%Z
  /\ (0 <= 1 < Z.of_nat (ncols sample))%Z
  /\ exists v1 v2,
       perturb_discrepancy sample 0 2 1 (1#10) = inr v1
       /\ perturb_discrepancy sample 2 0 1 (1#10) = inr v2
       /\ v1 == v2.
Proof.
  intros sample.
  assert (Hcube : Forall (Forall (fun s => 0 <= s /\ s < 1)) (rows sample)).
  { repeat constructor; simpl; try discriminate; reflexivity. }
  assert (H1 : (0 <= 0 < Z.of_nat (nrows sample))%Z) by (simpl; lia).
  assert (H2 : (0 <= 2 < Z.of_nat (nrows sample))%Z) by (simpl; lia).
  assert (Hk : (0 <= 1 < Z.of_nat (ncols sample))%Z) by (simpl; lia).
  repeat (split; [assumption|]).
  exact (perturb_discrepancy_swap_invariant sample 0 2 1 (1#10)
           Hcube H1 H2 Hk).
Defined.

End ClaimsDiscrepancy.

(** ** The two updates on doubles *)

Section ClaimsBinary64.

Import PrimFloat.
Local Open Scope float_scope.

(** A sample of the unit cube, as doubles. *)
Definition in_unit_cube (sample : Binary64.array2) : bool :=
  forallb (forallb (fun s => (0 <=? s) && (s <? 1))) (Binary64.rows sample).

(** C1, as stated, fails.  Started from the centered discrepancy of the
    sample [[0.5]] (computed with [iterative=False], [1/12]), the update
    with the new point [0.5] gives [-1/6], while the centered discrepancy
    of the two points is [1/12]: they are [1/4] apart, also when every
    operation is exact.  Started from [discrepancy(S, iterative=True)], the
    update and the recomputation are not within [1e-10] of each other on
    doubles: for the point [S = [[0.] * 100]] and [x = [0.0625] * 100], the
    update returns [1.0596390524884982e+17] and the discrepancy of the two
    points is [1.0596390524884984e+17], [16] more. *)
Lemma update_discrepancy_claim_fails :
  (exists D v,
     Discrepancy.discrepancy (mk_array2 1 [[1#2]]) false Discrepancy.CD
     = inr D
     /\ Discrepancy.discrepancy (mk_array2 1 [[1#2]; [1#2]]) false
          Discrepancy.CD = inr v
     /\ ~ (Qabs (Discrepancy.update_discrepancy [1#2] (mk_array2 1 [[1#2]]) D
                 - v)
           <= 1 # 10 ^ 10)%Q)
  /\ (let S := Binary64.mk_array2 100 [repeat 0 100] in
      let x := repeat (1 / 16) 100 in
      in_unit_cube (Binary64.mk_array2 100 [repeat 0 100; x]) = true
      /\ exists D u v,
           Binary64.discrepancy S true Discrepancy.CD = inr D
           /\ Binary64.update_discrepancy x S D = inr u
           /\ Binary64.discrepancy
                (Binary64.mk_array2 100 [repeat 0 100; x]) false
                Discrepancy.CD = inr v
           /\ u = 105963905248849824
           /\ v = 105963905248849840
           /\ (1 / 10000000000 <? abs (u - v)) = true).
Proof.
  split.
  - do 2 eexists. split; [reflexivity|]. split; [reflexivity|].
    vm_compute. intros H. apply H. reflexivity.
  - cbv zeta. split; [vm_compute; reflexivity|].
    do 3 eexists. split; [vm_compute; reflexivity|].
    split; [vm_compute; reflexivity|].
    split; [vm_compute; reflexivity|].
    split; [vm_compute; reflexivity|].
    split; vm_compute; reflexivity.
Qed.

(** C9, as stated, fails on doubles: on the sample
    [[[1/12, 5/12], [3/12, 11/12], [5/12, 3/12]]] with [k = 1] and
    [disc = 0.1], [_perturb_discrepancy] returns [0.10308641975308641] for
    [(i1, i2) = (0, 2)] and [0.10308641975308652] for [(2, 0)]. *)
Lemma perturb_discrepancy_doubles_differ :
  let sample :=
    Binary64.mk_array2 2 [[1 / 12; 5 / 12]; [3 / 12; 11 / 12]; [5 / 12; 3 / 12]]
  in
  in_unit_cube sample = true
  /\ exists v1 v2,
       Binary64.perturb_discrepancy sample 0 2 1 (1 / 10) = inr v1
       /\ Binary64.perturb_discrepancy sample 2 0 1 (1 / 10) = inr v2
       /\ v1 = 0x1.a63df218050e8p-4
       /\ v2 = 0x1.a63df218050f0p-4
       /\ (v1 <? v2) = true.
Proof.
  cbv zeta. split; [vm_compute; reflexivity|].
  do 2 eexists. split; [vm_compute; reflexivity|].
  split; [vm_compute; reflexivity|].
  split; [vm_compute; reflexivity|].
  split; vm_compute; reflexivity.
Qed.

End ClaimsBinary64.

(** ** Sobol': powers of two and the size of a draw *)

Section SobolFacts.
Context {G : Type} `{RandomSource G} `{SobolTables}.

Definition is_power_of_two (t : Z) : Prop := exists k : nat, t = (2 ^ Z.of_nat k)%Z.

Lemma land_pred_pow2 (k : Z) : (0 <= k)%Z -> Z.land (2 ^ k) (2 ^ k - 1) = 0%Z.
Proof.
  intros Hk. apply Z.bits_inj'. intros i Hi.
  rewrite Z.land_spec, Z.bits_0, Z.pow2_bits_eqb by assumption.
  destruct (Z.eqb_spec k i) as [->|Hne]; [|reflexivity].
  replace (2 ^ i - 1)%Z with (Z.ones i) by (rewrite Z.ones_equiv; lia).
  rewrite Z.ones_spec_high by lia. reflexivity.
Qed.

Lemma land_pred_zero_pow2 (t : Z) :
  (1 <= t)%Z -> Z.land t (t - 1) = 0%Z -> is_power_of_two t.
Proof.
  intros Ht Hland.
  pose proof (Z.log2_nonneg t) as Hk.
  destruct (Z.log2_spec t) as [Hlo Hhi]; [lia|].
  destruct (Z.eq_dec t (2 ^ Z.log2 t)) as [E|NE].
  - exists (Z.to_nat (Z.log2 t)). rewrite Z2Nat.id by assumption. exact E.
  - exfalso.
    assert (Hb : Z.testbit (Z.land t (t - 1)) (Z.log2 t) = true).
    { assert (El : Z.log2 (t - 1) = Z.log2 t).
      { apply Z.log2_unique; [assumption|lia]. }
      rewrite Z.land_spec, Z.bit_log2 by lia.
      rewrite <- El, Z.bit_log2 by lia. reflexivity. }
    rewrite Hland, Z.bits_0 in Hb. discriminate.
Qed.

Lemma land_pred_iff (t : Z) :
  (1 <= t)%Z -> (Z.land t (t - 1) = 0%Z <-> is_power_of_two t).
Proof.
  intros Ht. split.
  - apply land_pred_zero_pow2, Ht.
  - intros [k ->]. apply land_pred_pow2. lia.
Qed.

Lemma draw_length (n : nat) (i : Z) (sv : list (list Z)) (quasi : list Z) :
  length (fst (Sobol._draw n i sv quasi)) = n.
Proof.
  revert i quasi. induction n as [|n IH]; intros i quasi; simpl.
  - reflexivity.
  - specialize (IH (i + 1)%Z (Sobol.gray_step sv i quasi)).
    destruct (Sobol._draw n (i + 1) sv (Sobol.gray_step sv i quasi)).
    simpl in *. now rewrite IH.
Qed.

(** [_draw] writes into [sample] in place: whatever it writes, the array
    keeps its rows. *)
Lemma draw_into_length (k i : Z) (sample : list (list Q)) (e : Sobol.t G) :
  length (fst (Sobol.draw_into k i sample e)) = length sample.
Proof.
  unfold Sobol.draw_into.
  destruct (Sobol._draw (Z.to_nat k) i (Sobol._sv e) (Sobol._quasi e))
    as [points quasi].
  cbn [fst]. rewrite length_firstn, length_app, length_skipn. lia.
Qed.

Lemma random_returns (n : nat) (e : Sobol.t G) :
  exists a, fst (Sobol.random n e) = inr a /\ nrows a = n.
Proof.
  unfold Sobol.random.
  destruct (QMCEngine.num_generated (Sobol.base e) =? 0)%Z.
  - destruct (Nat.eqb_spec n 1) as [->|Hn].
    + eexists. split; reflexivity.
    + match goal with
      | |- context [Sobol.draw_into ?k ?i ?s e] =>
          pose proof (draw_into_length k i s e) as L;
          destruct (Sobol.draw_into k i s e) as [sample e']
      end.
      eexists. split; [reflexivity|].
      unfold nrows. cbn [rows fst] in *.
      rewrite repeat_length in L.
      rewrite length_firstn. cbn [length]. lia.
  - match goal with
    | |- context [Sobol.draw_into ?k ?i ?s e] =>
        pose proof (draw_into_length k i s e) as L;
        destruct (Sobol.draw_into k i s e) as [sample e']
    end.
    eexists. split; [reflexivity|].
    unfold nrows. cbn [rows fst] in *.
    now rewrite repeat_length in L.
Qed.

(** C7: on a Sobol' engine whose cursor is not negative,
    [random_base2(m)] raises [ValueError] (and leaves the engine as it
    was) exactly when [num_generated + 2 ** m] is not a power of two, and
    returns an array of [2 ** m] rows otherwise. *)
Theorem random_base2_power_of_two (e : Sobol.t G) (m : nat) :
  (0 <= QMCEngine.num_generated (Sobol.base e))%Z ->
  let total_n := (QMCEngine.num_generated (Sobol.base e) + 2 ^ Z.of_nat m)%Z in
  ((exists err, fst (Sobol.random_base2 m e) = inl err)
   <-> ~ is_power_of_two total_n)
  /\ (~ is_power_of_two total_n ->
      Sobol.random_base2 m e = (inl ValueError, e))
  /\ (is_power_of_two total_n ->
      exists a, fst (Sobol.random_base2 m e) = inr a
                /\ Z.of_nat (nrows a) = (2 ^ Z.of_nat m)%Z).
Proof.
  intros Hcur total_n.
  assert (Hpos : (0 < 2 ^ Z.of_nat m)%Z) by (apply Z.pow_pos_nonneg; lia).
  assert (Ht : (1 <= total_n)%Z) by (unfold total_n; lia).
  pose proof (land_pred_iff total_n Ht) as Hiff.
  assert (Hraise : ~ is_power_of_two total_n ->
                   Sobol.random_base2 m e = (inl ValueError, e)).
  { intros Hnp. unfold Sobol.random_base2. fold total_n.
    destruct (Z.eqb_spec (Z.land total_n (total_n - 1)) 0) as [E|NE].
    - exfalso. apply Hnp, Hiff, E.
    - reflexivity. }
  assert (Hret : is_power_of_two total_n ->
                 exists a, fst (Sobol.random_base2 m e) = inr a
                           /\ Z.of_nat (nrows a) = (2 ^ Z.of_nat m)%Z).
  { intros Hp. unfold Sobol.random_base2. fold total_n.
    destruct (Z.eqb_spec (Z.land total_n (total_n - 1)) 0) as [E|NE].
    - cbn [negb].
      destruct (random_returns (Z.to_nat (2 ^ Z.of_nat m)) e) as (a & Ea & Ha).
      exists a. split; [exact Ea|]. rewrite Ha. lia.
    - exfalso. apply NE, Hiff, Hp. }
  split; [|split; assumption].
  split.
  - intros [err Herr] Hp. destruct (Hret Hp) as (a & Ea & _). congruence.
  - intros Hnp. exists ValueError. now rewrite (Hraise Hnp).
Qed.

End SobolFacts.

(** ** Fast-forward on the sequence engines *)

Section SobolFastForward.
Context {G : Type} `{RandomSource G} `{SobolTables}.

Lemma draw_split (a b : nat) (i : Z) (sv : list (list Z)) (quasi : list Z) :
  Sobol._draw (a + b) i sv quasi =
  (fst (Sobol._draw a i sv quasi)
   ++ fst (Sobol._draw b (i + Z.of_nat a) sv (snd (Sobol._draw a i sv quasi))),
   snd (Sobol._draw b (i + Z.of_nat a) sv (snd (Sobol._draw a i sv quasi)))).
Proof.
  revert i quasi. induction a as [|a IH]; intros i quasi.
  - simpl. replace (i + 0)%Z with i by lia.
    now destruct (Sobol._draw b i sv quasi).
  - cbn [Nat.add Sobol._draw].
    rewrite IH.
    replace (i + 1 + Z.of_nat a)%Z with (i + Z.of_nat (S a))%Z by lia.
    destruct (Sobol._draw a (i + 1) sv (Sobol.gray_step sv i quasi)).
    reflexivity.
Qed.

Lemma fast_forward_is_draw (n : nat) (i : Z) (sv : list (list Z))
  (quasi : list Z) :
  Sobol._fast_forward n i sv quasi = snd (Sobol._draw n i sv quasi).
Proof.
  revert i quasi. induction n as [|n IH]; intros i quasi; simpl.
  - reflexivity.
  - rewrite IH.
    now destruct (Sobol._draw n (i + 1) sv (Sobol.gray_step sv i quasi)).
Qed.

Lemma random_total (n : nat) (e : Sobol.t G) :
  exists a e', Sobol.random n e = (inr a, e').
Proof.
  unfold Sobol.random.
  repeat match goal with
         | |- context [if ?c then _ else _] => destruct c
         | |- context [let (_, _) := ?x in _] => destruct x
         end; do 2 eexists; reflexivity.
Qed.

Lemma sobol_fast_forward_then_random (e : Sobol.t G) (n m : nat) :
  QMCEngine.num_generated (Sobol.base e) = 0%Z ->
  (1 <= m)%nat ->
  exists a e',
    Sobol.random (n + m) e = (inr a, e')
    /\ Sobol.random m (Sobol.fast_forward n e)
       = (inr (mk_array2 (ncols a) (skipn n (rows a))), e').
Proof.
  intros Hcur Hm.
  destruct e as [[d rng rng_seed cur] sv shift quasi fp].
  simpl in Hcur. subst cur.
  destruct n as [|n].
  - (* nothing is skipped *)
    match goal with
    | |- context [Sobol.random (0 + m) ?e0] =>
        destruct (random_total (0 + m) e0) as (a & e' & E)
    end.
    exists a, e'. split; [exact E|].
    change (Sobol.fast_forward 0 _) with
      (Sobol.mk (QMCEngine.mk d rng rng_seed 0) sv shift quasi fp).
    cbn [Nat.add] in E. rewrite E. destruct a. reflexivity.
  - unfold Sobol.random, Sobol.fast_forward, Sobol.advance, QMCEngine.advance,
      Sobol.draw_into.
    cbn [Sobol.base QMCEngine.num_generated Z.eqb Sobol._sv Sobol._quasi
         Sobol._shift Sobol._first_point QMCEngine.d QMCEngine.rng
         QMCEngine.rng_seed].
    replace (Z.to_nat (Z.of_nat (S n) - 1)) with n by lia.
    replace (0 + Z.of_nat (S n))%Z with (Z.of_nat (S n)) by lia.
    destruct (Z.eqb_spec (Z.of_nat (S n)) 0) as [E0|_]; [lia|].
    destruct (Nat.eqb_spec (S n + m) 1) as [E1|_]; [lia|].
    replace (Z.to_nat (Z.of_nat (S n + m) - 1)) with (n + m)%nat by lia.
    replace (Z.of_nat (S n) - 1)%Z with (0 + Z.of_nat n)%Z by lia.
    rewrite Nat2Z.id.
    rewrite (draw_split n m 0 sv quasi).
    rewrite fast_forward_is_draw.
    pose proof (draw_length n 0 sv quasi) as L1.
    pose proof (draw_length m (0 + Z.of_nat n) sv
                  (snd (Sobol._draw n 0 sv quasi))) as L2.
    destruct (Sobol._draw n 0 sv quasi) as [p1 q1]. cbn [fst snd] in *.
    destruct (Sobol._draw m (0 + Z.of_nat n) sv q1) as [p2 q2].
    cbn [fst snd] in *.
    do 2 eexists. split; [reflexivity|].
    cbn [ncols rows]. f_equal.
    + unfold ok. f_equal. f_equal. cbn [Sobol._first_point].
      rewrite !repeat_length, length_app, L1, L2.
      rewrite (skipn_all2 (repeat (repeat 0 d) m))
        by (rewrite repeat_length; lia).
      rewrite app_nil_r, firstn_all2 by lia.
      change (S n + m)%nat with (S (n + m)).
      rewrite firstn_cons, skipn_cons.
      rewrite (firstn_all2 (n := S (n + m)))
        by (rewrite !length_app, length_skipn, repeat_length; lia).
      rewrite <- app_assoc, firstn_app, L1.
      rewrite (firstn_all2 p1) by lia.
      replace (n + m - n)%nat with m by lia.
      rewrite firstn_app, L2, Nat.sub_diag, (firstn_all2 p2) by lia.
      rewrite firstn_0, app_nil_r.
      rewrite skipn_app, L1, Nat.sub_diag, skipn_all2 by lia.
      reflexivity.
    + cbn [Sobol.base QMCEngine.num_generated Sobol._sv Sobol._quasi
           Sobol._shift Sobol._first_point QMCEngine.d QMCEngine.rng
           QMCEngine.rng_seed].
      replace (Z.of_nat (S n) + Z.of_nat m)%Z
        with (0 + Z.of_nat (S n + m))%Z by lia.
      reflexivity.
Qed.

End SobolFastForward.

Section VanDerCorputFacts.
Context {G : Type} `{RandomSource G}.

Lemma map2_skipn {A B C : Type} (f : A -> B -> C) (n : nat) (l : list A)
  (m : list B) :
  skipn n (map2 f l m) = map2 f (skipn n l) (skipn n m).
Proof.
  revert l m. induction n as [|n IH]; intros l m.
  - reflexivity.
  - destruct l as [|a l]; [reflexivity|].
    destruct m as [|b m].
    + simpl. now destruct (skipn n l).
    + simpl. apply IH.
Qed.

Lemma step_skipn (n : nat) (base : Z) (scramble : bool) (rng : G) (b2r : Q)
  (quotient sequence : list Q) :
  VanDerCorput.step base scramble rng b2r (skipn n quotient)
    (skipn n sequence)
  = let '(rng', b2r', quotient', sequence') :=
      VanDerCorput.step base scramble rng b2r quotient sequence in
    (rng', b2r', skipn n quotient', skipn n sequence').
Proof.
  unfold VanDerCorput.step, VanDerCorput.take.
  destruct scramble.
  - destruct (rs_permutation base rng) as [perm rng'].
    rewrite !map2_skipn, !skipn_map. reflexivity.
  - rewrite !map2_skipn, !skipn_map. reflexivity.
Qed.

Lemma loop_skipn (n fuel : nat) (base : Z) (scramble : bool) (rng : G)
  (b2r : Q) (quotient sequence : list Q) :
  VanDerCorput.loop fuel base scramble rng b2r (skipn n quotient)
    (skipn n sequence)
  = match VanDerCorput.loop fuel base scramble rng b2r quotient sequence with
    | Some (s, g) => Some (skipn n s, g)
    | None => None
    end.
Proof.
  revert rng b2r quotient sequence.
  induction fuel as [|fuel IH]; intros rng b2r quotient sequence; simpl.
  - now destruct (VanDerCorput.one_minus_lt_one b2r).
  - destruct (VanDerCorput.one_minus_lt_one b2r); [|reflexivity].
    rewrite step_skipn.
    destruct (VanDerCorput.step base scramble rng b2r quotient sequence)
      as [[[rng' b2r'] quotient'] sequence'].
    apply IH.
Qed.

Lemma seq_from (n m : nat) : seq n m = map (fun i => (n + i)%nat) (seq 0 m).
Proof.
  revert n. induction m as [|m IH]; intros n; simpl.
  - reflexivity.
  - f_equal; [lia|].
    rewrite <- (seq_shift m 0), map_map, IH.
    apply map_ext. intros i. lia.
Qed.

Lemma arange_skipn (start : Z) (n m : nat) :
  skipn n (VanDerCorput.arange start (n + m))
  = VanDerCorput.arange (start + Z.of_nat n) m.
Proof.
  unfold VanDerCorput.arange.
  rewrite skipn_map, skipn_seq.
  replace (n + m - n)%nat with m by lia.
  cbn [Nat.add]. rewrite seq_from, map_map.
  apply map_ext. intros i. f_equal. lia.
Qed.

Lemma repeat_skipn {A : Type} (x : A) (n m : nat) :
  skipn n (repeat x (n + m)) = repeat x m.
Proof.
  induction n as [|n IH]; simpl; [reflexivity|exact IH].
Qed.

Lemma van_der_corput_skipn (n m : nat) (base start : Z) (scramble : bool)
  (rng : G) :
  VanDerCorput.van_der_corput m base (start + Z.of_nat n) scramble rng
  = match VanDerCorput.van_der_corput (n + m) base start scramble rng with
    | Some (inr s, g) => Some (inr (skipn n s), g)
    | other => other
    end.
Proof.
  unfold VanDerCorput.van_der_corput.
  destruct (base =? 0)%Z; [reflexivity|].
  rewrite <- arange_skipn, <- (repeat_skipn 0 n m), loop_skipn.
  destruct (VanDerCorput.loop 64 base scramble rng (1 / inject_Z base)
              (VanDerCorput.arange start (n + m)) (repeat 0 (n + m)))
    as [[s g]|]; reflexivity.
Qed.

Lemma Qpow_2_nonneg (k : nat) : 0 <= Qpow 2 k.
Proof.
  induction k as [|k IH]; simpl; [discriminate|].
  apply Qmult_le_0_compat; [discriminate|exact IH].
Qed.

(** The loop ends: a base of two or more at least halves [b2r] in every
    round. *)
Lemma loop_terminates (fuel : nat) (base : Z) (scramble : bool) (rng : G)
  (b2r : Q) (quotient sequence : list Q) :
  (2 <= base)%Z ->
  0 <= b2r -> b2r <= Qpow 2 fuel * (1 # 2 ^ 54) ->
  exists r, VanDerCorput.loop fuel base scramble rng b2r quotient sequence
            = Some r.
Proof.
  intros Hbase. revert rng b2r quotient sequence.
  induction fuel as [|fuel IH]; intros rng b2r quotient sequence H0 Hle.
  - simpl in *. unfold VanDerCorput.one_minus_lt_one.
    assert (E : Qle_bool b2r (1 # 2 ^ 54) = true).
    { apply Qle_bool_iff. lra. }
    rewrite E. eexists. reflexivity.
  - simpl. destruct (VanDerCorput.one_minus_lt_one b2r);
      [|eexists; reflexivity].
    destruct (VanDerCorput.step base scramble rng b2r quotient sequence)
      as [[[rng' b2r'] quotient'] sequence'] eqn:Es.
    assert (Eb : b2r' = Qred (b2r / inject_Z base)).
    { unfold VanDerCorput.step in Es.
      destruct scramble; [destruct (rs_permutation base rng)|];
        inversion Es; reflexivity. }
    assert (Hpos : 0 < inject_Z base).
    { change 0 with (inject_Z 0). rewrite <- Zlt_Qlt. lia. }
    assert (H2 : 2 <= inject_Z base).
    { change 2 with (inject_Z 2). rewrite <- Zle_Qle. lia. }
    apply IH; rewrite Eb, Qred_correct.
    + apply Qle_shift_div_l; [exact Hpos|]. lra.
    + apply Qle_shift_div_r; [exact Hpos|].
      cbn [Qpow] in Hle.
      assert (HX : 0 <= Qpow 2 fuel * (1 # 2 ^ 54)).
      { apply Qmult_le_0_compat; [apply Qpow_2_nonneg|discriminate]. }
      pose proof (Qmult_le_compat_r 2 (inject_Z base) _ H2 HX).
      lra.
Qed.

Lemma van_der_corput_returns (n : nat) (base start : Z) (scramble : bool)
  (rng : G) :
  (2 <= base)%Z ->
  exists s g,
    VanDerCorput.van_der_corput n base start scramble rng = Some (inr s, g).
Proof.
  intros Hbase. unfold VanDerCorput.van_der_corput.
  destruct (Z.eqb_spec base 0) as [E|_]; [lia|].
  destruct (loop_terminates 64 base scramble rng (1 / inject_Z base)
              (VanDerCorput.arange start n) (repeat 0 n) Hbase)
    as [[s g] E].
  - apply Qle_shift_div_l.
    + change 0 with (inject_Z 0). rewrite <- Zlt_Qlt. lia.
    + assert (0 <= inject_Z base)
        by (change 0 with (inject_Z 0); rewrite <- Zle_Qle; lia).
      lra.
  - apply Qle_shift_div_r.
    + change 0 with (inject_Z 0). rewrite <- Zlt_Qlt. lia.
    + assert (2 <= inject_Z base)
        by (change 2 with (inject_Z 2); rewrite <- Zle_Qle; lia).
      assert (E : Qpow 2 64 * (1 # 2 ^ 54) == 1024) by reflexivity.
      rewrite E. lra.
  - rewrite E. do 2 eexists. reflexivity.
Qed.

End VanDerCorputFacts.

Section HaltonFacts.
Context {G : Type} `{RandomSource G}.

Lemma sequences_skipn (n m : nat) (start : Z) (scramble : bool)
  (seed : seed_t G) (bases : list Z) :
  Halton.sequences m (start + Z.of_nat n) scramble seed bases
  = match Halton.sequences (n + m) start scramble seed bases with
    | Some (inr cols) => Some (inr (map (skipn n) cols))
    | other => other
    end.
Proof.
  induction bases as [|b bases IH]; simpl.
  - reflexivity.
  - rewrite van_der_corput_skipn, IH.
    destruct (VanDerCorput.van_der_corput (n + m) b start scramble
                (check_random_state seed)) as [[[err|col] g]|];
      try reflexivity.
    destruct (Halton.sequences (n + m) start scramble seed bases)
      as [[err|cols]|]; reflexivity.
Qed.

Lemma sequences_return (n : nat) (start : Z) (scramble : bool)
  (seed : seed_t G) (bases : list Z) :
  Forall (fun b => (2 <= b)%Z) bases ->
  exists cols, Halton.sequences n start scramble seed bases
               = Some (inr cols).
Proof.
  induction 1 as [|b bases Hb _ IH]; simpl.
  - eexists. reflexivity.
  - destruct (van_der_corput_returns n b start scramble
                (check_random_state seed) Hb) as (s & g & E).
    destruct IH as [cols Ec]. rewrite E, Ec. eexists. reflexivity.
Qed.

Lemma transpose_skipn (n m : nat) (cols : list (list Q)) :
  transpose m (map (skipn n) cols) = skipn n (transpose (n + m) cols).
Proof.
  unfold transpose.
  rewrite skipn_map, skipn_seq.
  replace (n + m - n)%nat with m by lia.
  cbn [Nat.add]. rewrite (seq_from n m), map_map.
  apply map_ext. intros i.
  rewrite map_map. apply map_ext. intros c.
  apply nth_skipn.
Qed.

Lemma halton_fast_forward_then_random (e : Halton.t G) (n m : nat) :
  Forall (fun b => (2 <= b)%Z) (Halton.bases e) ->
  exists a e',
    Halton.random (n + m) e = Some (inr a, e')
    /\ Halton.random m (Halton.fast_forward n e)
       = Some (inr (mk_array2 (ncols a) (skipn n (rows a))), e').
Proof.
  intros Hb.
  destruct (sequences_return (n + m)
              (QMCEngine.num_generated (Halton.base e)) (Halton.scramble e)
              (Halton.seed e) (Halton.bases e) Hb) as [cols Ec].
  unfold Halton.random, Halton.fast_forward.
  cbn [Halton.base Halton.seed Halton.bases Halton.scramble
       QMCEngine.fast_forward QMCEngine.advance QMCEngine.num_generated
       QMCEngine.d QMCEngine.rng QMCEngine.rng_seed].
  rewrite sequences_skipn, Ec.
  do 2 eexists. split; [reflexivity|].
  cbn [ncols rows]. rewrite transpose_skipn.
  unfold QMCEngine.fast_forward, QMCEngine.advance.
  cbn [QMCEngine.num_generated QMCEngine.d QMCEngine.rng QMCEngine.rng_seed].
  replace (QMCEngine.num_generated (Halton.base e) + Z.of_nat n + Z.of_nat m)%Z
    with (QMCEngine.num_generated (Halton.base e) + Z.of_nat (n + m))%Z by lia.
  reflexivity.
Qed.

(** The bases of a constructed engine are the first primes, all of them
    two or more. *)
Lemma nonzero_from (s : nat) (sieve : list bool) :
  Forall (fun i => (s <= i)%nat)
    (map fst (filter snd (combine (seq s (length sieve)) sieve)))
  /\ Forall (fun i => (S s <= i)%nat)
       (tl (map fst (filter snd (combine (seq s (length sieve)) sieve)))).
Proof.
  revert s. induction sieve as [|b sieve IH]; intros s; simpl.
  - split; constructor.
  - destruct (IH (S s)) as [IH1 IH2].
    destruct b; simpl.
    + split; [constructor; [lia|]|exact IH1].
      eapply Forall_impl; [|exact IH1]. intros; simpl in *; lia.
    + split.
      * eapply Forall_impl; [|exact IH1]. intros; simpl in *; lia.
      * eapply Forall_impl; [|exact IH2]. intros; simpl in *; lia.
Qed.

Lemma primes_from_2_to_ge_2 (n : nat) :
  Forall (fun b => (2 <= b)%Z) (primes_from_2_to n).
Proof.
  unfold primes_from_2_to.
  constructor; [lia|]. constructor; [lia|].
  apply Forall_map.
  match goal with
  | |- Forall _ (tl (nonzero ?sv)) =>
      destruct (nonzero_from 0 sv) as [_ Hpos]
  end.
  eapply Forall_impl; [|exact Hpos].
  intros i Hi. cbv beta in *.
  assert (Hl : (3 * i + 1 <= Nat.lor (3 * i + 1) 1)%nat).
  { apply Nat.ldiff_le, Nat.bits_inj. intros j.
    rewrite Nat.ldiff_spec, Nat.lor_spec, Nat.bits_0.
    destruct (Nat.testbit (3 * i + 1) j); reflexivity. }
  lia.
Qed.

Lemma Forall_firstn {A : Type} (P : A -> Prop) (n : nat) (l : list A) :
  Forall P l -> Forall P (firstn n l).
Proof.
  intros Hl. revert n. induction Hl as [|x l Hx _ IH]; intros [|n]; simpl;
    try constructor; auto.
Qed.

Lemma n_primes_ge_2 (d : nat) (primes : list Z) :
  n_primes d = Some primes -> Forall (fun b => (2 <= b)%Z) primes.
Proof.
  unfold n_primes.
  destruct (length (firstn d first_primes) <? d)%nat.
  - generalize 2000%nat as big. generalize d at 1 as fuel.
    induction fuel as [|fuel IH]; intros big; simpl; [discriminate|].
    destruct (length (firstn d (primes_from_2_to big)) =? d)%nat.
    + intros E. inversion E. apply Forall_firstn, primes_from_2_to_ge_2.
    + apply IH.
  - intros E. inversion E. apply Forall_firstn.
    unfold first_primes. repeat (constructor; [lia|]). constructor.
Qed.

End HaltonFacts.

(** The embedding of the Sobol' engine, run on the first two dimensions of
    the direction numbers, gives the points of the documentation. *)
Example sobol_first_eight_points :
  exists e a e',
    Sobol.__init__ (G := nat) 2 false (SeedInt 0) = inr e
    /\ Sobol.random_base2 3 e = (inr a, e')
    /\ map (map Qred) (rows a)
       = [[0; 0]; [1#2; 1#2]; [3#4; 1#4]; [1#4; 3#4];
          [3#8; 3#8]; [7#8; 7#8]; [5#8; 1#8]; [1#8; 5#8]].
Proof.
  do 3 eexists. split; [reflexivity|]. split; reflexivity.
Qed.

Example halton_first_five_points :
  exists e a e',
    Halton.__init__ (G := nat) 2 false (SeedInt 0) = Some e
    /\ Halton.random 5 e = Some (inr a, e')
    /\ rows a = [[0; 0]; [1#2; 1#3]; [1#4; 2#3]; [3#4; 1#9]; [1#8; 4#9]].
Proof.
  do 3 eexists. split; [reflexivity|]. split; [vm_compute; reflexivity|].
  reflexivity.
Qed.

Lemma random_base2_power_of_two_witness :
  exists e,
    Sobol.__init__ (G := nat) 2 false (SeedInt 0) = inr e
    /\ (0 <= QMCEngine.num_generated (Sobol.base e))%Z
    /\ ((exists err, fst (Sobol.random_base2 3 e) = inl err)
        <-> ~ is_power_of_two
                (QMCEngine.num_generated (Sobol.base e) + 2 ^ Z.of_nat 3))
    /\ (~ is_power_of_two
            (QMCEngine.num_generated (Sobol.base e) + 2 ^ Z.of_nat 3) ->
        Sobol.random_base2 3 e = (inl ValueError, e))
    /\ (is_power_of_two
          (QMCEngine.num_generated (Sobol.base e) + 2 ^ Z.of_nat 3) ->
        exists a, fst (Sobol.random_base2 3 e) = inr a
                  /\ Z.of_nat (nrows a) = (2 ^ Z.of_nat 3)%Z).
Proof.
  eexists. split; [reflexivity|].
  split; [simpl; lia|].
  apply (random_base2_power_of_two (G := nat)). simpl. lia.
Defined.

Section ClaimFastForward.
Context {G : Type} `{RandomSource G} `{SobolTables}.

Lemma sobol_init_cursor (d : nat) (scramble : bool) (seed : seed_t G)
  (e : Sobol.t G) :
  Sobol.__init__ d scramble seed = inr e ->
  QMCEngine.num_generated (Sobol.base e) = 0%Z.
Proof.
  unfold Sobol.__init__.
  destruct (Sobol.MAXDIM <? Z.of_nat d)%Z; [discriminate|].
  destruct scramble.
  - destruct (Sobol._scramble d (initialize_v d) _) as [[shift sv] g].
    intros E. inversion E. reflexivity.
  - intros E. inversion E. reflexivity.
Qed.

(** C2, amended: on a Halton engine (seeded with an integer or with a
    generator) and on a Sobol' engine, as constructed, [fast_forward(n)]
    and then [random(m)], [m >= 1], return the last [m] points of
    [random(n + m)] on the engine as constructed, and leave the engine in
    the same state.  (Not so on the engines that draw their points from
    the generator: [fast_forward] moves the cursor only.) *)
Theorem fast_forward_then_random_on_sequences (n m : nat) :
  (1 <= m)%nat ->
  (forall d scramble seed (e : Halton.t G),
      Halton.__init__ d scramble seed = Some e ->
      exists a e',
        Halton.random (n + m) e = Some (inr a, e')
        /\ Halton.random m (Halton.fast_forward n e)
           = Some (inr (mk_array2 (ncols a) (skipn n (rows a))), e'))
  /\ (forall d scramble seed (e : Sobol.t G),
         Sobol.__init__ d scramble seed = inr e ->
         exists a e',
           Sobol.random (n + m) e = (inr a, e')
           /\ Sobol.random m (Sobol.fast_forward n e)
              = (inr (mk_array2 (ncols a) (skipn n (rows a))), e')).
Proof.
  intros Hm. split.
  - intros d scramble seed e He.
    apply halton_fast_forward_then_random.
    unfold Halton.__init__ in He.
    destruct (n_primes d) as [primes|] eqn:Ep; [|discriminate].
    inversion He. cbn [Halton.bases].
    apply (n_primes_ge_2 d). exact Ep.
  - intros d scramble seed e He.
    apply sobol_fast_forward_then_random; [|exact Hm].
    apply (sobol_init_cursor d scramble seed). exact He.
Qed.

End ClaimFastForward.

(** C2, as stated, fails on the Latin hypercube engine: after
    [fast_forward(1)], [random(2)] on [LatinHypercube(d=1, centered=True)]
    returns the two points [1/4], on the grid of two strata, while the last
    two points of [random(3)] are [1/2] and [1/6], on the grid of three. *)
Lemma latin_hypercube_fast_forward_differs :
  exists a b e1 e2,
    LatinHypercube.random 2
      (LatinHypercube.fast_forward 1
         (LatinHypercube.__init__ (G := nat) 1 true (SeedInt 0)))
    = (inr a, e1)
    /\ LatinHypercube.random 3
         (LatinHypercube.__init__ (G := nat) 1 true (SeedInt 0))
       = (inr b, e2)
    /\ rows a = [[1#4]; [1#4]]
    /\ skipn 1 (rows b) = [[3#6]; [1#6]]
    /\ rows a <> skipn 1 (rows b).
Proof.
  do 4 eexists. split; [vm_compute; reflexivity|].
  split; [vm_compute; reflexivity|].
  split; [reflexivity|]. split; [reflexivity|].
  discriminate.
Qed.

Lemma fast_forward_then_random_on_sequences_witness :
  (1 <= 2)%nat
  /\ (forall d scramble seed (e : Halton.t nat),
         Halton.__init__ d scramble seed = Some e ->
         exists a e',
           Halton.random (1 + 2) e = Some (inr a, e')
           /\ Halton.random 2 (Halton.fast_forward 1 e)
              = Some (inr (mk_array2 (ncols a) (skipn 1 (rows a))), e'))
  /\ (forall d scramble seed (e : Sobol.t nat),
         Sobol.__init__ d scramble seed = inr e ->
         exists a e',
           Sobol.random (1 + 2) e = (inr a, e')
           /\ Sobol.random 2 (Sobol.fast_forward 1 e)
              = (inr (mk_array2 (ncols a) (skipn 1 (rows a))), e')).
Proof.
  split; [lia|].
  apply (fast_forward_then_random_on_sequences (G := nat) 1 2). lia.
Defined.

(** ** The Latin hypercube engine *)

Section LatinHypercubeFacts.
Context {G : Type} `{RandomSource G}.

Lemma integers_raises (low high : Z) (size : nat) (g : G) :
  (high <= low)%Z -> size <> O ->
  integers low high size g = (inl ValueError, g).
Proof.
  intros Hle Hsize. unfold integers.
  destruct (Nat.eqb_spec size 0) as [E|_]; [contradiction|].
  destruct (Z.leb_spec high low) as [_|Hlt]; [reflexivity|lia].
Qed.

Lemma integers_returns (low high : Z) (size : nat) (g : G) :
  (low < high)%Z ->
  exists q g',
    integers low high size g = (inr q, g')
    /\ Forall (fun z => (low <= z < high)%Z) q.
Proof.
  intros Hlt. unfold integers.
  destruct (size =? 0)%nat.
  - do 2 eexists. split; [reflexivity|constructor].
  - destruct (Z.leb_spec high low) as [Hle|_]; [lia|].
    pose proof (rs_integers_range low high size g Hlt) as Hr.
    destruct (rs_integers low high size g) as [q g'].
    do 2 eexists. split; [reflexivity|exact Hr].
Qed.

Lemma Forall_skipn {A : Type} (P : A -> Prop) (n : nat) (l : list A) :
  Forall P l -> Forall P (skipn n l).
Proof.
  intros Hl. revert n. induction Hl as [|x l Hx Hl IH]; intros [|n]; simpl;
    try constructor; auto.
Qed.

Lemma Forall_reshape {A : Type} (P : A -> Prop) (n d : nat) (l : list A) :
  Forall P l -> Forall (Forall P) (reshape n d l).
Proof.
  revert l. induction n as [|n IH]; intros l Hl; simpl; constructor.
  - apply Forall_firstn, Hl.
  - apply IH, Forall_skipn, Hl.
Qed.

(** C10, amended: on every Latin hypercube engine of dimension [d >= 1],
    [random(1)] raises [ValueError] and leaves the cursor as it was; a
    centered engine is left unchanged, while a non-centered one has drawn
    the offsets [rg_sample((1, d))] before the error: its generator has
    advanced. *)
Theorem latin_hypercube_random_1 (e : LatinHypercube.t G) :
  (1 <= QMCEngine.d (LatinHypercube.base e))%nat ->
  exists e',
    LatinHypercube.random 1 e = (inl ValueError, e')
    /\ QMCEngine.num_generated (LatinHypercube.base e')
       = QMCEngine.num_generated (LatinHypercube.base e)
    /\ e' = (if LatinHypercube.centered e then e
             else LatinHypercube.mk
                    (QMCEngine.set_rng
                       (snd (rs_random (1 * QMCEngine.d (LatinHypercube.base e))
                               (QMCEngine.get_rng (LatinHypercube.base e))))
                       (LatinHypercube.base e))
                    false).
Proof.
  destruct e as [b c]. cbn [LatinHypercube.base]. intros Hd.
  unfold LatinHypercube.random, LatinHypercube.with_rng_result,
    LatinHypercube.with_rng, mbind, mget, mret, mput, ok.
  destruct c; cbn [LatinHypercube.centered LatinHypercube.base].
  - rewrite integers_raises by (simpl; lia).
    eexists. split; [reflexivity|]. split; reflexivity.
  - destruct (rs_random (1 * QMCEngine.d b) (QMCEngine.get_rng b))
      as [r g] eqn:Er.
    cbn [LatinHypercube.centered LatinHypercube.base].
    rewrite integers_raises by (simpl; lia).
    eexists. split; [reflexivity|].
    cbn [snd LatinHypercube.base]. split; [|reflexivity].
    unfold QMCEngine.set_rng. destruct (QMCEngine.rng b); reflexivity.
Qed.

(** C4: the integers [q] are drawn from [1, ..., n - 1], never [n]: on a
    centered engine no entry of [random(n)], [n >= 2], lies in the last
    stratum [[(n - 1) / n, 1)]. *)
Theorem latin_hypercube_skips_last_stratum (k d : nat) (seed : seed_t G) :
  let n := S (S k) in
  exists a e',
    LatinHypercube.random n (LatinHypercube.__init__ d true seed) = (inr a, e')
    /\ Forall (Forall (fun x => x < (Qnat n - 1) / Qnat n)) (rows a).
Proof.
  intros n.
  unfold LatinHypercube.random, LatinHypercube.with_rng_result,
    LatinHypercube.__init__, mbind, mget, mret, mput, mlift, ok.
  cbn [LatinHypercube.centered LatinHypercube.base].
  assert (Hlt : (1 < Z.of_nat n)%Z) by (unfold n; lia).
  destruct (integers_returns 1 (Z.of_nat n)
              (n * QMCEngine.d (QMCEngine.__init__ d seed))
              (QMCEngine.get_rng (QMCEngine.__init__ d seed)) Hlt)
    as (q & g & Eq & Hr).
  rewrite Eq. cbn [div_int n].
  do 2 eexists. split; [reflexivity|].
  cbn [rows]. apply Forall_reshape.
  unfold LatinHypercube.cells. apply Forall_map.
  eapply Forall_impl; [|exact Hr].
  intros z [Hz1 Hz2]. cbv beta.
  assert (HN : 0 < Qnat n).
  { unfold Qnat. change 0 with (inject_Z 0). rewrite <- Zlt_Qlt. lia. }
  assert (Hz : inject_Z z <= Qnat n - 1).
  { unfold Qnat, Qminus. change (- (1)) with (inject_Z (- 1)).
    rewrite <- inject_Z_plus, <- Zle_Qle. lia. }
  apply Qlt_shift_div_l; [exact HN|].
  assert (E : 1 / Qnat n * (inject_Z z - (1 # 2)) * Qnat n
              == inject_Z z - (1 # 2)) by (field; lra).
  rewrite E. lra.
Qed.

End LatinHypercubeFacts.

(** C4 at [LatinHypercube(d=1, centered=True).random(2)]: both points are
    [1/4]; the stratum [[1/2, 1)] is not sampled. *)
Example latin_hypercube_two_points :
  exists a e',
    LatinHypercube.random 2
      (LatinHypercube.__init__ (G := nat) 1 true (SeedInt 0)) = (inr a, e')
    /\ rows a = [[1#4]; [1#4]].
Proof.
  do 2 eexists. split; [vm_compute; reflexivity|reflexivity].
Qed.

Lemma latin_hypercube_random_1_witness :
  let e := LatinHypercube.__init__ (G := nat) 2 false (SeedInt 0) in
  (1 <= QMCEngine.d (LatinHypercube.base e))%nat
  /\ exists e',
       LatinHypercube.random 1 e = (inl ValueError, e')
       /\ QMCEngine.num_generated (LatinHypercube.base e')
          = QMCEngine.num_generated (LatinHypercube.base e)
       /\ e' = (if LatinHypercube.centered e then e
                else LatinHypercube.mk
                       (QMCEngine.set_rng
                          (snd (rs_random
                                  (1 * QMCEngine.d (LatinHypercube.base e))
                                  (QMCEngine.get_rng (LatinHypercube.base e))))
                          (LatinHypercube.base e))
                       false).
Proof.
  intros e.
  assert (Hd : (1 <= QMCEngine.d (LatinHypercube.base e))%nat)
    by (simpl; lia).
  split; [exact Hd|].
  exact (latin_hypercube_random_1 (G := nat) e Hd).
Defined.

(** C10, as stated, fails on a non-centered engine: the call that raises
    has drawn from the generator, and the two points that [random(2)]
    returns afterwards are not the ones it returns on the engine as
    constructed. *)
Lemma latin_hypercube_failed_draw_advances_generator :
  exists e' a b e1 e2,
    LatinHypercube.random 1
      (LatinHypercube.__init__ (G := nat) 1 false (SeedInt 0))
    = (inl ValueError, e')
    /\ e' <> LatinHypercube.__init__ 1 false (SeedInt 0)
    /\ LatinHypercube.random 2 e' = (inr a, e1)
    /\ LatinHypercube.random 2
         (LatinHypercube.__init__ (G := nat) 1 false (SeedInt 0))
       = (inr b, e2)
    /\ rows a = [[6 # 32]; [15 # 32]]
    /\ rows b = [[13 # 32]; [6 # 32]].
Proof.
  do 5 eexists. split; [vm_compute; reflexivity|].
  split; [discriminate|].
  split; [vm_compute; reflexivity|].
  split; [vm_compute; reflexivity|].
  split; reflexivity.
Qed.

(** ** Scrambling in the Van der Corput sequence *)

Section Scrambling.
Context {G : Type} `{RandomSource G}.

(** The number of rounds of the loop of [van_der_corput], which depends on
    the base only. *)
Fixpoint rounds (fuel : nat) (base : Z) (b2r : Q) : option nat :=
  if VanDerCorput.one_minus_lt_one b2r then
    match fuel with
    | O => None
    | S fuel' =>
        option_map S (rounds fuel' base (Qred (b2r / inject_Z base)))
    end
  else Some O.

(** [k] permutations of [range(base)] drawn one after the other. *)
Fixpoint draw_permutations (k : nat) (base : Z) (g : G)
  : list (list Z) * G :=
  match k with
  | O => ([], g)
  | S k' =>
      let (perm, g1) := rs_permutation base g in
      let (perms, g2) := draw_permutations k' base g1 in
      (perm :: perms, g2)
  end.

(** The loop of [van_der_corput] on a single point, the permutation of
    every round given: round [j] looks its remainder up in the [j]-th
    permutation of [perms]. *)
Fixpoint point_value (perms : list (list Z)) (base : Z) (b2r q s : Q) : Q :=
  match perms with
  | [] => s
  | perm :: perms' =>
      let r :=
        inject_Z (nth (Z.to_nat (astype_int (np_mod q (inject_Z base))))
                      perm 0%Z) in
      point_value perms' base (Qred (b2r / inject_Z base))
        (Qred ((q - r) / inject_Z base)) (Qred (s + r * b2r))
  end.

(** The scrambling as the specification words it: one permutation is
    drawn, and it is applied at every digit position of every point. *)
Definition van_der_corput_single_permutation (n : nat) (base start : Z)
  (g : G) : option (list Q * G) :=
  match rounds 64 base (1 / inject_Z base) with
  | Some k =>
      let (perm, g') := rs_permutation base g in
      Some (map (fun q => point_value (repeat perm k) base
                            (1 / inject_Z base) q 0)
                (VanDerCorput.arange start n),
            g')
  | None => None
  end.

Lemma step_pointwise (perm : list Z) (perms : list (list Z)) (base : Z)
  (b2r : Q) (quotient sequence : list Q) :
  let remainder :=
    VanDerCorput.take perm
      (map (fun q => np_mod q (inject_Z base)) quotient) in
  map2 (point_value perms base (Qred (b2r / inject_Z base)))
    (map2 (fun q r => Qred ((q - r) / inject_Z base)) quotient remainder)
    (map2 (fun s r => Qred (s + r * b2r)) sequence remainder)
  = map2 (point_value (perm :: perms) base b2r) quotient sequence.
Proof.
  unfold VanDerCorput.take. rewrite map_map. revert sequence.
  induction quotient as [|q quotient IH]; intros [|s sequence];
    cbn [map2 map point_value]; try reflexivity.
  rewrite IH. reflexivity.
Qed.

Lemma map2_length {A B C : Type} (f : A -> B -> C) (l : list A)
  (m : list B) :
  length (map2 f l m) = Nat.min (length l) (length m).
Proof.
  revert m. induction l as [|a l IH]; intros [|b m]; simpl; auto.
Qed.

Lemma VanDerCorput_take_length (perm : list Z) (remainder : list Q) :
  length (VanDerCorput.take perm remainder) = length remainder.
Proof.
  unfold VanDerCorput.take. apply length_map.
Qed.

Lemma map2_no_round (base : Z) (b2r : Q) (quotient sequence : list Q) :
  length quotient = length sequence ->
  map2 (point_value [] base b2r) quotient sequence = sequence.
Proof.
  revert sequence.
  induction quotient as [|q quotient IH]; intros [|s sequence] Hlen;
    simpl in *; try congruence.
  rewrite IH by congruence. reflexivity.
Qed.

Lemma loop_pointwise (fuel : nat) (base : Z) (g : G) (b2r : Q)
  (quotient sequence : list Q) :
  length quotient = length sequence ->
  VanDerCorput.loop fuel base true g b2r quotient sequence
  = match rounds fuel base b2r with
    | Some k =>
        Some (map2 (point_value (fst (draw_permutations k base g)) base b2r)
                quotient sequence,
              snd (draw_permutations k base g))
    | None => None
    end.
Proof.
  intros Hlen. revert g b2r quotient sequence Hlen.
  induction fuel as [|fuel IH]; intros g b2r quotient sequence Hlen;
    cbn [VanDerCorput.loop rounds].
  - destruct (VanDerCorput.one_minus_lt_one b2r); [reflexivity|].
    cbn [draw_permutations fst snd]. now rewrite map2_no_round.
  - destruct (VanDerCorput.one_minus_lt_one b2r).
    + unfold VanDerCorput.step.
      destruct (rs_permutation base g) as [perm g1] eqn:Ep.
      rewrite IH
        by (rewrite !map2_length, VanDerCorput_take_length, length_map; lia).
      destruct (rounds fuel base (Qred (b2r / inject_Z base))) as [k|];
        [|reflexivity].
      cbn [option_map draw_permutations]. rewrite Ep.
      destruct (draw_permutations k base g1) as [perms g2].
      cbn [fst snd]. rewrite step_pointwise. reflexivity.
    + cbn [draw_permutations fst snd]. now rewrite map2_no_round.
Qed.

Lemma rounds_terminates (fuel : nat) (base : Z) (b2r : Q) :
  (2 <= base)%Z ->
  0 <= b2r -> b2r <= Qpow 2 fuel * (1 # 2 ^ 54) ->
  exists k, rounds fuel base b2r = Some k.
Proof.
  intros Hbase. revert b2r.
  induction fuel as [|fuel IH]; intros b2r H0 Hle; cbn [rounds].
  - unfold VanDerCorput.one_minus_lt_one.
    assert (E : Qle_bool b2r (1 # 2 ^ 54) = true).
    { apply Qle_bool_iff. simpl in Hle. lra. }
    rewrite E. eexists. reflexivity.
  - destruct (VanDerCorput.one_minus_lt_one b2r); [|eexists; reflexivity].
    assert (Hpos : 0 < inject_Z base).
    { change 0 with (inject_Z 0). rewrite <- Zlt_Qlt. lia. }
    assert (H2 : 2 <= inject_Z base).
    { change 2 with (inject_Z 2). rewrite <- Zle_Qle. lia. }
    destruct (IH (Qred (b2r / inject_Z base))) as [k Ek].
    + rewrite Qred_correct. apply Qle_shift_div_l; [exact Hpos|]. lra.
    + rewrite Qred_correct. apply Qle_shift_div_r; [exact Hpos|].
      cbn [Qpow] in Hle.
      assert (HX : 0 <= Qpow 2 fuel * (1 # 2 ^ 54)).
      { apply Qmult_le_0_compat; [apply Qpow_2_nonneg|discriminate]. }
      pose proof (Qmult_le_compat_r 2 (inject_Z base) _ H2 HX).
      lra.
    + rewrite Ek. eexists. reflexivity.
Qed.

Lemma map2_repeat {A B C : Type} (f : A -> B -> C) (l : list A) (x : B) :
  map2 f l (repeat x (length l)) = map (fun a => f a x) l.
Proof.
  induction l as [|a l IH]; simpl; [reflexivity|now rewrite IH].
Qed.

Lemma draw_permutations_length (k : nat) (base : Z) (g : G) :
  length (fst (draw_permutations k base g)) = k.
Proof.
  revert g. induction k as [|k IH]; intros g; simpl.
  - reflexivity.
  - destruct (rs_permutation base g) as [perm g1].
    specialize (IH g1). destruct (draw_permutations k base g1).
    simpl in *. now rewrite IH.
Qed.

Lemma arange_length (start : Z) (n : nat) :
  length (VanDerCorput.arange start n) = n.
Proof.
  unfold VanDerCorput.arange. now rewrite length_map, length_seq.
Qed.

(** C3, amended: in a scrambled call with a base of two or more, the loop
    makes [k] rounds, one per digit position ([k] depends on the base: 53
    for the base two); every round draws a permutation of its own from the
    generator, [k] draws in all, and the permutation of a round is applied
    to the digit of that round in every one of the [n] points: point [i]
    is the value of the loop run on [start_index + i] alone with these [k]
    permutations. *)
Theorem van_der_corput_permutation_per_digit (n : nat) (base start : Z)
  (g : G) :
  (2 <= base)%Z ->
  exists k,
    rounds 64 base (1 / inject_Z base) = Some k
    /\ length (fst (draw_permutations k base g)) = k
    /\ VanDerCorput.van_der_corput n base start true g
       = Some (inr (map (fun q =>
                           point_value (fst (draw_permutations k base g))
                             base (1 / inject_Z base) q 0)
                        (VanDerCorput.arange start n)),
               snd (draw_permutations k base g)).
Proof.
  intros Hbase.
  assert (Hpos : 0 < inject_Z base).
  { change 0 with (inject_Z 0). rewrite <- Zlt_Qlt. lia. }
  assert (H2 : 2 <= inject_Z base).
  { change 2 with (inject_Z 2). rewrite <- Zle_Qle. lia. }
  destruct (rounds_terminates 64 base (1 / inject_Z base) Hbase) as [k Ek].
  - apply Qle_shift_div_l; [exact Hpos|]. lra.
  - apply Qle_shift_div_r; [exact Hpos|].
    assert (E : Qpow 2 64 * (1 # 2 ^ 54) == 1024) by reflexivity.
    rewrite E. lra.
  - exists k. split; [exact Ek|]. split; [apply draw_permutations_length|].
    unfold VanDerCorput.van_der_corput.
    destruct (Z.eqb_spec base 0) as [E|_]; [lia|].
    rewrite loop_pointwise by (now rewrite arange_length, repeat_length).
    rewrite Ek.
    rewrite <- (arange_length start n) at 2.
    rewrite map2_repeat. reflexivity.
Qed.

End Scrambling.

Example rounds_base_two : rounds 64 2 (1 / inject_Z 2) = Some 53%nat.
Proof. reflexivity. Qed.

(** C3, as stated, fails: [van_der_corput(2, base=2, start_index=1,
    scramble=True)] draws 53 permutations from the generator, not one, and
    what it returns is not the two points scrambled with the permutation
    drawn first, nor with any one permutation of [{0, 1}]. *)
Lemma van_der_corput_draws_many_permutations :
  exists s s1,
    VanDerCorput.van_der_corput (G := nat) 2 2 1 true 0%nat
    = Some (inr s, 53%nat)
    /\ van_der_corput_single_permutation (G := nat) 2 2 1 0%nat
       = Some (s1, 1%nat)
    /\ s <> s1
    /\ forall perm, In perm [[0; 1]; [1; 0]]%Z ->
         s <> map (fun q => point_value (repeat perm 53) 2 (1 / inject_Z 2)
                               q 0)
                  (VanDerCorput.arange 1 2).
Proof.
  do 2 eexists. split; [vm_compute; reflexivity|].
  split; [vm_compute; reflexivity|].
  split; [vm_compute; discriminate|].
  intros perm [<-|[<-|[]]]; vm_compute; discriminate.
Qed.

Lemma van_der_corput_permutation_per_digit_witness :
  (2 <= 2)%Z
  /\ exists k,
       rounds 64 2 (1 / inject_Z 2) = Some k
       /\ length (fst (draw_permutations (G := nat) k 2 0%nat)) = k
       /\ VanDerCorput.van_der_corput (G := nat) 2 2 1 true 0%nat
          = Some (inr (map (fun q =>
                              point_value
                                (fst (draw_permutations (G := nat) k 2 0%nat))
                                2 (1 / inject_Z 2) q 0)
                           (VanDerCorput.arange 1 2)),
                  snd (draw_permutations (G := nat) k 2 0%nat)).
Proof.
  split; [lia|].
  apply (van_der_corput_permutation_per_digit (G := nat) 2 2 1 0%nat). lia.
Defined.

(** ** The optimal design never gets worse *)

Section OptimalDesignFacts.
Context {G : Type} `{RandomSource G} `{Minimizer G}.

Lemma ext_le_refl (a : extended) : ext_le a a.
Proof. destruct a; simpl; [apply Qle_refl|exact I]. Qed.

Lemma ext_le_trans (a b c : extended) :
  ext_le a b -> ext_le b c -> ext_le a c.
Proof.
  destruct a, b, c; simpl; try tauto. apply Qle_trans.
Qed.

Lemma ext_ltb_le (a b : extended) : ext_ltb a b = true -> ext_le a b.
Proof.
  destruct a as [x|], b as [y|]; simpl; try tauto; try discriminate.
  intros Hlt. apply negb_true_iff in Hlt.
  destruct (Qlt_le_dec x y) as [Hxy|Hyx]; [apply Qlt_le_weak, Hxy|].
  apply Qle_bool_iff in Hyx. congruence.
Qed.

(** A method that never leaves a larger [best_disc] than it found. *)
Definition nonincreasing {A : Type} (m : meth (OptimalDesign.t G) A) : Prop :=
  forall s, ext_le (OptimalDesign.best_disc (snd (m s)))
                   (OptimalDesign.best_disc s).

Lemma nonincreasing_bind {A B : Type} (m : meth (OptimalDesign.t G) A)
  (f : A -> meth (OptimalDesign.t G) B) :
  nonincreasing m -> (forall a, nonincreasing (f a)) ->
  nonincreasing (mbind m f).
Proof.
  intros Hm Hf s. unfold mbind.
  specialize (Hm s). destruct (m s) as [[err|a] s']; cbn [snd] in *.
  - exact Hm.
  - eapply ext_le_trans; [apply Hf|exact Hm].
Qed.

Lemma nonincreasing_ret {A : Type} (a : A) : nonincreasing (mret a).
Proof. intros s. apply ext_le_refl. Qed.

Lemma nonincreasing_get : nonincreasing mget.
Proof. intros s. apply ext_le_refl. Qed.

(** One evaluation of the objective: the state changes only when the
    candidate is strictly below [best_disc], which then becomes the
    candidate. *)
Lemma perturb_best_doe_commits (x : Q * Q * Q) (s : OptimalDesign.t G) :
  let (r, s') := OptimalDesign._perturb_best_doe x s in
  s' = s
  \/ exists disc,
       r = inr disc
       /\ ext_ltb disc (OptimalDesign.best_disc s) = true
       /\ OptimalDesign.best_disc s' = disc.
Proof.
  unfold OptimalDesign._perturb_best_doe.
  destruct (OptimalDesign.best_doe s) as [doe|]; [|left; reflexivity].
  destruct x as [[x0 x1] x2].
  destruct (OptimalDesign.perturb_ext doe (np_round x1) (np_round x2)
              (np_round x0) (OptimalDesign.best_disc s)) as [err|disc];
    [left; reflexivity|].
  destruct (ext_ltb disc (OptimalDesign.best_disc s)) eqn:Elt;
    [|left; reflexivity].
  destruct (np_index (np_round x1) (nrows doe)) as [?|r1];
    [left; reflexivity|].
  destruct (np_index (np_round x2) (nrows doe)) as [?|r2];
    [left; reflexivity|].
  destruct (np_index (np_round x0) (ncols doe)) as [?|c];
    [left; reflexivity|].
  right. exists disc. repeat split. exact Elt.
Qed.

Lemma perturb_best_doe_nonincreasing (x : Q * Q * Q) :
  nonincreasing (OptimalDesign._perturb_best_doe x).
Proof.
  intros s. pose proof (perturb_best_doe_commits x s) as Hc.
  destruct (OptimalDesign._perturb_best_doe x s) as [r s']. cbn [snd].
  destruct Hc as [->|(disc & _ & Hlt & ->)].
  - apply ext_le_refl.
  - apply ext_ltb_le, Hlt.
Qed.

Lemma run_nonincreasing (r : optimizer_run G) :
  nonincreasing (OptimalDesign.run r).
Proof.
  induction r as [g|x k IH]; cbn [OptimalDesign.run].
  - intros s. apply ext_le_refl.
  - apply nonincreasing_bind; [apply perturb_best_doe_nonincreasing|exact IH].
Qed.

Lemma iterate_nonincreasing (niter : nat) (x0 : Q * Q * Q)
  (bounds : list (Z * Z)) :
  nonincreasing (OptimalDesign.iterate niter x0 bounds).
Proof.
  induction niter as [|niter IH]; cbn [OptimalDesign.iterate].
  - apply nonincreasing_ret.
  - apply nonincreasing_bind; [apply nonincreasing_get|]. intros e.
    apply nonincreasing_bind; [apply run_nonincreasing|]. intros _. exact IH.
Qed.

Lemma init_fields (d niter : nat) (start_design : option array2)
  (method : option (method_t G)) (seed : seed_t G) (e : OptimalDesign.t G) :
  OptimalDesign.__init__ d start_design niter method seed = inr e ->
  QMCEngine.d (OptimalDesign.base e) = d
  /\ OptimalDesign.best_doe e = start_design
  /\ match start_design with
     | Some design =>
         exists c,
           Discrepancy.discrepancy design false Discrepancy.CD = inr c
           /\ OptimalDesign.best_disc e = Finite c
     | None => OptimalDesign.best_disc e = PlusInf
     end.
Proof.
  unfold OptimalDesign.__init__.
  destruct start_design as [design|]; cbn [rbind].
  - destruct (Discrepancy.discrepancy design false Discrepancy.CD)
      as [err|c]; cbn [rbind ok]; [discriminate|].
    intros E. inversion E. cbn. repeat split. exists c. split; reflexivity.
  - cbn [ok]. intros E. inversion E. cbn. repeat split.
Qed.

(** The design that [random] starts from, and its centered discrepancy. *)
Lemma initial_design_disc (n : nat) (e : OptimalDesign.t G) :
  match OptimalDesign.best_doe e with
  | Some design =>
      exists c,
        Discrepancy.discrepancy design false Discrepancy.CD = inr c
        /\ OptimalDesign.best_disc e = Finite c
  | None => True
  end ->
  fst (OptimalDesign.initial_design n e) = inr tt ->
  exists doe c,
    OptimalDesign.best_doe (snd (OptimalDesign.initial_design n e)) = Some doe
    /\ Discrepancy.discrepancy doe false Discrepancy.CD = inr c
    /\ OptimalDesign.best_disc (snd (OptimalDesign.initial_design n e))
       = Finite c
    /\ (forall design, OptimalDesign.best_doe e = Some design -> doe = design).
Proof.
  unfold OptimalDesign.initial_design, mbind, mget, mput, mlift, mret, ok.
  destruct (OptimalDesign.best_doe e) as [design|] eqn:Eb.
  - intros (c & Ec & Ed) _. cbn [snd]. exists design, c.
    repeat split; try assumption. intros design' E. congruence.
  - intros _.
    destruct (OptimalDesign.olhs_random n e) as [[err|doe] e1];
      cbn [fst snd]; [discriminate|].
    destruct (Discrepancy.discrepancy doe false Discrepancy.CD) as [err|c]
      eqn:Ec; cbn [fst snd]; [discriminate|].
    intros _. exists doe, c. cbn. repeat split; try assumption.
    intros design E. discriminate.
Qed.

Lemma discrepancy_returns (a : array2) :
  ncols a <> O -> nrows a <> O ->
  exists c, Discrepancy.discrepancy a false Discrepancy.CD = inr c.
Proof.
  intros Hd Hn. unfold Discrepancy.discrepancy, Discrepancy.prod_arr_loop.
  destruct (ncols a) as [|d] eqn:Ed; [congruence|].
  change (seq 0 (S d)) with (0%nat :: seq 1 d).
  rewrite loop_from_scalar. cbn [arr_sum rbind ok].
  destruct (nrows a) as [|n] eqn:En; [congruence|].
  cbn [div_int rbind ok Nat.mul]. eexists. reflexivity.
Qed.

Lemma olhs_random_returns (n : nat) (e : OptimalDesign.t G) :
  n <> O ->
  exists doe e',
    OptimalDesign.olhs_random n e = (inr doe, e')
    /\ ncols doe = QMCEngine.d (OptimalDesign.olhs e)
    /\ nrows doe = n.
Proof.
  intros Hn. unfold OptimalDesign.olhs_random, OrthogonalLatinHypercube.random,
    mbind, mlift, mget, mput, mret, ok.
  destruct n as [|n]; [congruence|]. cbn [div_int]. unfold ok.
  cbn [QMCEngine.d QMCEngine.get_rng QMCEngine.rng].
  match goal with
  | |- context [OrthogonalLatinHypercube.columns ?a ?b ?c ?g] =>
      destruct (OrthogonalLatinHypercube.columns a b c g) as [sample g']
  end.
  do 2 eexists. split; [reflexivity|]. split; [reflexivity|].
  unfold nrows, transpose. cbn [rows]. now rewrite length_map, length_seq.
Qed.

Lemma initial_design_returns (d n niter : nat) (start_design : option array2)
  (method : option (method_t G)) (seed : seed_t G) (e : OptimalDesign.t G) :
  d <> O -> n <> O ->
  OptimalDesign.__init__ d start_design niter method seed = inr e ->
  fst (OptimalDesign.initial_design n e) = inr tt.
Proof.
  intros Hd Hn He.
  assert (Eo : QMCEngine.d (OptimalDesign.olhs e) = d).
  { unfold OptimalDesign.__init__ in He.
    destruct start_design as [design|]; cbn [rbind] in He.
    - destruct (Discrepancy.discrepancy design false Discrepancy.CD);
        cbn [rbind ok] in He; [discriminate|].
      inversion He. reflexivity.
    - inversion He. reflexivity. }
  destruct (init_fields d niter start_design method seed e He)
    as (_ & Eb & _).
  unfold OptimalDesign.initial_design.
  unfold mbind at 1. unfold mget at 1. cbn [ok].
  rewrite Eb. destruct start_design as [design|]; [reflexivity|].
  destruct (olhs_random_returns n e Hn) as (doe & e1 & Er & Ec & En).
  unfold mbind, mget, mput, mlift, mret, ok. rewrite Er.
  destruct (discrepancy_returns doe) as [c Ecd]; [congruence|congruence|].
  rewrite Ecd. reflexivity.
Qed.

Lemma random_after_initial_design (n : nat) (e : OptimalDesign.t G) :
  QMCEngine.d (OptimalDesign.base e) <> O ->
  ext_le (OptimalDesign.best_disc (snd (OptimalDesign.random n e)))
         (OptimalDesign.best_disc (snd (OptimalDesign.initial_design n e))).
Proof.
  intros Hd. unfold OptimalDesign.random.
  unfold mbind at 1. unfold mget at 1. cbn [ok].
  destruct (Nat.eqb_spec (QMCEngine.d (OptimalDesign.base e)) 0) as [E|_];
    [contradiction|].
  unfold mbind at 1.
  destruct (OptimalDesign.initial_design n e) as [[err|[]] e1]; cbn [snd].
  - apply ext_le_refl.
  - match goal with
    | |- ext_le (OptimalDesign.best_disc (snd (?m e1))) _ =>
        assert (Hm : nonincreasing m); [|apply Hm]
    end.
    apply nonincreasing_bind; [apply iterate_nonincreasing|]. intros _.
    intros s. unfold mbind, mget, mput, mret, mraise, ok. cbn [snd].
    destruct (OptimalDesign.best_doe s); cbn [snd OptimalDesign.best_disc];
      apply ext_le_refl.
Qed.

(** C8: on an engine constructed with [d >= 1], whatever the optimizer
    asks for, an evaluation of the objective never leaves a larger
    [best_disc] than it found (the state changes only when the candidate is
    strictly below [best_disc]); hence [best_disc] after [random(n)] is at
    most the centered discrepancy of the design that [random] starts from
    (the [start_design], or the draw of the orthogonal Latin hypercube,
    which is there for every [n >= 1]). *)
Theorem optimal_design_best_disc_never_increases (d n niter : nat)
  (start_design : option array2) (method : option (method_t G))
  (seed : seed_t G) (e : OptimalDesign.t G) :
  d <> O ->
  OptimalDesign.__init__ d start_design niter method seed = inr e ->
  (forall x (s : OptimalDesign.t G),
      ext_le (OptimalDesign.best_disc
                (snd (OptimalDesign._perturb_best_doe x s)))
             (OptimalDesign.best_disc s)
      /\ (snd (OptimalDesign._perturb_best_doe x s) <> s ->
          exists disc,
            fst (OptimalDesign._perturb_best_doe x s) = inr disc
            /\ ext_ltb disc (OptimalDesign.best_disc s) = true))
  /\ (n <> O -> fst (OptimalDesign.initial_design n e) = inr tt)
  /\ (fst (OptimalDesign.initial_design n e) = inr tt ->
      exists doe c,
        OptimalDesign.best_doe (snd (OptimalDesign.initial_design n e))
        = Some doe
        /\ (forall design, start_design = Some design -> doe = design)
        /\ Discrepancy.discrepancy doe false Discrepancy.CD = inr c
        /\ ext_le (OptimalDesign.best_disc (snd (OptimalDesign.random n e)))
                  (Finite c)).
Proof.
  intros Hd He.
  destruct (init_fields d niter start_design method seed e He)
    as (Ed & Eb & Hdisc).
  split; [|split;
           [intros Hn;
            apply (initial_design_returns d n niter start_design method seed);
            assumption|]].
  - intros x s. split; [apply perturb_best_doe_nonincreasing|].
    pose proof (perturb_best_doe_commits x s) as Hc.
    destruct (OptimalDesign._perturb_best_doe x s) as [r s']. cbn [fst snd].
    intros Hne. destruct Hc as [->|(disc & Er & Hlt & _)]; [congruence|].
    exists disc. split; assumption.
  - intros Hstart.
    destruct (initial_design_disc n e) as (doe & c & Edoe & Ec & Edisc & Hsd).
    + rewrite Eb. destruct start_design; [exact Hdisc|exact I].
    + exact Hstart.
    + exists doe, c. repeat split; try assumption.
      * intros design E. apply Hsd. congruence.
      * rewrite <- Edisc. apply random_after_initial_design. congruence.
Qed.

End OptimalDesignFacts.

Lemma optimal_design_best_disc_never_increases_witness :
  let design := mk_array2 2 [[1#6; 1#6]; [3#6; 3#6]; [5#6; 5#6]] in
  let method : method_t nat :=
    fun _ _ g => Ask (0, 0, 1) (fun _ => Ask (0, 1, 2) (fun _ => Stop g)) in
  exists e,
    (2 <> 0)%nat
    /\ OptimalDesign.__init__ 2 (Some design) 1 (Some method) (SeedInt 0)
       = inr e
    /\ (forall x (s : OptimalDesign.t nat),
           ext_le (OptimalDesign.best_disc
                     (snd (OptimalDesign._perturb_best_doe x s)))
                  (OptimalDesign.best_disc s)
           /\ (snd (OptimalDesign._perturb_best_doe x s) <> s ->
               exists disc,
                 fst (OptimalDesign._perturb_best_doe x s) = inr disc
                 /\ ext_ltb disc (OptimalDesign.best_disc s) = true))
    /\ ((3 <> 0)%nat -> fst (OptimalDesign.initial_design 3 e) = inr tt)
    /\ (fst (OptimalDesign.initial_design 3 e) = inr tt ->
        exists doe c,
          OptimalDesign.best_doe (snd (OptimalDesign.initial_design 3 e))
          = Some doe
          /\ (forall design', Some design = Some design' -> doe = design')
          /\ Discrepancy.discrepancy doe false Discrepancy.CD = inr c
          /\ ext_le (OptimalDesign.best_disc
                       (snd (OptimalDesign.random 3 e)))
                    (Finite c)).
Proof.
  intros design method.
  eexists. split; [discriminate|]. split; [reflexivity|].
  apply (optimal_design_best_disc_never_increases (G := nat) 2 3 1
           (Some design) (Some method) (SeedInt 0)).
  - discriminate.
  - reflexivity.
Defined.

(** A run that commits a swap: from the diagonal design of three points,
    the exchange of the first two rows in the first column is kept, and
    [best_disc] is then the centered discrepancy [115/3888] of the design
    that [random] returns. *)
Example optimal_design_commits_a_swap :
  let design := mk_array2 2 [[1#6; 1#6]; [3#6; 3#6]; [5#6; 5#6]] in
  let method : method_t nat :=
    fun _ _ g => Ask (0, 0, 1) (fun _ => Ask (0, 1, 2) (fun _ => Stop g)) in
  exists e a e' c c' v,
    OptimalDesign.__init__ 2 (Some design) 1 (Some method) (SeedInt 0) = inr e
    /\ OptimalDesign.random 3 e = (inr a, e')
    /\ rows a = [[3#6; 1#6]; [1#6; 3#6]; [5#6; 5#6]]
    /\ OptimalDesign.best_disc e = Finite c
    /\ OptimalDesign.best_disc e' = Finite c'
    /\ Discrepancy.discrepancy a false Discrepancy.CD = inr v
    /\ c' < c /\ c' == 115 # 3888 /\ v == 115 # 3888.
Proof.
  intros design method.
  do 6 eexists. split; [reflexivity|].
  split; [vm_compute; reflexivity|].
  split; [reflexivity|].
  split; [vm_compute; reflexivity|].
  split; [reflexivity|].
  split; [vm_compute; reflexivity|].
  repeat split; vm_compute; reflexivity.
Qed.

(** ** Reset *)

Section ResetFacts.
Context {G : Type} `{RandomSource G} `{Minimizer G}.

(** Whatever the engine was constructed with, [reset] leaves the defaults
    of [__init__] in place of [start_design], [niter] and [method]. *)
Lemma optimal_design_reset_defaults (e : OptimalDesign.t G) :
  OptimalDesign.start_design (OptimalDesign.reset e) = None
  /\ OptimalDesign.niter (OptimalDesign.reset e) = 1%nat
  /\ OptimalDesign.method (OptimalDesign.reset e) = basinhopping
  /\ OptimalDesign.best_doe (OptimalDesign.reset e) = None
  /\ OptimalDesign.best_disc (OptimalDesign.reset e) = PlusInf.
Proof. repeat split. Qed.

(** [LatinHypercube.reset] hands every argument of the constructor on. *)
Lemma latin_hypercube_reset_restores (n d : nat) (centered : bool)
  (seed : seed_t G) :
  LatinHypercube.reset
    (snd (LatinHypercube.random n (LatinHypercube.__init__ d centered seed)))
  = LatinHypercube.__init__ d centered seed.
Proof.
  unfold LatinHypercube.random, LatinHypercube.with_rng_result,
    LatinHypercube.with_rng, LatinHypercube.__init__, QMCEngine.__init__,
    mbind, mget, mret, mput, mlift, ok.
  destruct centered;
    cbn [LatinHypercube.centered LatinHypercube.base QMCEngine.get_rng
         QMCEngine.set_rng QMCEngine.rng QMCEngine.d].
  - destruct (integers 1 (Z.of_nat n) (n * d) (check_random_state seed))
      as [[err|q] g]; [reflexivity|].
    destruct (div_int 1 n); reflexivity.
  - destruct (rs_random (n * d) (check_random_state seed)) as [r g1].
    cbn [LatinHypercube.centered LatinHypercube.base QMCEngine.get_rng
         QMCEngine.set_rng QMCEngine.rng QMCEngine.d].
    destruct (integers 1 (Z.of_nat n) (n * d) g1) as [[err|q] g];
      [reflexivity|].
    destruct (div_int 1 n); reflexivity.
Qed.

End ResetFacts.

(** C5 at [OptimalDesign(d=1, start_design=[[0.25], [0.75]], niter=0)]: the
    draw after the construction returns the two rows of the start design;
    [reset] puts [start_design=None] and [niter=1] in place of the
    arguments, and the draw after it returns one row, from a draw of the
    orthogonal Latin hypercube. *)
Theorem optimal_design_reset_forgets_arguments :
  let design := mk_array2 1 [[1#4]; [3#4]] in
  exists e a e1 b e2,
    OptimalDesign.__init__ (G := nat) 1 (Some design) 0 None (SeedInt 0)
    = inr e
    /\ OptimalDesign.random 1 e = (inr a, e1)
    /\ OptimalDesign.random 1 (OptimalDesign.reset e1) = (inr b, e2)
    /\ a = design
    /\ nrows b = 1%nat
    /\ a <> b
    /\ OptimalDesign.start_design e = Some design
    /\ OptimalDesign.start_design (OptimalDesign.reset e1) = None
    /\ OptimalDesign.niter e = 0%nat
    /\ OptimalDesign.niter (OptimalDesign.reset e1) = 1%nat.
Proof.
  intros design.
  do 5 eexists. split; [reflexivity|].
  split; [vm_compute; reflexivity|].
  split; [vm_compute; reflexivity|].
  repeat split. discriminate.
Qed.

(** ** The cursor of the derived samplers *)

Section CursorFacts.
Context {G : Type} `{RandomSource G} `{SobolTables} `{SpecialFunctions}.

Lemma draw_into_base (k i : Z) (sample : list (list Q)) (e : Sobol.t G) :
  Sobol.base (snd (Sobol.draw_into k i sample e)) = Sobol.base e.
Proof.
  unfold Sobol.draw_into.
  now destruct (Sobol._draw (Z.to_nat k) i (Sobol._sv e) (Sobol._quasi e)).
Qed.

Lemma sobol_random_cursor (n : nat) (e : Sobol.t G) :
  exists a e',
    Sobol.random n e = (inr a, e')
    /\ QMCEngine.num_generated (Sobol.base e')
       = (QMCEngine.num_generated (Sobol.base e) + Z.of_nat n)%Z.
Proof.
  unfold Sobol.random.
  destruct (QMCEngine.num_generated (Sobol.base e) =? 0)%Z.
  - destruct (n =? 1)%nat.
    + do 2 eexists. split; reflexivity.
    + match goal with
      | |- context [Sobol.draw_into ?k ?i ?s e] =>
          pose proof (draw_into_base k i s e) as Hb;
          destruct (Sobol.draw_into k i s e) as [sample e1]
      end.
      cbn [snd] in Hb. do 2 eexists. split; [reflexivity|].
      cbn [Sobol.advance Sobol.base QMCEngine.advance QMCEngine.num_generated].
      now rewrite Hb.
  - match goal with
    | |- context [Sobol.draw_into ?k ?i ?s e] =>
        pose proof (draw_into_base k i s e) as Hb;
        destruct (Sobol.draw_into k i s e) as [sample e1]
    end.
    cbn [snd] in Hb. do 2 eexists. split; [reflexivity|].
    cbn [Sobol.advance Sobol.base QMCEngine.advance QMCEngine.num_generated].
    now rewrite Hb.
Qed.

Lemma set_rng_cursor (g : G) (e : QMCEngine.t G) :
  QMCEngine.num_generated (QMCEngine.set_rng g e)
  = QMCEngine.num_generated e.
Proof.
  unfold QMCEngine.set_rng. now destruct (QMCEngine.rng e).
Qed.

(** The engines that generate points advance the cursor by [n] when
    [random(n)] returns. *)
Lemma halton_random_cursor (n : nat) (e e' : Halton.t G) (a : array2) :
  Halton.random n e = Some (inr a, e') ->
  QMCEngine.num_generated (Halton.base e')
  = (QMCEngine.num_generated (Halton.base e) + Z.of_nat n)%Z.
Proof.
  unfold Halton.random.
  destruct (Halton.sequences _ _ _ _ _) as [[err|sample]|]; try discriminate.
  intros E. inversion E. reflexivity.
Qed.

Lemma latin_hypercube_random_cursor (n : nat) (e e' : LatinHypercube.t G)
  (a : array2) :
  LatinHypercube.random n e = (inr a, e') ->
  QMCEngine.num_generated (LatinHypercube.base e')
  = (QMCEngine.num_generated (LatinHypercube.base e) + Z.of_nat n)%Z.
Proof.
  destruct e as [b c].
  unfold LatinHypercube.random, LatinHypercube.with_rng_result,
    LatinHypercube.with_rng, mbind, mget, mret, mput, mlift, ok.
  destruct c; cbn [LatinHypercube.base LatinHypercube.centered].
  - destruct (integers 1 (Z.of_nat n) (n * QMCEngine.d b)
                (QMCEngine.get_rng b)) as [[err|q] g]; [discriminate|].
    destruct (div_int 1 n); [discriminate|].
    intros E. inversion E.
    cbn [LatinHypercube.base QMCEngine.advance QMCEngine.num_generated].
    now rewrite set_rng_cursor.
  - destruct (rs_random (n * QMCEngine.d b) (QMCEngine.get_rng b))
      as [r g1].
    cbn [LatinHypercube.base LatinHypercube.centered].
    destruct (integers 1 (Z.of_nat n) (n * QMCEngine.d b)
                (QMCEngine.get_rng (QMCEngine.set_rng g1 b)))
      as [[err|q] g]; [discriminate|].
    destruct (div_int 1 n); [discriminate|].
    intros E. inversion E.
    cbn [LatinHypercube.base QMCEngine.advance QMCEngine.num_generated].
    now rewrite !set_rng_cursor.
Qed.

(** C6 on the derived samplers.  [MultivariateNormalQMC.random(n)] (here
    on the default engine, Sobol') returns, moves the cursor of the engine
    it draws from by [n], and leaves its own [num_generated] as it was;
    a [MultinomialQMC] has no [num_generated]: reading it, and
    [fast_forward], raise [AttributeError]. *)
Theorem derived_samplers_do_not_advance (n : nat) :
  (forall e : MultivariateNormalQMC.t G (Sobol.t G),
      exists r e',
        MultivariateNormalQMC.random n e = Some (r, e')
        /\ QMCEngine.num_generated (MultivariateNormalQMC.base e')
           = QMCEngine.num_generated (MultivariateNormalQMC.base e)
        /\ QMCEngine.num_generated
             (Sobol.base (MultivariateNormalQMC.engine e'))
           = (QMCEngine.num_generated
                (Sobol.base (MultivariateNormalQMC.engine e))
              + Z.of_nat n)%Z)
  /\ (forall e : MultinomialQMC.t (Sobol.t G),
         MultinomialQMC.num_generated e = inl AttributeError
         /\ MultinomialQMC.fast_forward n e = (inl AttributeError, e)
         /\ exists r e',
              MultinomialQMC.random n e = Some (r, e')
              /\ MultinomialQMC.num_generated e' = inl AttributeError).
Proof.
  split.
  - intros e.
    unfold MultivariateNormalQMC.random,
      MultivariateNormalQMC._standard_normal_samples.
    cbn [engine_random Sobol_Engine].
    destruct (sobol_random_cursor n (MultivariateNormalQMC.engine e))
      as (a & e1 & Er & Ec).
    rewrite Er.
    match goal with
    | |- context [match ?x with inl _ => _ | inr _ => _ end] => destruct x
    end; do 2 eexists; (split; [reflexivity|]);
      (split; [reflexivity|exact Ec]).
  - intros e. split; [reflexivity|]. split; [reflexivity|].
    unfold MultinomialQMC.random. cbn [engine_random Sobol_Engine].
    destruct (sobol_random_cursor n (MultinomialQMC.engine e))
      as (a & e1 & Er & Ec).
    rewrite Er. do 2 eexists. split; reflexivity.
Qed.

End CursorFacts.

(** * Further properties *)

(** ** Broadcasting *)

Section ScaleFacts.

Import Scale.

Lemma broadcast_same (op : Q -> Q -> Q) (a : array2) (v : list Q) :
  ncols a = length v ->
  broadcast op a v
  = inr (mk_array2 (ncols a) (map (fun r => map2 op r v) (rows a))).
Proof.
  intros E. unfold broadcast. now rewrite E, Nat.eqb_refl.
Qed.

Lemma Forall2_length_Q {A B : Type} (R : A -> B -> Prop) (l : list A)
  (m : list B) : Forall2 R l m -> length l = length m.
Proof.
  induction 1; simpl; congruence.
Qed.

Lemma length_map2_same {A B C : Type} (f : A -> B -> C) (l : list A)
  (m : list B) : length l = length m -> length (map2 f l m) = length l.
Proof.
  revert m. induction l as [|a l IH]; intros [|b m] E; simpl in *;
    try congruence.
  now rewrite IH by congruence.
Qed.

End ScaleFacts.

(** ** The bounds of [scale] are read through their minimum and maximum *)

Section Reductions.

Variable pick : Q -> Q -> Q.
Variable R : Q -> Q -> Prop.
Hypothesis R_trans : forall a b c, R a b -> R b c -> R a c.
Hypothesis R_eq : forall a b, a == b -> R a b.
Hypothesis R_antisym : forall a b, R a b -> R b a -> a == b.
Hypothesis pick_l : forall a b, R (pick a b) a.
Hypothesis pick_r : forall a b, R (pick a b) b.
Hypothesis pick_one : forall a b, pick a b == a \/ pick a b == b.

Lemma fold_pick_init (l : list Q) (x : Q) : R (fold_left pick l x) x.
Proof.
  revert x. induction l as [|z l IH]; intros x; simpl.
  - apply R_eq. reflexivity.
  - apply R_trans with (pick x z); [apply IH|apply pick_l].
Qed.

Lemma fold_pick_bound (l : list Q) (x y : Q) :
  In y (x :: l) -> R (fold_left pick l x) y.
Proof.
  revert x. induction l as [|z l IH]; intros x Hy.
  - destruct Hy as [->|[]]. apply fold_pick_init.
  - destruct Hy as [->|[->|Hy]].
    + apply fold_pick_init.
    + simpl. apply R_trans with (pick x y); [|apply pick_r].
      apply fold_pick_init.
    + simpl. apply IH. right. exact Hy.
Qed.

Lemma fold_pick_in (l : list Q) (x : Q) :
  exists y, In y (x :: l) /\ fold_left pick l x == y.
Proof.
  revert x. induction l as [|z l IH]; intros x; simpl.
  - exists x. split; [left; reflexivity|reflexivity].
  - destruct (IH (pick x z)) as (y & [Ey|Hy] & E).
    + subst y. destruct (pick_one x z) as [P|P].
      * exists x. split; [left; reflexivity|]. now rewrite E.
      * exists z. split; [right; left; reflexivity|]. now rewrite E.
    + exists y. split; [right; right; exact Hy|exact E].
Qed.

Lemma fold_pick_permutation (l l' : list Q) (x x' : Q) :
  Permutation (x :: l) (x' :: l') ->
  fold_left pick l x == fold_left pick l' x'.
Proof.
  intros P.
  destruct (fold_pick_in l x) as (y & Hy & E).
  destruct (fold_pick_in l' x') as (y' & Hy' & E').
  apply R_antisym.
  - apply R_trans with y'.
    + apply fold_pick_bound.
      apply (Permutation_in _ (Permutation_sym P)). exact Hy'.
    + apply R_eq. symmetry. exact E'.
  - apply R_trans with y.
    + apply fold_pick_bound. apply (Permutation_in _ P). exact Hy.
    + apply R_eq. symmetry. exact E.
Qed.

Lemma reduce_axis0_permutation (a b : array2) :
  ncols a = ncols b ->
  Permutation (rows a) (rows b) ->
  match Scale.reduce_axis0 pick a, Scale.reduce_axis0 pick b with
  | inr v, inr w => Forall2 Qeq v w
  | inl e, inl e' => e = e'
  | _, _ => False
  end.
Proof.
  intros Hd P. unfold Scale.reduce_axis0. rewrite Hd.
  destruct (rows a) as [|r rs], (rows b) as [|r' rs'].
  - reflexivity.
  - now apply Permutation_nil in P.
  - now apply Permutation_sym, Permutation_nil in P.
  - cbn [ok]. generalize (seq 0 (ncols b)) as js.
    induction js as [|j js IH]; simpl; constructor; [|exact IH].
    apply fold_pick_permutation.
    apply (Permutation_map (fun r => nth j r 0)) in P. exact P.
Qed.

End Reductions.

Lemma reduce_min_permutation (a b : array2) :
  ncols a = ncols b ->
  Permutation (rows a) (rows b) ->
  match Scale.reduce_axis0 Qmin a, Scale.reduce_axis0 Qmin b with
  | inr v, inr w => Forall2 Qeq v w
  | inl e, inl e' => e = e'
  | _, _ => False
  end.
Proof.
  apply (reduce_axis0_permutation Qmin Qle).
  - intros a0 b0 c. apply Qle_trans.
  - intros a0 b0 E. rewrite E. apply Qle_refl.
  - intros a0 b0. apply Qle_antisym.
  - apply Q.le_min_l.
  - apply Q.le_min_r.
  - intros a0 b0. destruct (Q.min_dec a0 b0); auto.
Qed.

Lemma reduce_max_permutation (a b : array2) :
  ncols a = ncols b ->
  Permutation (rows a) (rows b) ->
  match Scale.reduce_axis0 Qmax a, Scale.reduce_axis0 Qmax b with
  | inr v, inr w => Forall2 Qeq v w
  | inl e, inl e' => e = e'
  | _, _ => False
  end.
Proof.
  apply (reduce_axis0_permutation Qmax (fun x y => y <= x)).
  - intros a0 b0 c H1 H2. apply Qle_trans with b0; assumption.
  - intros a0 b0 E. rewrite E. apply Qle_refl.
  - intros a0 b0 H1 H2. apply Qle_antisym; assumption.
  - apply Q.le_max_l.
  - apply Q.le_max_r.
  - intros a0 b0. destruct (Q.max_dec a0 b0); auto.
Qed.

(** Two arrays of the same shape whose entries are equal as rationals. *)
Definition array_eq (a b : array2) : Prop :=
  ncols a = ncols b /\ Forall2 (Forall2 Qeq) (rows a) (rows b).

(** Two outcomes: the same exception, or arrays with equal entries. *)
Definition outcome_eq (x y : result array2) : Prop :=
  match x, y with
  | inr a, inr b => array_eq a b
  | inl e, inl e' => e = e'
  | _, _ => False
  end.

Lemma Forall2_map_both {A B C D : Type} (P : A -> B -> Prop)
  (S : C -> D -> Prop) (f : A -> C) (g : B -> D) (l : list A) (m : list B) :
  Forall2 P l m -> (forall x y, P x y -> S (f x) (g y)) ->
  Forall2 S (map f l) (map g m).
Proof.
  intros H Hfg. induction H; simpl; constructor; auto.
Qed.

Lemma Forall2_map2_Qeq (op : Q -> Q -> Q) (r r' v v' : list Q) :
  Proper (Qeq ==> Qeq ==> Qeq) op ->
  Forall2 Qeq r r' -> Forall2 Qeq v v' ->
  Forall2 Qeq (map2 op r v) (map2 op r' v').
Proof.
  intros Hop Hr. revert v v'.
  induction Hr as [|x x' r r' Hx _ IH]; intros v v' Hv; simpl.
  - constructor.
  - destruct Hv as [|y y' v v' Hy Hv]; constructor.
    + now apply Hop.
    + now apply IH.
Qed.

Lemma Forall2_Qeq_refl (l : list Q) : Forall2 Qeq l l.
Proof.
  induction l; constructor; [reflexivity|assumption].
Qed.

Lemma Forall2_rows_refl (l : list (list Q)) : Forall2 (Forall2 Qeq) l l.
Proof.
  induction l; constructor; [apply Forall2_Qeq_refl|assumption].
Qed.

Lemma Forall2_Qeq_nth (l l' : list Q) (i : nat) :
  Forall2 Qeq l l' -> nth i l 0 == nth i l' 0.
Proof.
  intros H. revert i. induction H as [|x y l l' Hxy _ IH]; intros [|i]; simpl;
    try reflexivity; auto.
Qed.

Lemma broadcast_proper (op : Q -> Q -> Q) (a a' : array2) (v v' : list Q) :
  Proper (Qeq ==> Qeq ==> Qeq) op ->
  array_eq a a' -> Forall2 Qeq v v' ->
  outcome_eq (broadcast op a v) (broadcast op a' v').
Proof.
  intros Hop [Hd Hr] Hv.
  pose proof (Forall2_length_Q _ _ _ Hv) as Lv.
  unfold broadcast. rewrite <- Hd, <- Lv.
  destruct (ncols a =? length v)%nat;
    [|destruct (ncols a =? 1)%nat; [|destruct (length v =? 1)%nat]];
    cbn [outcome_eq ok raise]; try reflexivity;
    (split; [cbn [ncols]; congruence|]); cbn [rows].
  - apply (Forall2_map_both _ _ _ _ _ _ Hr).
    intros r r' Hrr. now apply Forall2_map2_Qeq.
  - apply (Forall2_map_both _ _ _ _ _ _ Hr).
    intros r r' Hrr.
    apply (Forall2_map_both _ _ _ _ _ _ Hv).
    intros y y' Hy. apply Hop; [apply Forall2_Qeq_nth, Hrr|exact Hy].
  - apply (Forall2_map_both _ _ _ _ _ _ Hr).
    intros r r' Hrr.
    apply (Forall2_map_both _ _ _ _ _ _ Hrr).
    intros y y' Hy. apply Hop; [exact Hy|apply Forall2_Qeq_nth, Hv].
Qed.

(** X2: [scale] reads [bounds] through its columnwise minimum and maximum
    only: two arrays of bounds with the same rows, in any order, give the
    same outcome, the same exception or samples with equal entries.  (The
    row of the lower bounds need not come first.) *)
Theorem scale_bounds_any_order (sample b1 b2 : array2) (reverse : bool) :
  ncols b1 = ncols b2 ->
  Permutation (rows b1) (rows b2) ->
  outcome_eq (Scale.scale sample b1 reverse) (Scale.scale sample b2 reverse).
Proof.
  intros Hd P. unfold Scale.scale.
  pose proof (reduce_min_permutation b1 b2 Hd P) as Hmin.
  pose proof (reduce_max_permutation b1 b2 Hd P) as Hmax.
  destruct (Scale.reduce_axis0 Qmin b1) as [e1|lo1],
           (Scale.reduce_axis0 Qmin b2) as [e2|lo2];
    try contradiction; [exact Hmin|].
  destruct (Scale.reduce_axis0 Qmax b1) as [e1|hi1],
           (Scale.reduce_axis0 Qmax b2) as [e2|hi2];
    try contradiction; [exact Hmax|].
  cbn [rbind].
  assert (Hw : Forall2 Qeq (map2 Qminus hi1 lo1) (map2 Qminus hi2 lo2)).
  { apply Forall2_map2_Qeq; [|assumption|assumption].
    intros x x' Hx y y' Hy. now rewrite Hx, Hy. }
  assert (Hs : array_eq sample sample).
  { split; [reflexivity|apply Forall2_rows_refl]. }
  destruct reverse; cbn [negb].
  - pose proof (broadcast_proper Qminus sample sample lo1 lo2
                  ltac:(intros x x' Hx y y' Hy; now rewrite Hx, Hy) Hs Hmin)
      as H1.
    destruct (broadcast Qminus sample lo1) as [e1|t1],
             (broadcast Qminus sample lo2) as [e2|t2];
      try contradiction; [exact H1|].
    cbn [rbind]. apply broadcast_proper; try assumption.
    intros x x' Hx y y' Hy. now rewrite Hx, Hy.
  - pose proof (broadcast_proper Qmult sample sample _ _
                  ltac:(intros x x' Hx y y' Hy; now rewrite Hx, Hy) Hs Hw)
      as H1.
    destruct (broadcast Qmult sample (map2 Qminus hi1 lo1)) as [e1|t1],
             (broadcast Qmult sample (map2 Qminus hi2 lo2)) as [e2|t2];
      try contradiction; [exact H1|].
    cbn [rbind]. apply broadcast_proper; try assumption.
    intros x x' Hx y y' Hy. now rewrite Hx, Hy.
Qed.

Lemma scale_bounds_any_order_witness :
  outcome_eq
    (Scale.scale (mk_array2 2 [[1#2; 1#2]; [3#4; 1#4]])
       (mk_array2 2 [[-(2); 0]; [6; 5]]) false)
    (Scale.scale (mk_array2 2 [[1#2; 1#2]; [3#4; 1#4]])
       (mk_array2 2 [[6; 5]; [-(2); 0]]) false).
Proof.
  apply (scale_bounds_any_order (mk_array2 2 [[1#2; 1#2]; [3#4; 1#4]])
           (mk_array2 2 [[-(2); 0]; [6; 5]])
           (mk_array2 2 [[6; 5]; [-(2); 0]]) false).
  - reflexivity.
  - apply perm_swap.
Defined.

(** ** Powers that leave the doubles *)

Section Binary64Powers.

Local Open Scope Z_scope.

(** A lower and an upper bound of [a * 2 ^ s], with [a] cut to 64 bits. *)
Definition cut_lo (a s : Z) : Z * Z :=
  let t := Z.max 0 (Z.log2 a - 63) in (a / 2 ^ t, s + t).

Definition cut_hi (a s : Z) : Z * Z :=
  let t := Z.max 0 (Z.log2 a - 63) in (a / 2 ^ t + 1, s + t).

(** Bounds of [m ^ d], by squaring. *)
Fixpoint pow_lo (m : Z) (d : positive) : Z * Z :=
  match d with
  | xH => cut_lo m 0
  | xO d' => let (a, s) := pow_lo m d' in cut_lo (a * a) (2 * s)
  | xI d' => let (a, s) := pow_lo m d' in cut_lo (a * a * m) (2 * s)
  end.

Fixpoint pow_hi (m : Z) (d : positive) : Z * Z :=
  match d with
  | xH => cut_hi m 0
  | xO d' => let (a, s) := pow_hi m d' in cut_hi (a * a) (2 * s)
  | xI d' => let (a, s) := pow_hi m d' in cut_hi (a * a * m) (2 * s)
  end.

Lemma cut_lo_le (a s : Z) :
  0 <= a -> 0 <= s ->
  0 <= fst (cut_lo a s) /\ 0 <= snd (cut_lo a s)
  /\ fst (cut_lo a s) * 2 ^ snd (cut_lo a s) <= a * 2 ^ s.
Proof.
  intros Ha Hs. unfold cut_lo. cbn [fst snd].
  set (t := Z.max 0 (Z.log2 a - 63)).
  assert (Ht : 0 <= t) by lia.
  assert (Hp : 0 < 2 ^ t) by (apply Z.pow_pos_nonneg; lia).
  split; [apply Z.div_pos; lia|]. split; [lia|].
  rewrite (Z.add_comm s t), Z.pow_add_r by lia.
  rewrite Z.mul_assoc. apply Z.mul_le_mono_nonneg_r.
  - apply Z.pow_nonneg; lia.
  - rewrite Z.mul_comm. apply Z.mul_div_le. exact Hp.
Qed.

Lemma cut_hi_ge (a s : Z) :
  0 <= a -> 0 <= s ->
  0 <= fst (cut_hi a s) /\ 0 <= snd (cut_hi a s)
  /\ a * 2 ^ s <= fst (cut_hi a s) * 2 ^ snd (cut_hi a s).
Proof.
  intros Ha Hs. unfold cut_hi. cbn [fst snd].
  set (t := Z.max 0 (Z.log2 a - 63)).
  assert (Ht : 0 <= t) by lia.
  assert (Hp : 0 < 2 ^ t) by (apply Z.pow_pos_nonneg; lia).
  assert (Hq : 0 <= a / 2 ^ t) by (apply Z.div_pos; lia).
  split; [lia|]. split; [lia|].
  rewrite (Z.add_comm s t), Z.pow_add_r by lia.
  rewrite Z.mul_assoc. apply Z.mul_le_mono_nonneg_r.
  - apply Z.pow_nonneg; lia.
  - pose proof (Z.mul_succ_div_gt a (2 ^ t) Hp). lia.
Qed.

Lemma scaled_square (a s : Z) :
  0 <= s -> a * a * 2 ^ (2 * s) = (a * 2 ^ s) * (a * 2 ^ s).
Proof.
  intros Hs. replace (2 * s) with (s + s) by lia.
  rewrite Z.pow_add_r by lia. ring.
Qed.

Lemma pow_lo_le (m : Z) (d : positive) :
  0 <= m ->
  0 <= fst (pow_lo m d) /\ 0 <= snd (pow_lo m d)
  /\ fst (pow_lo m d) * 2 ^ snd (pow_lo m d) <= m ^ Z.pos d.
Proof.
  intros Hm. induction d as [d IH|d IH|]; cbn [pow_lo].
  - destruct (pow_lo m d) as [a s]. cbn [fst snd] in IH.
    destruct IH as (Ha & Hs & Hle).
    destruct (cut_lo_le (a * a * m) (2 * s) ltac:(nia) ltac:(lia))
      as (H1 & H2 & H3).
    split; [exact H1|]. split; [exact H2|].
    eapply Z.le_trans; [exact H3|].
    replace (Z.pos d~1) with (Z.pos d + Z.pos d + 1) by lia.
    rewrite !Z.pow_add_r, Z.pow_1_r by lia.
    replace (a * a * m * 2 ^ (2 * s)) with (a * a * 2 ^ (2 * s) * m) by ring.
    rewrite scaled_square by exact Hs.
    assert (0 <= a * 2 ^ s)
      by (apply Z.mul_nonneg_nonneg; [lia|apply Z.pow_nonneg; lia]).
    apply Z.mul_le_mono_nonneg_r; [exact Hm|].
    apply Z.mul_le_mono_nonneg; assumption.
  - destruct (pow_lo m d) as [a s]. cbn [fst snd] in IH.
    destruct IH as (Ha & Hs & Hle).
    destruct (cut_lo_le (a * a) (2 * s) ltac:(nia) ltac:(lia))
      as (H1 & H2 & H3).
    split; [exact H1|]. split; [exact H2|].
    eapply Z.le_trans; [exact H3|].
    replace (Z.pos d~0) with (Z.pos d + Z.pos d) by lia.
    rewrite !Z.pow_add_r by lia.
    rewrite scaled_square by exact Hs.
    assert (0 <= a * 2 ^ s)
      by (apply Z.mul_nonneg_nonneg; [lia|apply Z.pow_nonneg; lia]).
    apply Z.mul_le_mono_nonneg; assumption.
  - destruct (cut_lo_le m 0 Hm ltac:(lia)) as (H1 & H2 & H3).
    split; [exact H1|]. split; [exact H2|].
    rewrite Z.pow_1_r. rewrite Z.pow_0_r, Z.mul_1_r in H3. exact H3.
Qed.

Lemma pow_hi_ge (m : Z) (d : positive) :
  0 <= m ->
  0 <= fst (pow_hi m d) /\ 0 <= snd (pow_hi m d)
  /\ m ^ Z.pos d <= fst (pow_hi m d) * 2 ^ snd (pow_hi m d).
Proof.
  intros Hm. induction d as [d IH|d IH|]; cbn [pow_hi].
  - destruct (pow_hi m d) as [a s]. cbn [fst snd] in IH.
    destruct IH as (Ha & Hs & Hle).
    destruct (cut_hi_ge (a * a * m) (2 * s) ltac:(nia) ltac:(lia))
      as (H1 & H2 & H3).
    split; [exact H1|]. split; [exact H2|].
    eapply Z.le_trans; [|exact H3].
    replace (Z.pos d~1) with (Z.pos d + Z.pos d + 1) by lia.
    rewrite !Z.pow_add_r, Z.pow_1_r by lia.
    replace (a * a * m * 2 ^ (2 * s)) with (a * a * 2 ^ (2 * s) * m) by ring.
    rewrite scaled_square by exact Hs.
    assert (0 <= m ^ Z.pos d) by (apply Z.pow_nonneg; lia).
    apply Z.mul_le_mono_nonneg_r; [exact Hm|].
    apply Z.mul_le_mono_nonneg; assumption.
  - destruct (pow_hi m d) as [a s]. cbn [fst snd] in IH.
    destruct IH as (Ha & Hs & Hle).
    destruct (cut_hi_ge (a * a) (2 * s) ltac:(nia) ltac:(lia))
      as (H1 & H2 & H3).
    split; [exact H1|]. split; [exact H2|].
    eapply Z.le_trans; [|exact H3].
    replace (Z.pos d~0) with (Z.pos d + Z.pos d) by lia.
    rewrite !Z.pow_add_r by lia.
    rewrite scaled_square by exact Hs.
    assert (0 <= m ^ Z.pos d) by (apply Z.pow_nonneg; lia).
    apply Z.mul_le_mono_nonneg; assumption.
  - destruct (cut_hi_ge m 0 Hm ltac:(lia)) as (H1 & H2 & H3).
    split; [exact H1|]. split; [exact H2|].
    rewrite Z.pow_1_r. rewrite Z.pow_0_r, Z.mul_1_r in H3. exact H3.
Qed.

(** [m ^ d >= t * 2 ^ (k * d)], and [m ^ d < t * 2 ^ (k * d)], decided on
    the bounds. *)
Definition reaches (m k t : Z) (d : positive) : bool :=
  let (a, s) := pow_lo m d in
  (k * Z.pos d <=? s) && (t <=? a * 2 ^ (s - k * Z.pos d)).

Definition stays_below (m k t : Z) (d : positive) : bool :=
  let (a, s) := pow_hi m d in
  (k * Z.pos d <=? s) && (a * 2 ^ (s - k * Z.pos d) <? t).

Lemma reaches_ok (m k t : Z) (d : positive) :
  0 <= m -> 0 <= k -> reaches m k t d = true ->
  t * 2 ^ (k * Z.pos d) <= m ^ Z.pos d.
Proof.
  intros Hm Hk. unfold reaches.
  destruct (pow_lo_le m d Hm) as (Ha & Hs & Hle).
  destruct (pow_lo m d) as [a s]. cbn [fst snd] in *.
  intros Hc. apply andb_prop in Hc. destruct Hc as [H1 H2].
  apply Z.leb_le in H1, H2.
  eapply Z.le_trans; [|exact Hle].
  assert (E : 2 ^ s = 2 ^ (s - k * Z.pos d) * 2 ^ (k * Z.pos d)).
  { rewrite <- Z.pow_add_r by lia. f_equal. lia. }
  rewrite E, Z.mul_assoc.
  apply Z.mul_le_mono_nonneg_r; [apply Z.pow_nonneg; lia|exact H2].
Qed.

Lemma stays_below_ok (m k t : Z) (d : positive) :
  0 <= m -> 0 <= k -> stays_below m k t d = true ->
  m ^ Z.pos d < t * 2 ^ (k * Z.pos d).
Proof.
  intros Hm Hk. unfold stays_below.
  destruct (pow_hi_ge m d Hm) as (Ha & Hs & Hle).
  destruct (pow_hi m d) as [a s]. cbn [fst snd] in *.
  intros Hc. apply andb_prop in Hc. destruct Hc as [H1 H2].
  apply Z.leb_le in H1. apply Z.ltb_lt in H2.
  eapply Z.le_lt_trans; [exact Hle|].
  assert (E : 2 ^ s = 2 ^ (s - k * Z.pos d) * 2 ^ (k * Z.pos d)).
  { rewrite <- Z.pow_add_r by lia. f_equal. lia. }
  rewrite E, Z.mul_assoc.
  apply Z.mul_lt_mono_pos_r; [apply Z.pow_pos_nonneg; lia|exact H2].
Qed.

(** Past the first power that reaches the bound, every power does. *)
Lemma reach_onwards (m k t d0 d : Z) :
  0 <= k -> 2 ^ k <= m -> 0 <= t -> 0 <= d0 <= d ->
  t * 2 ^ (k * d0) <= m ^ d0 -> t * 2 ^ (k * d) <= m ^ d.
Proof.
  intros Hk Hm Ht Hd H0.
  replace d with (d0 + (d - d0)) by lia.
  rewrite Z.mul_add_distr_l, !Z.pow_add_r by nia.
  rewrite Z.mul_assoc.
  assert (Hp : 0 < 2 ^ k) by (apply Z.pow_pos_nonneg; lia).
  apply Z.mul_le_mono_nonneg.
  - apply Z.mul_nonneg_nonneg; [exact Ht|apply Z.pow_nonneg; lia].
  - exact H0.
  - apply Z.pow_nonneg; lia.
  - rewrite Z.pow_mul_r by lia. apply Z.pow_le_mono_l. lia.
Qed.

Lemma of_int_returns (z : Z) :
  Z.abs z < Binary64.too_large -> exists x, Binary64.of_int z = inr x.
Proof.
  intros Hz. unfold Binary64.of_int.
  destruct (Z.leb_spec Binary64.too_large (Z.abs z)); [lia|].
  eexists. reflexivity.
Qed.

(** The powers of a double [x = m * 2 ^ (- k) >= 1] that are beyond the
    doubles: those from [d0] on, when [x ** d0] is and [x ** (d0 - 1)] is
    not. *)
Lemma float_pow_beyond (x : PrimFloat.float) (m d0 : positive) (k : Z) :
  FloatOps.Prim2SF x = SpecFloat.S754_finite false m (- k) ->
  0 <= k -> 2 ^ k <= Z.pos m ->
  reaches (Z.pos m) k Binary64.too_large (Pos.succ d0) = true ->
  stays_below (Z.pos m) k Binary64.too_large d0 = true ->
  forall d : nat,
    (Z.pos d0 < Z.of_nat d -> Binary64.float_pow x d = inl OverflowError)
    /\ (Z.of_nat d <= Z.pos d0 -> exists v, Binary64.float_pow x d = inr v).
Proof.
  intros Ex Hk Hm Hr Hs d.
  apply reaches_ok in Hr; [|lia|exact Hk].
  apply stays_below_ok in Hs; [|lia|exact Hk].
  assert (Ht : 0 < Binary64.too_large) by (vm_compute; reflexivity).
  destruct d as [|d']; [split; [lia|intros _; eexists; reflexivity]|].
  set (d := S d') in *.
  assert (Hd : 0 < Z.of_nat d) by lia.
  unfold Binary64.float_pow. fold d. rewrite Ex.
  set (t := Binary64.too_large) in *. clearbody t.
  assert (Hkd : 0 <= k * Z.of_nat d) by (apply Z.mul_nonneg_nonneg; lia).
  replace (- (- k * Z.of_nat d)) with (k * Z.of_nat d) by ring.
  replace (- k * Z.of_nat d) with (- (k * Z.of_nat d)) by ring.
  rewrite (Z.max_r 0 (k * Z.of_nat d)) by exact Hkd.
  rewrite (Z.max_l 0 (- (k * Z.of_nat d))) by lia.
  rewrite Z.pow_0_r, Z.mul_1_r.
  split.
  - intros Hlt.
    assert (H : t * 2 ^ (k * Z.of_nat d) <= Z.pos m ^ Z.of_nat d).
    { apply (reach_onwards (Z.pos m) k _ (Z.pos (Pos.succ d0)));
        first [lia|exact Hr]. }
    apply Z.leb_le in H. rewrite H. reflexivity.
  - intros Hle.
    destruct (Z.leb_spec (t * 2 ^ (k * Z.of_nat d)) (Z.pos m ^ Z.of_nat d))
      as [H|H]; [exfalso|eexists; reflexivity].
    assert (H' : t * 2 ^ (k * Z.pos d0) <= Z.pos m ^ Z.pos d0).
    { apply (reach_onwards (Z.pos m) k _ (Z.of_nat d));
        first [lia|exact H]. }
    lia.
Qed.

End Binary64Powers.

(** ** When [discrepancy] returns, on doubles *)

Section DiscrepancyEdges.

Import Discrepancy.
Import PrimFloat.

(** The number of columns from which [(13.0 / 12.0) ** d],
    [(4.0 / 3.0) ** d] and [(19.0 / 12.0) ** d] are beyond the doubles. *)
Definition overflow_from (m : method) : Z :=
  match m with
  | CD => 8868
  | WD => 2468
  | MD => 1545
  | Unknown => 0
  end.

Lemma prod_arr_loop_none (f : PrimFloat.float -> PrimFloat.float -> PrimFloat.float)
  (s : Binary64.array2) :
  Binary64.ncols s = O ->
  Binary64.arr_sum (Binary64.prod_arr_loop f s) = inl AttributeError.
Proof.
  intros E. unfold Binary64.prod_arr_loop. rewrite E. reflexivity.
Qed.

Lemma prod_arr_loop_some (f : PrimFloat.float -> PrimFloat.float -> PrimFloat.float)
  (s : Binary64.array2) :
  Binary64.ncols s <> O ->
  exists v, Binary64.arr_sum (Binary64.prod_arr_loop f s) = inr v.
Proof.
  intros Hd. unfold Binary64.prod_arr_loop.
  assert (H : forall l p,
             (l <> [] \/ exists m, p = Binary64.Matrix m) ->
             exists m,
               fold_left (fun p i =>
                            Binary64.imul p
                              (Binary64.outer f
                                 (Binary64.column i (Binary64.rows s))))
                 l p = Binary64.Matrix m).
  { induction l as [|i l IH]; intros p [Hl|[m Em]]; cbn [fold_left].
    - congruence.
    - now exists m.
    - apply IH. right. destruct p; eexists; reflexivity.
    - apply IH. right. subst p. eexists; reflexivity. }
  destruct (H (seq 0 (Binary64.ncols s)) (Binary64.Scalar 1%float)) as [m Em].
  { left. destruct (Binary64.ncols s); [congruence|discriminate]. }
  rewrite Em. eexists. reflexivity.
Qed.

Lemma float_pow_constants (m : method) (d : nat) :
  m <> Unknown ->
  let x := match m with
           | CD => (13 / 12)%float
           | WD => (4 / 3)%float
           | _ => (19 / 12)%float
           end in
  ((overflow_from m <= Z.of_nat d)%Z ->
   Binary64.float_pow x d = inl OverflowError)
  /\ ((Z.of_nat d < overflow_from m)%Z ->
      exists v, Binary64.float_pow x d = inr v).
Proof.
  intros Hm x.
  destruct m; try congruence; subst x; cbn [overflow_from].
  - destruct (float_pow_beyond (13 / 12)%float 4878899596318037 8867 52
                ltac:(vm_compute; reflexivity) ltac:(lia)
                ltac:(vm_compute; discriminate)
                ltac:(vm_compute; reflexivity) ltac:(vm_compute; reflexivity) d)
      as [H1 H2].
    split; intros H; [apply H1|apply H2]; lia.
  - destruct (float_pow_beyond (4 / 3)%float 6004799503160661 2467 52
                ltac:(vm_compute; reflexivity) ltac:(lia)
                ltac:(vm_compute; discriminate)
                ltac:(vm_compute; reflexivity) ltac:(vm_compute; reflexivity) d)
      as [H1 H2].
    split; intros H; [apply H1|apply H2]; lia.
  - destruct (float_pow_beyond (19 / 12)%float 7130699410003285 1544 52
                ltac:(vm_compute; reflexivity) ltac:(lia)
                ltac:(vm_compute; discriminate)
                ltac:(vm_compute; reflexivity) ltac:(vm_compute; reflexivity) d)
      as [H1 H2].
    split; intros H; [apply H1|apply H2]; lia.
Qed.

Lemma div_int_outcome (c : float) (n : Z) :
  (0 <= n < Binary64.too_large)%Z ->
  (n = 0%Z -> Binary64.div_int c n = inl ZeroDivisionError)
  /\ (n <> 0%Z -> exists v, Binary64.div_int c n = inr v).
Proof.
  intros Hn. unfold Binary64.div_int.
  destruct (of_int_returns n ltac:(lia)) as [x Ex]. rewrite Ex.
  cbn [rbind]. split.
  - intros ->. reflexivity.
  - intros Hz. destruct (Z.eqb_spec n 0); [congruence|].
    eexists. reflexivity.
Qed.

Lemma counts_convert (n : Z) :
  (0 <= n <= 2 ^ 62)%Z ->
  (0 <= n < Binary64.too_large)%Z /\ (0 <= n * n < Binary64.too_large)%Z.
Proof.
  intros Hn.
  assert (H1 : (2 ^ 62 * 2 ^ 62 < Binary64.too_large)%Z)
    by (vm_compute; reflexivity).
  assert (H2 : (2 ^ 62 <= 2 ^ 62 * 2 ^ 62)%Z) by (vm_compute; discriminate).
  assert (H3 : (n * n <= 2 ^ 62 * 2 ^ 62)%Z)
    by (apply Z.mul_le_mono_nonneg; lia).
  assert (H4 : (0 <= n * n)%Z) by (apply Z.mul_nonneg_nonneg; lia).
  lia.
Qed.

(** X6: when [discrepancy] returns and when it raises, on doubles, for the
    methods ['CD'], ['WD'] and ['MD'] and a sample of shape [(n, d)] (with
    [iterative], [n] is one more).  Without a column, [prod_arr] is still
    the integer [1] after the loop and [prod_arr.sum()] raises
    [AttributeError].  From [d = 8868] columns on for ['CD'] ([2468] for
    ['WD'], [1545] for ['MD']) the power [(13.0 / 12.0) ** d] is beyond
    the doubles and raises [OverflowError].  Below that, the division by
    [n = 0] raises [ZeroDivisionError]; in ['WD'] it comes before
    [prod_arr.sum()].  In every other case a double is returned. *)
Theorem discrepancy_outcome (s : Binary64.array2) (iterative : bool)
  (m : method) :
  m <> Unknown ->
  (Z.of_nat (Binary64.nrows s) < 2 ^ 62)%Z ->
  let d := Z.of_nat (Binary64.ncols s) in
  let no_point := (Binary64.nrows s =? 0)%nat && negb iterative in
  (d = 0%Z -> m <> WD \/ no_point = false ->
   Binary64.discrepancy s iterative m = inl AttributeError)
  /\ ((overflow_from m <= d)%Z ->
      Binary64.discrepancy s iterative m = inl OverflowError)
  /\ ((d < overflow_from m)%Z -> no_point = true ->
      (0 < d)%Z \/ m = WD ->
      Binary64.discrepancy s iterative m = inl ZeroDivisionError)
  /\ ((0 < d < overflow_from m)%Z -> no_point = false ->
      exists v, Binary64.discrepancy s iterative m = inr v).
Proof.
  intros Hm Hrows d no_point.
  unfold Binary64.discrepancy.
  set (n := Z.of_nat (if iterative then S (Binary64.nrows s)
                      else Binary64.nrows s)).
  assert (Hn : (0 <= n <= 2 ^ 62)%Z) by (subst n; destruct iterative; lia).
  destruct (counts_convert n Hn) as [Hc1 Hc2].
  assert (Hz : no_point = true <-> n = 0%Z).
  { subst no_point n. destruct iterative; cbn [negb].
    - rewrite andb_false_r. split; [discriminate|lia].
    - rewrite andb_true_r. rewrite Nat.eqb_eq. lia. }
  assert (Hnz : no_point = false <-> n <> 0%Z).
  { rewrite <- Hz. destruct no_point; split; congruence. }
  assert (Hsq : n = 0%Z <-> (n * n = 0)%Z) by nia.
  pose proof (float_pow_constants m (Binary64.ncols s) Hm) as Hpow.
  cbv zeta in Hpow. fold d in Hpow. destruct Hpow as [Hover Hfits].
  assert (Hcols : d = 0%Z <-> Binary64.ncols s = O) by (subst d; lia).
  assert (Hlim : (0 < overflow_from m)%Z)
    by (destruct m; try congruence; reflexivity).
  destruct (div_int_outcome 2 n Hc1) as [D1z D1].
  destruct (div_int_outcome 1 (n * n) Hc2) as [D2z D2].
  repeat split.
  - (* no column *)
    intros Hd Hcase. apply Hcols in Hd.
    destruct m; try congruence.
    + rewrite prod_arr_loop_none by exact Hd. reflexivity.
    + destruct Hcase as [Hw|Hp]; [congruence|].
      rewrite Hd. cbn [Binary64.float_pow rbind ok].
      destruct (D2 ltac:(apply Hnz in Hp; nia)) as [c2 E2]. rewrite E2.
      cbn [rbind]. rewrite prod_arr_loop_none by exact Hd. reflexivity.
    + rewrite prod_arr_loop_none by exact Hd. reflexivity.
  - (* the power is too large *)
    intros Hd. specialize (Hover Hd).
    assert (Hd' : Binary64.ncols s <> O) by lia.
    destruct m; try congruence.
    + destruct (prod_arr_loop_some Binary64.cd_kernel s Hd') as [v Ev].
      rewrite Ev. cbn [rbind]. rewrite Hover. reflexivity.
    + rewrite Hover. reflexivity.
    + destruct (prod_arr_loop_some Binary64.md_kernel s Hd') as [v Ev].
      rewrite Ev. cbn [rbind]. rewrite Hover. reflexivity.
  - (* no point *)
    intros Hd Hp Hcase. apply Hz in Hp.
    destruct (Hfits Hd) as [p Ep].
    destruct m; try congruence.
    + destruct Hcase as [Hpos|Hw]; [|discriminate].
      destruct (prod_arr_loop_some Binary64.cd_kernel s ltac:(lia))
        as [v Ev].
      rewrite Ev. cbn [rbind]. rewrite Ep. cbn [rbind].
      rewrite (D1z Hp). reflexivity.
    + rewrite Ep. cbn [rbind]. rewrite D2z by nia. reflexivity.
    + destruct Hcase as [Hpos|Hw]; [|discriminate].
      destruct (prod_arr_loop_some Binary64.md_kernel s ltac:(lia))
        as [v Ev].
      rewrite Ev. cbn [rbind]. rewrite Ep. cbn [rbind].
      rewrite (D1z Hp). reflexivity.
  - (* a value *)
    intros [Hpos Hd] Hp. apply Hnz in Hp.
    destruct (Hfits Hd) as [p Ep].
    destruct (D1 Hp) as [c1 E1].
    destruct (D2 ltac:(nia)) as [c2 E2].
    destruct m; try congruence.
    + destruct (prod_arr_loop_some Binary64.cd_kernel s ltac:(lia))
        as [v Ev].
      rewrite Ev. cbn [rbind]. rewrite Ep. cbn [rbind].
      rewrite E1. cbn [rbind]. rewrite E2. cbn [rbind]. eexists. reflexivity.
    + destruct (prod_arr_loop_some Binary64.wd_kernel s ltac:(lia))
        as [v Ev].
      rewrite Ep. cbn [rbind]. rewrite E2. cbn [rbind]. rewrite Ev.
      cbn [rbind]. eexists. reflexivity.
    + destruct (prod_arr_loop_some Binary64.md_kernel s ltac:(lia))
        as [v Ev].
      rewrite Ev. cbn [rbind]. rewrite Ep. cbn [rbind].
      rewrite E1. cbn [rbind]. rewrite E2. cbn [rbind]. eexists. reflexivity.
Qed.

Lemma discrepancy_outcome_witness :
  let s := Binary64.mk_array2 2 [[1 / 12; 5 / 12]; [3 / 12; 11 / 12]]%float in
  (Z.of_nat (Binary64.nrows s) < 2 ^ 62)%Z
  /\ exists v, Binary64.discrepancy s false CD = inr v.
Proof.
  intros s.
  assert (Hr : (Z.of_nat (Binary64.nrows s) < 2 ^ 62)%Z) by reflexivity.
  split; [exact Hr|].
  apply (discrepancy_outcome s false CD ltac:(discriminate) Hr);
    [split|]; reflexivity.
Defined.

End DiscrepancyEdges.


(** ** Van der Corput: the bases below two *)

Section VanDerCorputBases.
Context {G : Type} `{RandomSource G}.

Lemma step_base_one (scramble : bool) (rng : G) (quotient sequence : list Q) :
  exists rng' quotient' sequence',
    VanDerCorput.step 1 scramble rng 1 quotient sequence
    = (rng', 1, quotient', sequence').
Proof.
  unfold VanDerCorput.step.
  destruct scramble; [destruct (rs_permutation 1 rng) as [perm rng']|];
    do 3 eexists; reflexivity.
Qed.

Lemma loop_base_one (fuel : nat) (scramble : bool) (rng : G)
  (quotient sequence : list Q) :
  VanDerCorput.loop fuel 1 scramble rng 1 quotient sequence = None.
Proof.
  revert rng quotient sequence.
  induction fuel as [|fuel IH]; intros rng quotient sequence.
  - reflexivity.
  - cbn [VanDerCorput.loop].
    change (VanDerCorput.one_minus_lt_one 1) with true. cbv iota.
    destruct (step_base_one scramble rng quotient sequence)
      as (rng' & quotient' & sequence' & E).
    rewrite E. apply IH.
Qed.

Lemma negative_base_ends (base : Z) :
  (base < 0)%Z -> VanDerCorput.one_minus_lt_one (1 / inject_Z base) = false.
Proof.
  intros Hb. unfold VanDerCorput.one_minus_lt_one.
  apply negb_false_iff, Qle_bool_iff.
  apply Qle_trans with 0; [|discriminate].
  destruct base as [|p|p]; try lia.
  unfold Qle. simpl. lia.
Qed.

(** X7: the bases below two.  With [base=0] the division [1 / base]
    raises [ZeroDivisionError].  With [base=1] the loop never ends: [b2r]
    stays [1], whatever number of rounds is allowed.  With a negative base
    the loop is not entered: the result is [n] zeros, and the generator is
    not used, also with [scramble=True]. *)
Theorem van_der_corput_bases_below_two (n : nat) (start : Z) (scramble : bool)
  (rng : G) :
  VanDerCorput.van_der_corput n 0 start scramble rng
  = Some (inl ZeroDivisionError, rng)
  /\ (forall fuel,
         VanDerCorput.loop fuel 1 scramble rng (1 / inject_Z 1)
           (VanDerCorput.arange start n) (repeat 0 n) = None)
  /\ VanDerCorput.van_der_corput n 1 start scramble rng = None
  /\ (forall base, (base < 0)%Z ->
         VanDerCorput.van_der_corput n base start scramble rng
         = Some (inr (repeat 0 n), rng)).
Proof.
  split; [reflexivity|].
  split; [intros fuel; apply loop_base_one|].
  split.
  - unfold VanDerCorput.van_der_corput. cbn [Z.eqb].
    change (1 / inject_Z 1) with 1. now rewrite loop_base_one.
  - intros base Hb. unfold VanDerCorput.van_der_corput.
    destruct (Z.eqb_spec base 0) as [E|_]; [lia|].
    cbn [VanDerCorput.loop]. now rewrite (negative_base_ends base Hb).
Qed.

End VanDerCorputBases.

Lemma van_der_corput_bases_below_two_witness :
  VanDerCorput.van_der_corput (G := nat) 3 (-2) 0 true 0%nat
  = Some (inr (repeat 0 3), 0%nat).
Proof.
  refine (proj2 (proj2 (proj2
            (van_der_corput_bases_below_two (G := nat) 3 0 true 0%nat)))
            (-2)%Z _).
  reflexivity.
Defined.

(** ** Halton: consecutive draws and replay *)

Section HaltonSamples.
Context {G : Type} `{RandomSource G}.

Lemma more_primes_length (fuel n big : nat) (primes : list Z) :
  more_primes fuel n big = Some primes -> length primes = n.
Proof.
  revert big. induction fuel as [|fuel IH]; intros big; simpl;
    [discriminate|].
  destruct (Nat.eqb_spec (length (firstn n (primes_from_2_to big))) n)
    as [E|_].
  - intros E'. inversion E'. subst. exact E.
  - apply IH.
Qed.

Lemma n_primes_length (n : nat) (primes : list Z) :
  n_primes n = Some primes -> length primes = n.
Proof.
  unfold n_primes.
  destruct (Nat.ltb_spec (length (firstn n first_primes)) n) as [Hlt|Hge].
  - apply more_primes_length.
  - intros E. inversion E. subst.
    pose proof (firstn_le_length n first_primes). lia.
Qed.

End HaltonSamples.

Section HaltonDraws.
Context {G : Type} `{RandomSource G}.

Lemma map2_firstn {A B C : Type} (f : A -> B -> C) (n : nat) (l : list A)
  (m : list B) :
  firstn n (map2 f l m) = map2 f (firstn n l) (firstn n m).
Proof.
  revert l m. induction n as [|n IH]; intros l m.
  - reflexivity.
  - destruct l as [|a l]; [reflexivity|].
    destruct m as [|b m]; [reflexivity|].
    simpl. now rewrite IH.
Qed.

Lemma step_firstn (n : nat) (base : Z) (scramble : bool) (rng : G) (b2r : Q)
  (quotient sequence : list Q) :
  VanDerCorput.step base scramble rng b2r (firstn n quotient)
    (firstn n sequence)
  = let '(rng', b2r', quotient', sequence') :=
      VanDerCorput.step base scramble rng b2r quotient sequence in
    (rng', b2r', firstn n quotient', firstn n sequence').
Proof.
  unfold VanDerCorput.step, VanDerCorput.take.
  destruct scramble.
  - destruct (rs_permutation base rng) as [perm rng'].
    rewrite !map2_firstn, !firstn_map. reflexivity.
  - rewrite !map2_firstn, !firstn_map. reflexivity.
Qed.

Lemma loop_firstn (n fuel : nat) (base : Z) (scramble : bool) (rng : G)
  (b2r : Q) (quotient sequence : list Q) :
  VanDerCorput.loop fuel base scramble rng b2r (firstn n quotient)
    (firstn n sequence)
  = match VanDerCorput.loop fuel base scramble rng b2r quotient sequence with
    | Some (s, g) => Some (firstn n s, g)
    | None => None
    end.
Proof.
  revert rng b2r quotient sequence.
  induction fuel as [|fuel IH]; intros rng b2r quotient sequence; simpl.
  - now destruct (VanDerCorput.one_minus_lt_one b2r).
  - destruct (VanDerCorput.one_minus_lt_one b2r); [|reflexivity].
    rewrite step_firstn.
    destruct (VanDerCorput.step base scramble rng b2r quotient sequence)
      as [[[rng' b2r'] quotient'] sequence'].
    apply IH.
Qed.

Lemma firstn_seq_add (s n m : nat) : firstn n (seq s (n + m)) = seq s n.
Proof.
  revert s. induction n as [|n IH]; intros s; simpl;
    [reflexivity|now rewrite IH].
Qed.

Lemma arange_firstn (start : Z) (n m : nat) :
  firstn n (VanDerCorput.arange start (n + m)) = VanDerCorput.arange start n.
Proof.
  unfold VanDerCorput.arange.
  now rewrite firstn_map, firstn_seq_add.
Qed.

Lemma repeat_firstn {A : Type} (x : A) (n m : nat) :
  firstn n (repeat x (n + m)) = repeat x n.
Proof.
  induction n as [|n IH]; simpl; [reflexivity|now rewrite IH].
Qed.

Lemma van_der_corput_firstn (n m : nat) (base start : Z) (scramble : bool)
  (rng : G) :
  VanDerCorput.van_der_corput n base start scramble rng
  = match VanDerCorput.van_der_corput (n + m) base start scramble rng with
    | Some (inr s, g) => Some (inr (firstn n s), g)
    | other => other
    end.
Proof.
  unfold VanDerCorput.van_der_corput.
  destruct (base =? 0)%Z; [reflexivity|].
  rewrite <- (arange_firstn start n m), <- (repeat_firstn 0 n m), loop_firstn.
  destruct (VanDerCorput.loop 64 base scramble rng (1 / inject_Z base)
              (VanDerCorput.arange start (n + m)) (repeat 0 (n + m)))
    as [[s g]|]; reflexivity.
Qed.

Lemma sequences_firstn (n m : nat) (start : Z) (scramble : bool)
  (seed : seed_t G) (bases : list Z) :
  Halton.sequences n start scramble seed bases
  = match Halton.sequences (n + m) start scramble seed bases with
    | Some (inr cols) => Some (inr (map (firstn n) cols))
    | other => other
    end.
Proof.
  induction bases as [|b bases IH]; simpl.
  - reflexivity.
  - rewrite (van_der_corput_firstn n m), IH.
    destruct (VanDerCorput.van_der_corput (n + m) b start scramble
                (check_random_state seed)) as [[[err|col] g]|];
      try reflexivity.
    destruct (Halton.sequences (n + m) start scramble seed bases)
      as [[err|cols]|]; reflexivity.
Qed.

Lemma nth_firstn_lt {A : Type} (i n : nat) (l : list A) (x : A) :
  (i < n)%nat -> nth i (firstn n l) x = nth i l x.
Proof.
  revert i l. induction n as [|n IH]; intros i l Hi; [lia|].
  destruct l as [|a l]; [now destruct i|].
  destruct i as [|i]; [reflexivity|]. simpl. apply IH. lia.
Qed.

Lemma transpose_firstn (n m : nat) (cols : list (list Q)) :
  transpose n (map (firstn n) cols) = firstn n (transpose (n + m) cols).
Proof.
  unfold transpose.
  rewrite firstn_map, firstn_seq_add.
  apply map_ext_in. intros i Hi. apply in_seq in Hi.
  rewrite map_map. apply map_ext. intros c.
  apply nth_firstn_lt. lia.
Qed.

(** X10: consecutive draws of a Halton engine whose seed is an integer or
    a generator continue the sequence: the points of [random(n)] followed
    by the points of the next [random(m)] are the points of one
    [random(n + m)], scrambled or not, and the engine is left in the same
    state.  (With [seed=None] every call of [van_der_corput] takes fresh
    entropy; that seed is no [seed_t], and a scrambled engine built with
    it is not covered.) *)
Theorem halton_draws_concatenate (e : Halton.t G) (n m : nat) :
  Forall (fun b => (2 <= b)%Z) (Halton.bases e) ->
  exists a a1 a2 e1 e2,
    Halton.random (n + m) e = Some (inr a, e2)
    /\ Halton.random n e = Some (inr a1, e1)
    /\ Halton.random m e1 = Some (inr a2, e2)
    /\ rows a = rows a1 ++ rows a2.
Proof.
  intros Hb.
  destruct (halton_fast_forward_then_random e n m Hb) as (a & e2 & Ea & Ef).
  exists a.
  assert (E1 : Halton.random n e
               = Some (inr (mk_array2 (ncols a) (firstn n (rows a))),
                       Halton.fast_forward n e)).
  { revert Ea. unfold Halton.random.
    rewrite (sequences_firstn n m).
    destruct (Halton.sequences (n + m) _ _ _ _) as [[err|cols]|];
      try discriminate.
    intros Ea. inversion Ea. cbn [ncols rows].
    now rewrite (transpose_firstn n m). }
  do 4 eexists. split; [exact Ea|]. split; [exact E1|].
  split; [exact Ef|].
  cbn [rows]. symmetry. apply firstn_skipn.
Qed.

(** X11: [reset] makes a Halton engine whose seed is an integer or a
    generator replay its sequence: after any [fast_forward(k)] and
    [random(m)], [reset] followed by [random(n)] returns the points that
    [random(n)] returns on the engine at cursor zero.  (A scrambled engine
    built with [seed=None] is not covered: that seed is no [seed_t].) *)
Theorem halton_reset_replays (e : Halton.t G) (k m n : nat) :
  QMCEngine.num_generated (Halton.base e) = 0%Z ->
  Forall (fun b => (2 <= b)%Z) (Halton.bases e) ->
  exists a1 e1 a e' a' e'',
    Halton.random m (Halton.fast_forward k e) = Some (inr a1, e1)
    /\ Halton.random n e = Some (inr a, e')
    /\ Halton.random n (Halton.reset e1) = Some (inr a', e'')
    /\ a' = a.
Proof.
  intros H0 Hb.
  destruct (sequences_return m
              (QMCEngine.num_generated
                 (Halton.base (Halton.fast_forward k e)))
              (Halton.scramble e) (Halton.seed e) (Halton.bases e) Hb)
    as [cols1 E1].
  destruct (sequences_return n 0 (Halton.scramble e) (Halton.seed e)
              (Halton.bases e) Hb) as [cols E].
  unfold Halton.random at 1.
  cbn [Halton.fast_forward Halton.base Halton.seed Halton.bases
       Halton.scramble] in *.
  rewrite E1.
  unfold Halton.random, Halton.reset.
  cbn [Halton.base Halton.seed Halton.bases Halton.scramble QMCEngine.reset
       QMCEngine.advance QMCEngine.fast_forward QMCEngine.num_generated
       QMCEngine.d].
  rewrite H0, E.
  do 6 eexists. split; [reflexivity|]. split; [reflexivity|].
  cbn [Halton.base Halton.seed Halton.bases Halton.scramble QMCEngine.reset
       QMCEngine.advance QMCEngine.fast_forward QMCEngine.num_generated
       QMCEngine.d].
  rewrite E. split; reflexivity.
Qed.

End HaltonDraws.

Lemma halton_draws_concatenate_witness :
  exists a a1 a2 e1 e2,
    let e := Halton.mk (QMCEngine.__init__ (G := nat) 2 (SeedInt 0))
               (SeedInt 0) [2; 3]%Z true in
    Halton.random (2 + 3) e = Some (inr a, e2)
    /\ Halton.random 2 e = Some (inr a1, e1)
    /\ Halton.random 3 e1 = Some (inr a2, e2)
    /\ rows a = rows a1 ++ rows a2.
Proof.
  apply (halton_draws_concatenate (G := nat)
           (Halton.mk (QMCEngine.__init__ 2 (SeedInt 0)) (SeedInt 0)
              [2; 3]%Z true) 2 3).
  repeat constructor; lia.
Defined.

Lemma halton_reset_replays_witness :
  exists a1 e1 a e' a' e'',
    let e := Halton.mk (QMCEngine.__init__ (G := nat) 2 (SeedInt 0))
               (SeedInt 0) [2; 3]%Z true in
    Halton.random 3 (Halton.fast_forward 1 e) = Some (inr a1, e1)
    /\ Halton.random 2 e = Some (inr a, e')
    /\ Halton.random 2 (Halton.reset e1) = Some (inr a', e'')
    /\ a' = a.
Proof.
  apply (halton_reset_replays (G := nat)
           (Halton.mk (QMCEngine.__init__ 2 (SeedInt 0)) (SeedInt 0)
              [2; 3]%Z true) 1 3 2).
  - reflexivity.
  - repeat constructor; lia.
Defined.

(** ** Masks and the swap of two cells *)

Section MaskedRows.

Variable A : Type.

Lemma select_all (l : list A) : select (repeat true (length l)) l = l.
Proof.
  induction l as [|a l IH]; simpl; [reflexivity|now rewrite IH].
Qed.

Lemma set_at_length (i : nat) (v : A) (l : list A) :
  length (set_at i v l) = length l.
Proof.
  revert i. induction l as [|a l IH]; intros [|i]; simpl; try reflexivity.
  now rewrite IH.
Qed.

Lemma nth_set_at_same (i : nat) (v d : A) (l : list A) :
  (i < length l)%nat -> nth i (set_at i v l) d = v.
Proof.
  revert i. induction l as [|a l IH]; intros [|i] Hi; simpl in *; try lia.
  - reflexivity.
  - apply IH. lia.
Qed.

Lemma nth_set_at_other (i j : nat) (v d : A) (l : list A) :
  i <> j -> nth j (set_at i v l) d = nth j l d.
Proof.
  revert i j. induction l as [|a l IH]; intros [|i] [|j] Hij; simpl;
    try reflexivity; try congruence.
  apply IH. congruence.
Qed.

Lemma set_at_nth_same (i : nat) (d : A) (l : list A) :
  set_at i (nth i l d) l = l.
Proof.
  revert i. induction l as [|a l IH]; intros [|i]; simpl; try reflexivity.
  now rewrite IH.
Qed.

(** The rows that the mask of [_perturb_discrepancy] keeps, with one row
    masked out: the list is the row and the rows kept, in some order. *)
Lemma select_one_out (r : nat) (d : A) (l : list A) :
  (r < length l)%nat ->
  Permutation l
    (nth r l d :: select (set_at r false (repeat true (length l))) l).
Proof.
  revert r. induction l as [|a l IH]; intros [|r] Hr; simpl in *; try lia.
  - rewrite select_all. apply Permutation_refl.
  - apply perm_trans with (a :: nth r l d
                             :: select (set_at r false (repeat true (length l)))
                                  l).
    + apply perm_skip, IH. lia.
    + apply perm_swap.
Qed.

Lemma select_two_out (r1 r2 : nat) (d : A) (l : list A) :
  r1 <> r2 -> (r1 < length l)%nat -> (r2 < length l)%nat ->
  Permutation l
    (nth r1 l d :: nth r2 l d
       :: select (set_at r2 false (set_at r1 false (repeat true (length l))))
            l).
Proof.
  revert r1 r2. induction l as [|a l IH]; intros [|r1] [|r2] Hne H1 H2;
    simpl in *; try lia.
  - apply perm_skip, select_one_out. lia.
  - apply perm_trans with (a :: nth r1 l d
                             :: select (set_at r1 false (repeat true (length l)))
                                  l).
    + apply perm_skip, select_one_out. lia.
    + apply perm_swap.
  - apply perm_trans
      with (a :: nth r1 l d :: nth r2 l d
              :: select (set_at r2 false
                           (set_at r1 false (repeat true (length l)))) l).
    + apply perm_skip, IH; lia.
    + apply perm_trans
        with (nth r1 l d :: a :: nth r2 l d
                :: select (set_at r2 false
                             (set_at r1 false (repeat true (length l)))) l).
      * apply perm_swap.
      * apply perm_skip, perm_swap.
Qed.

(** A row that is masked out can be replaced without a change of the rows
    kept. *)
Lemma select_set_at_masked (r : nat) (v : A) (mask : list bool) (l : list A) :
  nth r mask true = false ->
  select mask (set_at r v l) = select mask l.
Proof.
  revert r l. induction mask as [|b mask IH]; intros r [|a l] Hr;
    try reflexivity.
  - now destruct r.
  - destruct r as [|r]; simpl in *.
    + now rewrite Hr.
    + rewrite IH by exact Hr. reflexivity.
Qed.

End MaskedRows.

Section SwapRecomputation.

Import Discrepancy.

Lemma Forall_set_at {A : Type} (P : A -> Prop) (i : nat) (v : A)
  (l : list A) :
  Forall P l -> P v -> Forall P (set_at i v l).
Proof.
  intros Hl Hv. revert i. induction Hl as [|a l Ha Hl IH]; intros [|i]; simpl;
    constructor; auto.
Qed.

Lemma swap_cells_rows (s : array2) (r1 r2 c : nat) :
  r1 <> r2 ->
  rows (OptimalDesign.swap_cells s r1 r2 c)
  = set_at r2 (set_at c (nth c (nth r1 (rows s) []) 0) (nth r2 (rows s) []))
      (set_at r1 (set_at c (nth c (nth r2 (rows s) []) 0)
                    (nth r1 (rows s) []))
         (rows s)).
Proof.
  intros Hne. unfold OptimalDesign.swap_cells. cbn [rows].
  now rewrite nth_set_at_other by exact Hne.
Qed.

Lemma swap_cells_same_row (s : array2) (r c : nat) :
  OptimalDesign.swap_cells s r r c = s.
Proof.
  unfold OptimalDesign.swap_cells. destruct s as [d rs]. cbn [rows ncols].
  destruct (Nat.lt_ge_cases r (length rs)) as [Hr|Hr].
  - rewrite (set_at_nth_same _ c 0 (nth r rs [])), set_at_nth_same.
    now rewrite (set_at_nth_same _ c 0 (nth r rs [])), set_at_nth_same.
  - rewrite (nth_overflow rs [] Hr). cbn [set_at].
    assert (E : forall v, set_at r v rs = rs).
    { clear - Hr. revert r Hr. induction rs as [|a rs IH]; intros r Hr v;
        [now destruct r|].
      destruct r as [|r]; simpl in *; [lia|]. rewrite IH by lia.
      reflexivity. }
    rewrite E, (nth_overflow rs [] Hr). cbn [set_at]. now rewrite E.
Qed.

End SwapRecomputation.

Section SwapTheorem.

Import Discrepancy.

Lemma mask_at_first (r1 r2 n : nat) :
  (r1 < n)%nat ->
  nth r1 (set_at r2 false (set_at r1 false (repeat true n))) true = false.
Proof.
  intros H1. destruct (Nat.eq_dec r2 r1) as [->|Hne].
  - apply nth_set_at_same. now rewrite set_at_length, repeat_length.
  - rewrite nth_set_at_other by exact Hne.
    apply nth_set_at_same. now rewrite repeat_length.
Qed.

Lemma mask_at_second (r1 r2 n : nat) :
  (r2 < n)%nat ->
  nth r2 (set_at r2 false (set_at r1 false (repeat true n))) true = false.
Proof.
  intros H2. apply nth_set_at_same.
  now rewrite set_at_length, repeat_length.
Qed.

End SwapTheorem.

(** ** The optimal design: what every evaluation of the objective keeps *)

Section OptimalDesignInvariants.
Context {G : Type} `{RandomSource G} `{Minimizer G}.

Import Discrepancy.

(** A method that keeps a property of the engine, whether it returns or
    raises. *)
Definition keeps (I : OptimalDesign.t G -> Prop) {A : Type}
  (m : meth (OptimalDesign.t G) A) : Prop :=
  forall s, I s -> I (snd (m s)).

(** A property of the best design and of its recorded discrepancy. *)
Definition on_design (P : array2 -> extended -> Prop)
  (e : OptimalDesign.t G) : Prop :=
  exists doe, OptimalDesign.best_doe e = Some doe
              /\ P doe (OptimalDesign.best_disc e).

Lemma keeps_bind (I : OptimalDesign.t G -> Prop) {A B : Type}
  (m : meth (OptimalDesign.t G) A) (f : A -> meth (OptimalDesign.t G) B) :
  keeps I m -> (forall a, keeps I (f a)) -> keeps I (mbind m f).
Proof.
  intros Hm Hf s Hs. unfold mbind.
  specialize (Hm s Hs). destruct (m s) as [[err|a] s']; cbn [snd] in *.
  - exact Hm.
  - apply Hf, Hm.
Qed.

(** The step of the property: a swap that the objective commits. *)
Definition kept_by_swap (P : array2 -> extended -> Prop) : Prop :=
  forall doe disc i1 i2 k r1 r2 c v,
    P doe disc ->
    np_index i1 (nrows doe) = inr r1 ->
    np_index i2 (nrows doe) = inr r2 ->
    np_index k (ncols doe) = inr c ->
    OptimalDesign.perturb_ext doe i1 i2 k disc = inr v ->
    ext_ltb v disc = true ->
    P (OptimalDesign.swap_cells doe r1 r2 c) v.

Lemma perturb_best_doe_keeps (P : array2 -> extended -> Prop)
  (x : Q * Q * Q) :
  kept_by_swap P -> keeps (on_design P) (OptimalDesign._perturb_best_doe x).
Proof.
  intros HP s (doe & Ed & Hs).
  unfold OptimalDesign._perturb_best_doe. rewrite Ed.
  destruct x as [[x0 x1] x2].
  destruct (OptimalDesign.perturb_ext doe (np_round x1) (np_round x2)
              (np_round x0) (OptimalDesign.best_disc s)) as [err|disc] eqn:Ep;
    [exists doe; auto|].
  destruct (ext_ltb disc (OptimalDesign.best_disc s)) eqn:Elt;
    [|exists doe; auto].
  destruct (np_index (np_round x1) (nrows doe)) as [?|r1] eqn:E1;
    [exists doe; auto|].
  destruct (np_index (np_round x2) (nrows doe)) as [?|r2] eqn:E2;
    [exists doe; auto|].
  destruct (np_index (np_round x0) (ncols doe)) as [?|c] eqn:E0;
    [exists doe; auto|].
  cbn [snd]. eexists. split; [reflexivity|].
  cbn [OptimalDesign.best_disc].
  eapply HP; eassumption.
Qed.

Lemma run_keeps (P : array2 -> extended -> Prop) (r : optimizer_run G) :
  kept_by_swap P -> keeps (on_design P) (OptimalDesign.run r).
Proof.
  intros HP. induction r as [g|x k IH]; cbn [OptimalDesign.run].
  - intros s (doe & Ed & Hs). exists doe. auto.
  - apply keeps_bind; [now apply perturb_best_doe_keeps|exact IH].
Qed.

Lemma iterate_keeps (P : array2 -> extended -> Prop) (niter : nat)
  (x0 : Q * Q * Q) (bounds : list (Z * Z)) :
  kept_by_swap P ->
  keeps (on_design P) (OptimalDesign.iterate niter x0 bounds).
Proof.
  intros HP. induction niter as [|niter IH]; cbn [OptimalDesign.iterate].
  - intros s Hs. exact Hs.
  - apply keeps_bind; [intros s Hs; exact Hs|]. intros e.
    apply keeps_bind; [now apply run_keeps|]. intros _. exact IH.
Qed.

Lemma random_keeps (P : array2 -> extended -> Prop) (n : nat) :
  kept_by_swap P -> keeps (on_design P) (OptimalDesign.random n).
Proof.
  intros HP. unfold OptimalDesign.random.
  apply keeps_bind; [intros s Hs; exact Hs|]. intros e.
  destruct (QMCEngine.d (OptimalDesign.base e) =? 0)%nat;
    [intros s Hs; exact Hs|].
  apply keeps_bind.
  { intros s (doe & Ed & Hs). unfold OptimalDesign.initial_design.
    unfold mbind at 1, mget at 1. cbn [ok]. rewrite Ed.
    exists doe. auto. }
  intros _. apply keeps_bind; [now apply iterate_keeps|]. intros _.
  intros s (doe & Ed & Hs).
  unfold mbind, mget, mput, mret, mraise, ok. cbn [OptimalDesign.best_doe].
  rewrite Ed. cbn [snd]. exists doe. auto.
Qed.

Lemma random_returns_best_doe (n : nat) (e e' : OptimalDesign.t G)
  (a : array2) :
  QMCEngine.d (OptimalDesign.base e) <> O ->
  OptimalDesign.random n e = (inr a, e') ->
  OptimalDesign.best_doe e' = Some a.
Proof.
  intros Hd. unfold OptimalDesign.random.
  unfold mbind at 1, mget at 1. cbn [ok].
  destruct (Nat.eqb_spec (QMCEngine.d (OptimalDesign.base e)) 0) as [E|_];
    [congruence|].
  unfold mbind at 1.
  destruct (OptimalDesign.initial_design n e) as [[err|[]] e1];
    [discriminate|].
  unfold mbind at 1.
  destruct (OptimalDesign.iterate _ _ _ e1) as [[err|[]] e2];
    [discriminate|].
  unfold mbind, mget, mput, mret, mraise, ok.
  destruct (OptimalDesign.best_doe e2) as [doe|] eqn:Ed; [|discriminate].
  intros E. inversion E. subst. reflexivity.
Qed.

Lemma np_index_lt (i : Z) (n r : nat) :
  np_index i n = inr r -> (r < n)%nat.
Proof.
  unfold np_index.
  destruct ((0 <=? i)%Z && (i <? Z.of_nat n)%Z) eqn:E1.
  - intros E. inversion E. apply andb_prop in E1. lia.
  - destruct ((- Z.of_nat n <=? i)%Z && (i <? 0)%Z) eqn:E2; [|discriminate].
    intros E. inversion E. apply andb_prop in E2. lia.
Qed.

Lemma map_set_at {A B : Type} (f : A -> B) (i : nat) (v : A) (l : list A) :
  map f (set_at i v l) = set_at i (f v) (map f l).
Proof.
  revert i. induction l as [|a l IH]; intros [|i]; simpl; try reflexivity.
  now rewrite IH.
Qed.

Lemma swap_permutation {A : Type} (l : list A) (r1 r2 : nat) (d : A) :
  r1 <> r2 -> (r1 < length l)%nat -> (r2 < length l)%nat ->
  Permutation (set_at r2 (nth r1 l d) (set_at r1 (nth r2 l d) l)) l.
Proof.
  intros Hne H1 H2.
  set (l' := set_at r2 (nth r1 l d) (set_at r1 (nth r2 l d) l)).
  assert (L' : length l' = length l)
    by (unfold l'; now rewrite !set_at_length).
  pose proof (select_two_out A r1 r2 d l Hne H1 H2) as P.
  pose proof (select_two_out A r1 r2 d l' Hne ltac:(lia) ltac:(lia)) as P'.
  rewrite L' in P'.
  assert (E1 : nth r1 l' d = nth r2 l d).
  { unfold l'. rewrite nth_set_at_other by congruence.
    now apply nth_set_at_same. }
  assert (E2 : nth r2 l' d = nth r1 l d).
  { unfold l'. apply nth_set_at_same. now rewrite set_at_length. }
  assert (ER : select (set_at r2 false
                         (set_at r1 false (repeat true (length l)))) l'
               = select (set_at r2 false
                           (set_at r1 false (repeat true (length l)))) l).
  { unfold l'.
    rewrite select_set_at_masked by (apply mask_at_second; exact H2).
    rewrite select_set_at_masked by (apply mask_at_first; exact H1).
    reflexivity. }
  rewrite E1, E2, ER in P'.
  eapply perm_trans; [exact P'|].
  eapply perm_trans; [apply perm_swap|].
  apply Permutation_sym, P.
Qed.

Lemma swap_cells_shape (s : array2) (r1 r2 c : nat) :
  well_shaped s ->
  (r1 < nrows s)%nat -> (r2 < nrows s)%nat ->
  well_shaped (OptimalDesign.swap_cells s r1 r2 c)
  /\ ncols (OptimalDesign.swap_cells s r1 r2 c) = ncols s
  /\ nrows (OptimalDesign.swap_cells s r1 r2 c) = nrows s.
Proof.
  intros Hws H1 H2.
  destruct (Nat.eq_dec r1 r2) as [->|Hne];
    [rewrite swap_cells_same_row; auto|].
  unfold well_shaped, nrows. rewrite swap_cells_rows by exact Hne.
  change (ncols (OptimalDesign.swap_cells s r1 r2 c)) with (ncols s).
  unfold well_shaped in Hws. pose proof Hws as Hall.
  rewrite Forall_forall in Hall.
  split; [|split; [reflexivity|now rewrite !set_at_length]].
  apply Forall_set_at; [apply Forall_set_at; [exact Hws|]|];
    rewrite set_at_length; apply Hall, nth_In; assumption.
Qed.

Lemma swap_cells_columns (s : array2) (r1 r2 c j : nat) :
  well_shaped s ->
  (r1 < nrows s)%nat -> (r2 < nrows s)%nat -> (c < ncols s)%nat ->
  Permutation (column j (rows (OptimalDesign.swap_cells s r1 r2 c)))
    (column j (rows s)).
Proof.
  intros Hws H1 H2 Hc.
  destruct (Nat.eq_dec r1 r2) as [->|Hne];
    [rewrite swap_cells_same_row; apply Permutation_refl|].
  rewrite swap_cells_rows by exact Hne.
  set (x := nth r1 (rows s) []). set (y := nth r2 (rows s) []).
  assert (Lx : length x = ncols s).
  { unfold x. unfold well_shaped in Hws. rewrite Forall_forall in Hws.
    apply Hws, nth_In, H1. }
  assert (Ly : length y = ncols s).
  { unfold y. unfold well_shaped in Hws. rewrite Forall_forall in Hws.
    apply Hws, nth_In, H2. }
  unfold column. rewrite !map_set_at.
  set (col := map (fun r => nth j r 0) (rows s)).
  assert (Nx : nth r1 col 0 = nth j x 0).
  { unfold col, x.
    replace 0 with (nth j (@nil Q) 0) at 1 by (now destruct j).
    apply (map_nth (fun r => nth j r 0)). }
  assert (Ny : nth r2 col 0 = nth j y 0).
  { unfold col, y.
    replace 0 with (nth j (@nil Q) 0) at 1 by (now destruct j).
    apply (map_nth (fun r => nth j r 0)). }
  assert (Lc : length col = nrows s) by (unfold col; apply length_map).
  destruct (Nat.eq_dec c j) as [<-|Hcj].
  - rewrite !nth_set_at_same by lia.
    rewrite <- Nx, <- Ny. apply swap_permutation; lia.
  - rewrite !nth_set_at_other by exact Hcj.
    rewrite <- Nx, <- Ny.
    rewrite (set_at_nth_same _ r1 0 col).
    rewrite (set_at_nth_same _ r2 0 col).
    apply Permutation_refl.
Qed.

(** The best design has the shape of the start design and, column by
    column, its values. *)
Definition same_columns (S doe : array2) : Prop :=
  well_shaped doe
  /\ ncols doe = ncols S
  /\ nrows doe = nrows S
  /\ forall j, Permutation (column j (rows doe)) (column j (rows S)).

Lemma same_columns_kept (S : array2) :
  kept_by_swap (fun doe _ => same_columns S doe).
Proof.
  intros doe disc i1 i2 k r1 r2 c v (Hws & Hc & Hn & Hp) E1 E2 Ek _ _.
  apply np_index_lt in E1, E2, Ek.
  destruct (swap_cells_shape doe r1 r2 c Hws E1 E2) as (Hws' & Hc' & Hn').
  split; [exact Hws'|]. split; [congruence|]. split; [congruence|].
  intros j. eapply perm_trans; [|apply Hp].
  now apply swap_cells_columns.
Qed.

(** X13: the optimal design keeps the values of the start design, column
    by column.  On an engine constructed with a [start_design], for every
    [n], every optimizer and every [niter], after [random(n)] (whether it
    returns or raises) the best design has the shape of the start design,
    whatever [n] is, and each of its columns is a permutation of the
    column of the start design; when [d >= 1] it is the sample that
    [random] returns. *)
Theorem optimal_design_keeps_columns (d n niter : nat) (S : array2)
  (method : option (method_t G)) (seed : seed_t G) (e : OptimalDesign.t G) :
  well_shaped S ->
  OptimalDesign.__init__ d (Some S) niter method seed = inr e ->
  exists doe,
    OptimalDesign.best_doe (snd (OptimalDesign.random n e)) = Some doe
    /\ well_shaped doe
    /\ ncols doe = ncols S
    /\ nrows doe = nrows S
    /\ (forall j, Permutation (column j (rows doe)) (column j (rows S)))
    /\ (d <> O -> forall a, fst (OptimalDesign.random n e) = inr a -> a = doe).
Proof.
  intros Hws He.
  destruct (init_fields d niter (Some S) method seed e He) as (Ed & Eb & _).
  destruct (random_keeps (fun doe _ => same_columns S doe) n
              (same_columns_kept S) e) as (doe & Edoe & Hs & Hc & Hn & Hp).
  { exists S. split; [exact Eb|].
    repeat split; auto. }
  exists doe. repeat split; try assumption.
  intros Hd a Ea.
  destruct (OptimalDesign.random n e) as [r e'] eqn:Er. cbn [fst snd] in *.
  subst r. apply random_returns_best_doe in Er; [|congruence].
  congruence.
Qed.

End OptimalDesignInvariants.

Lemma optimal_design_keeps_columns_witness :
  let S := mk_array2 2 [[1#12; 5#12]; [3#12; 11#12]; [5#12; 3#12]] in
  exists e doe,
    OptimalDesign.__init__ (G := nat) 2 (Some S) 1 None (SeedInt 0) = inr e
    /\ OptimalDesign.best_doe (snd (OptimalDesign.random 5 e)) = Some doe
    /\ nrows doe = nrows S
    /\ (forall j, Permutation (column j (rows doe)) (column j (rows S))).
Proof.
  intros S.
  destruct (OptimalDesign.__init__ (G := nat) 2 (Some S) 1 None (SeedInt 0))
    as [err|e] eqn:E; [vm_compute in E; discriminate|].
  destruct (optimal_design_keeps_columns (G := nat) 2 5 1 S None (SeedInt 0)
              e ltac:(repeat constructor) E)
    as (doe & Ed & _ & _ & Hn & Hp & _).
  exists e, doe. auto.
Defined.

(** ** Drawing no point *)

Section EmptyDraws.
Context {G : Type} `{RandomSource G} `{Minimizer G}.

Lemma sequences_empty (start : Z) (scramble : bool) (seed : seed_t G)
  (bases : list Z) :
  Forall (fun b => (2 <= b)%Z) bases ->
  exists cols, Halton.sequences 0 start scramble seed bases = Some (inr cols).
Proof.
  apply sequences_return.
Qed.

(** X15: [random(0)].  A Halton engine returns the empty sample of shape
    [(0, d)] and keeps its cursor.  The orthogonal Latin hypercube raises
    [ZeroDivisionError] at [1.0 / n], before anything is drawn: the engine
    is as it was.  The Latin hypercube raises it at [1. / n], after the
    (empty) draws, with its cursor as it was.  The optimal design without a
    start design ([d >= 1]) raises it from the draw of its first design. *)
Theorem random_zero_points :
  (forall e : Halton.t G,
      Forall (fun b => (2 <= b)%Z) (Halton.bases e) ->
      exists e',
        Halton.random 0 e
        = Some (inr (mk_array2 (QMCEngine.d (Halton.base e)) []), e')
        /\ QMCEngine.num_generated (Halton.base e')
           = QMCEngine.num_generated (Halton.base e))
  /\ (forall e : @OrthogonalLatinHypercube.t G,
         OrthogonalLatinHypercube.random 0 e = (inl ZeroDivisionError, e))
  /\ (forall e : LatinHypercube.t G,
         fst (LatinHypercube.random 0 e) = inl ZeroDivisionError
         /\ QMCEngine.num_generated
              (LatinHypercube.base (snd (LatinHypercube.random 0 e)))
            = QMCEngine.num_generated (LatinHypercube.base e))
  /\ (forall e : OptimalDesign.t G,
         QMCEngine.d (OptimalDesign.base e) <> O ->
         OptimalDesign.best_doe e = None ->
         fst (OptimalDesign.random 0 e) = inl ZeroDivisionError
         /\ OptimalDesign.best_doe (snd (OptimalDesign.random 0 e)) = None).
Proof.
  split; [|split; [|split]].
  - intros e Hb.
    destruct (sequences_empty (QMCEngine.num_generated (Halton.base e))
                (Halton.scramble e) (Halton.seed e) (Halton.bases e) Hb)
      as [cols Ec].
    unfold Halton.random. rewrite Ec. eexists. split; [reflexivity|].
    cbn [Halton.base QMCEngine.advance QMCEngine.num_generated]. lia.
  - intros e. reflexivity.
  - intros e. destruct e as [b c].
    unfold LatinHypercube.random, LatinHypercube.with_rng_result,
      LatinHypercube.with_rng, mbind, mget, mret, mput, mlift, ok.
    cbn [LatinHypercube.base LatinHypercube.centered Nat.mul].
    destruct c; cbn [LatinHypercube.base LatinHypercube.centered].
    + unfold integers, raise. cbn.
      split; [reflexivity|]. rewrite set_rng_cursor. lia.
    + destruct (rs_random 0 (QMCEngine.get_rng b)) as [r g1].
      unfold integers, raise. cbn.
      split; [reflexivity|]. rewrite !set_rng_cursor. lia.
  - intros e Hd Hn.
    assert (E : exists e', OptimalDesign.random 0 e
                           = (inl ZeroDivisionError, e')
                           /\ OptimalDesign.best_doe e' = None).
    { unfold OptimalDesign.random. unfold mbind at 1, mget at 1. cbn [ok].
      destruct (Nat.eqb_spec (QMCEngine.d (OptimalDesign.base e)) 0)
        as [E|_]; [congruence|].
      unfold mbind at 1. unfold OptimalDesign.initial_design.
      unfold mbind at 1, mget at 1. cbn [ok]. rewrite Hn.
      unfold mbind at 1. unfold OptimalDesign.olhs_random.
      unfold OrthogonalLatinHypercube.random, mbind, mlift, raise.
      cbn [div_int fst snd]. eexists. split; [reflexivity|].
      cbn [OptimalDesign.best_doe]. exact Hn. }
    destruct E as (e' & E & Hb). rewrite E. auto.
Qed.

End EmptyDraws.

Lemma random_zero_points_witness :
  exists e',
    Halton.random (G := nat) 0
      (Halton.mk (QMCEngine.__init__ 2 (SeedInt 0)) (SeedInt 0) [2; 3]%Z true)
    = Some (inr (mk_array2 2 []), e')
    /\ QMCEngine.num_generated (Halton.base e') = 0%Z.
Proof.
  refine (proj1 (random_zero_points (G := nat))
            (Halton.mk (QMCEngine.__init__ 2 (SeedInt 0)) (SeedInt 0)
               [2; 3]%Z true) _).
  repeat constructor; lia.
Defined.

(** ** [reset] and the seed *)

Section ResetAndSeed.
Context {G : Type} `{RandomSource G}.

Lemma olhs_sample_of_generator (n : nat) (e e' : @OrthogonalLatinHypercube.t G) :
  QMCEngine.d e = QMCEngine.d e' ->
  QMCEngine.get_rng e = QMCEngine.get_rng e' ->
  fst (OrthogonalLatinHypercube.random n e)
  = fst (OrthogonalLatinHypercube.random n e').
Proof.
  intros Ed Eg.
  unfold OrthogonalLatinHypercube.random, mbind, mlift, mget, mput, mret, ok.
  destruct (div_int 1 n) as [err|step]; [reflexivity|].
  rewrite Ed, Eg.
  destruct (OrthogonalLatinHypercube.columns (QMCEngine.d e') n step
              (QMCEngine.get_rng e')) as [sample g].
  reflexivity.
Qed.

Lemma olhs_random_fields (n : nat) (e : @OrthogonalLatinHypercube.t G) :
  let e' := snd (OrthogonalLatinHypercube.random n e) in
  QMCEngine.d e' = QMCEngine.d e
  /\ (QMCEngine.rng e = QMCEngine.SeedObject ->
      QMCEngine.rng e' = QMCEngine.SeedObject
      /\ (n <> O ->
          QMCEngine.rng_seed e' = SeedGen (QMCEngine.get_rng e')))
  /\ (forall g, QMCEngine.rng e = QMCEngine.Own g ->
        QMCEngine.rng_seed e' = QMCEngine.rng_seed e).
Proof.
  unfold OrthogonalLatinHypercube.random, mbind, mlift, mget, mput, mret, ok.
  destruct n as [|n]; cbn [div_int ok raise].
  - cbn [snd]. split; [reflexivity|]. split; [|reflexivity].
    intros E. split; [exact E|congruence].
  - match goal with
    | |- context [OrthogonalLatinHypercube.columns ?a ?b ?c ?g0] =>
        destruct (OrthogonalLatinHypercube.columns a b c g0) as [sample g]
    end.
    cbn [snd]. unfold QMCEngine.set_rng, QMCEngine.advance.
    destruct (QMCEngine.rng e) eqn:Er;
      cbn [QMCEngine.d QMCEngine.rng QMCEngine.rng_seed];
      (split; [reflexivity|]); (split; [|intros; congruence || reflexivity]).
    + discriminate.
    + intros _. split; [reflexivity|]. intros _.
      unfold QMCEngine.get_rng.
      cbn [QMCEngine.rng QMCEngine.rng_seed check_random_state].
      reflexivity.
Qed.

(** X16: what [reset] replays depends on the seed.  With an integer seed
    the engine is given a new generator at every [reset], and the draw
    after it is the draw of a new engine.  With a generator for seed, the
    first [reset] makes [self.rng] the very object kept in [self.rng_seed]:
    the draw that follows replays the first draw of the engine, and
    advances [self.rng_seed] with it; a second [reset] therefore leaves
    the generator where it is, and the draw after it continues the stream
    where a draw without [reset] would.  (On the orthogonal Latin
    hypercube, which has the [reset] of the base class.) *)
Theorem reset_replays_by_seed (d n m : nat) :
  (forall z (e : @OrthogonalLatinHypercube.t G),
      QMCEngine.d e = d ->
      QMCEngine.rng_seed e = SeedInt z ->
      fst (OrthogonalLatinHypercube.random n
             (OrthogonalLatinHypercube.reset e))
      = fst (OrthogonalLatinHypercube.random n
               (OrthogonalLatinHypercube.__init__ d (SeedInt z))))
  /\ (forall g,
         let e0 := OrthogonalLatinHypercube.__init__ d (SeedGen g) in
         let e1 := snd (OrthogonalLatinHypercube.random m e0) in
         let e2 := OrthogonalLatinHypercube.reset e1 in
         let e3 := snd (OrthogonalLatinHypercube.random n e2) in
         fst (OrthogonalLatinHypercube.random n e2)
         = fst (OrthogonalLatinHypercube.random n e0)
         /\ forall k,
              fst (OrthogonalLatinHypercube.random k
                     (OrthogonalLatinHypercube.reset e3))
              = fst (OrthogonalLatinHypercube.random k e3)).
Proof.
  split.
  - intros z e Ed Es. apply olhs_sample_of_generator.
    + now rewrite <- Ed.
    + unfold OrthogonalLatinHypercube.reset, QMCEngine.reset,
        QMCEngine.get_rng. rewrite Es. reflexivity.
  - intros g e0 e1 e2 e3.
    destruct (olhs_random_fields m e0) as (Ed1 & _ & Es1).
    fold e1 in Ed1, Es1.
    specialize (Es1 _ eq_refl). cbn [e0 OrthogonalLatinHypercube.__init__
      QMCEngine.__init__ QMCEngine.rng_seed QMCEngine.d] in Es1, Ed1.
    assert (Er2 : QMCEngine.rng e2 = QMCEngine.SeedObject).
    { unfold e2, OrthogonalLatinHypercube.reset, QMCEngine.reset.
      now rewrite Es1. }
    split.
    + apply olhs_sample_of_generator.
      * unfold e2. cbn [OrthogonalLatinHypercube.reset QMCEngine.reset
                        QMCEngine.d]. exact Ed1.
      * unfold e2, OrthogonalLatinHypercube.reset, QMCEngine.reset,
          QMCEngine.get_rng. rewrite Es1. reflexivity.
    + intros k. destruct (olhs_random_fields n e2) as (Ed3 & Eo3 & _).
      fold e3 in Ed3, Eo3. destruct (Eo3 Er2) as (Er3 & Es3).
      apply olhs_sample_of_generator; [reflexivity|].
      unfold OrthogonalLatinHypercube.reset, QMCEngine.reset,
        QMCEngine.get_rng.
      cbn [QMCEngine.rng QMCEngine.rng_seed]. rewrite Er3.
      destruct (QMCEngine.rng_seed e3); reflexivity.
Qed.

End ResetAndSeed.

Lemma reset_replays_by_seed_witness :
  let e0 := OrthogonalLatinHypercube.__init__ (G := nat) 1 (SeedGen 0%nat) in
  let e1 := snd (OrthogonalLatinHypercube.random 2 e0) in
  let e2 := OrthogonalLatinHypercube.reset e1 in
  let e3 := snd (OrthogonalLatinHypercube.random 2 e2) in
  fst (OrthogonalLatinHypercube.random 2 e2)
  = fst (OrthogonalLatinHypercube.random 2 e0)
  /\ forall k,
       fst (OrthogonalLatinHypercube.random k
              (OrthogonalLatinHypercube.reset e3))
       = fst (OrthogonalLatinHypercube.random k e3).
Proof.
  exact (proj2 (reset_replays_by_seed (G := nat) 1 2 2) 0%nat).
Defined.

(** With a generator for seed the replay happens once: on the counting
    generator, the draw after the second [reset] is not the first draw. *)
Example reset_generator_seed_replays_once :
  let e0 := OrthogonalLatinHypercube.__init__ (G := nat) 1 (SeedGen 0%nat) in
  let e2 := OrthogonalLatinHypercube.reset
              (snd (OrthogonalLatinHypercube.random 2 e0)) in
  let e4 := OrthogonalLatinHypercube.reset
              (snd (OrthogonalLatinHypercube.random 2 e2)) in
  fst (OrthogonalLatinHypercube.random 2 e2)
  = fst (OrthogonalLatinHypercube.random 2 e0)
  /\ fst (OrthogonalLatinHypercube.random 2 e4)
     <> fst (OrthogonalLatinHypercube.random 2 e0).
Proof.
  split; [reflexivity|]. vm_compute. discriminate.
Qed.

(** ** The Box-Muller branch of the normal sampler *)

Section BoxMuller.
Context {G : Type} `{RandomSource G} `{SobolTables} `{SpecialFunctions}.
Context {E : Type} `{Engine E}.

Lemma pairs_even (k : nat) (row : list Q) :
  length row = (2 * k)%nat ->
  exists ps, MultivariateNormalQMC.pairs row = inr ps /\ length ps = k.
Proof.
  revert row. induction k as [|k IH]; intros row L.
  - destruct row; [|discriminate]. exists []. split; reflexivity.
  - destruct row as [|u [|v row]]; simpl in L; try lia.
    destruct (IH row ltac:(lia)) as (ps & Eps & Lps).
    exists ((u, v) :: ps). cbn [MultivariateNormalQMC.pairs].
    rewrite Eps. split; [reflexivity|]. simpl. congruence.
Qed.

Lemma mapM_all {A B : Type} (f : A -> result B) (P : B -> Prop)
  (l : list A) :
  Forall (fun x => exists y, f x = inr y /\ P y) l ->
  exists ys, MultivariateNormalQMC.mapM f l = inr ys
             /\ length ys = length l /\ Forall P ys.
Proof.
  induction 1 as [|x l (y & Ey & Py) _ (ys & Eys & Lys & Pys)].
  - exists []. repeat split. constructor.
  - exists (y :: ys). cbn [MultivariateNormalQMC.mapM]. rewrite Ey, Eys.
    split; [reflexivity|]. split; [simpl; congruence|].
    constructor; assumption.
Qed.

Lemma box_muller_length (k : nat) (row : list Q) :
  length row = (2 * k)%nat ->
  exists out, MultivariateNormalQMC.box_muller row = inr out
              /\ length out = (2 * k)%nat.
Proof.
  intros L. destruct (pairs_even k row L) as (ps & Eps & Lps).
  unfold MultivariateNormalQMC.box_muller. rewrite Eps. cbn [rbind].
  eexists. split; [reflexivity|].
  assert (Lf : forall l : list (Q * Q),
             length (flat_map (fun uv : Q * Q =>
                       let (u, v) := uv in
                       [np_sqrt (- (2) * np_log u) * np_cos (2 * math_pi * v);
                        np_sqrt (- (2) * np_log u) * np_sin (2 * math_pi * v)])
                       l)
             = (2 * length l)%nat).
  { induction l as [|[u v] l IHl]; simpl in *; [reflexivity|lia]. }
  rewrite Lf. lia.
Qed.

Lemma length_concat_rows (c : nat) (a : list (list Q)) :
  Forall (fun r => length r = c) a -> length (concat a) = (length a * c)%nat.
Proof.
  induction 1 as [|r a Lr _ IH]; [reflexivity|].
  cbn [concat length]. rewrite length_app, IH, Lr. lia.
Qed.

Lemma reshape_shape (n c : nat) (l : list Q) :
  length l = (n * c)%nat ->
  length (reshape n c l) = n
  /\ Forall (fun r => length r = c) (reshape n c l).
Proof.
  revert l. induction n as [|n IH]; intros l L; cbn [reshape].
  - split; [reflexivity|constructor].
  - destruct (IH (skipn c l)) as [Ln Hr].
    { rewrite length_skipn. lia. }
    split; [simpl; congruence|].
    constructor; [|exact Hr]. rewrite length_firstn. lia.
Qed.

(** X18: the Box-Muller branch.  With [inv_transform=False] and no
    covariance, on an engine whose [random(n)] returns an array of [r]
    rows and [c] columns.  If [c] is odd, [samples[:, 1 + even]] is out of
    bounds and [random] raises [IndexError].  If [c] is even, the
    transformed entries are laid out again by [reshape(n, -1)], which
    raises [ValueError] when [n] is zero or does not divide [r * c];
    otherwise, with at least [d] columns after it, [random] returns a
    sample of [n] rows and [d] columns, whatever [r] is. *)
Theorem box_muller_columns (mean : list Q) (engine engine' : E)
  (seed : seed_t G) (e : MultivariateNormalQMC.t G E) (n : nat)
  (samples : array2) :
  MultivariateNormalQMC.__init__ mean None None false engine seed = inr e ->
  engine_random n engine = Some (inr samples, engine') ->
  well_shaped samples ->
  let size := (nrows samples * ncols samples)%nat in
  (Nat.odd (ncols samples) = true ->
   exists e', MultivariateNormalQMC.random n e = Some (inl IndexError, e'))
  /\ (Nat.odd (ncols samples) = false ->
      n = O \/ (size mod n)%nat <> O ->
      exists e', MultivariateNormalQMC.random n e
                 = Some (inl ValueError, e'))
  /\ (Nat.odd (ncols samples) = false ->
      n <> O -> (size mod n)%nat = O -> (length mean <= size / n)%nat ->
      exists a e',
        MultivariateNormalQMC.random n e = Some (inr a, e')
        /\ nrows a = n
        /\ ncols a = length mean
        /\ well_shaped a).
Proof.
  intros He Er Hw size.
  unfold MultivariateNormalQMC.__init__ in He. cbn [MultivariateNormalQMC.root
    rbind ok] in He. inversion He; subst e. clear He.
  unfold MultivariateNormalQMC.random,
    MultivariateNormalQMC._standard_normal_samples.
  cbn [MultivariateNormalQMC.engine MultivariateNormalQMC._inv_transform
       MultivariateNormalQMC.base QMCEngine.__init__ QMCEngine.d].
  rewrite Er.
  split; [intros Ho; rewrite Ho; eexists; reflexivity|].
  assert (Ht : Nat.odd (ncols samples) = false ->
               exists transf,
                 MultivariateNormalQMC.mapM MultivariateNormalQMC.box_muller
                   (rows samples) = inr transf
                 /\ length (concat transf) = size).
  { intros Ho.
    assert (Ev : Nat.even (ncols samples) = true)
      by (rewrite <- Nat.negb_odd, Ho; reflexivity).
    apply Nat.even_spec in Ev. destruct Ev as [k Ek].
    destruct (mapM_all MultivariateNormalQMC.box_muller
                (fun out => length out = ncols samples) (rows samples))
      as (transf & Et & Lt & Ft).
    { eapply Forall_impl; [|exact Hw]. intros r Lr. cbv beta in Lr |- *.
      destruct (box_muller_length k r ltac:(lia)) as (out & Eo & Lo).
      exists out. split; [exact Eo|lia]. }
    exists transf. split; [exact Et|].
    rewrite (length_concat_rows _ _ Ft), Lt. reflexivity. }
  split.
  - intros Ho Hn. rewrite Ho.
    destruct (Ht Ho) as (transf & Et & Lt). rewrite Et. cbn [rbind].
    unfold MultivariateNormalQMC.reshape_rows. rewrite Lt.
    destruct Hn as [->|Hn]; [eexists; reflexivity|].
    destruct (n =? 0)%nat; [eexists; reflexivity|].
    destruct (Nat.eqb_spec (size mod n) 0); [congruence|].
    eexists. reflexivity.
  - intros Ho Hn Hm Hd. rewrite Ho.
    destruct (Ht Ho) as (transf & Et & Lt). rewrite Et. cbn [rbind].
    unfold MultivariateNormalQMC.reshape_rows. rewrite Lt.
    destruct (Nat.eqb_spec n 0); [congruence|].
    rewrite Hm. cbn [Nat.eqb negb orb rbind ok].
    destruct (reshape_shape n (size / n) (concat transf)) as [Ln Hr].
    { rewrite Lt. apply Nat.Div0.div_exact in Hm. lia. }
    unfold MultivariateNormalQMC._correlate,
      MultivariateNormalQMC.with_engine.
    cbn [MultivariateNormalQMC._corr_matrix MultivariateNormalQMC._mean
         MultivariateNormalQMC.base QMCEngine.d].
    rewrite broadcast_same
      by (unfold MultivariateNormalQMC.first_columns; cbn [ncols]; lia).
    do 2 eexists. split; [reflexivity|].
    unfold nrows, well_shaped, MultivariateNormalQMC.first_columns.
    cbn [rows ncols]. rewrite !length_map.
    split; [exact Ln|]. split; [lia|].
    apply Forall_map, Forall_map.
    eapply Forall_impl; [|exact Hr]. intros r Lr. cbv beta in Lr |- *.
    rewrite length_map2_same by (rewrite length_firstn; lia).
    rewrite length_firstn. lia.
Qed.

End BoxMuller.

Lemma box_muller_columns_witness :
  let engine := Halton.mk (QMCEngine.__init__ (G := nat) 2 (SeedInt 0))
                  (SeedInt 0) [2; 3]%Z false in
  exists e a e',
    MultivariateNormalQMC.__init__ (G := nat) [5] None None false engine
      (SeedInt 0) = inr e
    /\ MultivariateNormalQMC.random 3 e = Some (inr a, e')
    /\ nrows a = 3%nat
    /\ ncols a = 1%nat
    /\ well_shaped a.
Proof.
  intros engine.
  pose (samples := mk_array2 2 [[0; 0]; [1#2; 1#3]; [1#4; 2#3]]).
  pose (engine' := Halton.mk
                     (QMCEngine.advance 3
                        (QMCEngine.__init__ (G := nat) 2 (SeedInt 0)))
                     (SeedInt 0) [2; 3]%Z false).
  assert (Er : engine_random 3 engine = Some (inr samples, engine'))
    by (vm_compute; reflexivity).
  destruct (box_muller_columns (G := nat) [5] engine engine' (SeedInt 0)
              (MultivariateNormalQMC.mk (QMCEngine.__init__ 1 (SeedInt 0))
                 false engine [5] None)
              3 samples eq_refl Er ltac:(repeat constructor))
    as (_ & _ & Hret).
  destruct (Hret eq_refl ltac:(discriminate) eq_refl ltac:(simpl; lia))
    as (a & e' & Ea & Na & Ca & Wa).
  eexists. exists a, e'. split; [reflexivity|]. split; [exact Ea|].
  split; [exact Na|]. split; [exact Ca|exact Wa].
Defined.

(** ** The sieve of [primes_from_2_to] *)

Section Sieve.

Local Open Scope nat_scope.

Local Ltac dlia := zify; Z.div_mod_to_equations; lia.

(** The number that the index [i] of the sieve stands for: the numbers
    prime to six, in increasing order. *)
Definition sieve_number (i : nat) : nat := Nat.lor (3 * i + 1) 1.

Lemma lor_one (x : nat) : Nat.lor x 1 = x + 1 - x mod 2.
Proof.
  assert (Hx : exists q, x = 2 * q \/ x = 2 * q + 1).
  { exists (x / 2). dlia. }
  destruct Hx as [q [-> | ->]].
  - replace (2 * q + 1 - (2 * q) mod 2) with (2 * q + 1) by dlia.
    apply Nat.bits_inj. intros k. rewrite Nat.lor_spec.
    destruct k as [|k].
    + rewrite Nat.testbit_even_0, Nat.testbit_odd_0. reflexivity.
    + rewrite Nat.testbit_even_succ, Nat.testbit_odd_succ by lia.
      change 1 with (2 * 0 + 1).
      rewrite Nat.testbit_odd_succ by lia. rewrite Nat.bits_0.
      apply orb_false_r.
  - replace (2 * q + 1 + 1 - (2 * q + 1) mod 2) with (2 * q + 1) by dlia.
    apply Nat.bits_inj. intros k. rewrite Nat.lor_spec.
    destruct k as [|k].
    + rewrite Nat.testbit_odd_0. reflexivity.
    + change 1 with (2 * 0 + 1) at 2.
      rewrite (Nat.testbit_odd_succ 0) by lia. rewrite Nat.bits_0.
      apply orb_false_r.
Qed.

Lemma sieve_number_eq (i : nat) : sieve_number i = 3 * i + 1 + i mod 2.
Proof.
  unfold sieve_number. rewrite lor_one. dlia.
Qed.

Lemma land_one (i : nat) : Nat.land i 1 = i mod 2.
Proof.
  change 1 with (Nat.ones 1) at 1. rewrite Nat.land_ones. reflexivity.
Qed.

Lemma sieve_number_index (x : nat) :
  x mod 6 = 1 \/ x mod 6 = 5 -> sieve_number (x / 3) = x.
Proof.
  intros Hx. rewrite sieve_number_eq. dlia.
Qed.

Lemma sieve_number_mod (i : nat) :
  (sieve_number i mod 6 = 1 \/ sieve_number i mod 6 = 5)
  /\ sieve_number i / 3 = i.
Proof.
  rewrite sieve_number_eq. dlia.
Qed.

Lemma clear_slice_from (start step s0 j : nat) (sieve : list bool) :
  j < length sieve ->
  nth j (map (fun ib : nat * bool =>
                let (i, b) := ib in
                if (start <=? i) && ((i - start) mod step =? 0)
                then false else b)
           (combine (seq s0 (length sieve)) sieve)) false
  = if (start <=? s0 + j) && ((s0 + j - start) mod step =? 0)
    then false else nth j sieve false.
Proof.
  revert s0 j. induction sieve as [|b sieve IH]; intros s0 j Hj;
    simpl in Hj; [lia|].
  destruct j as [|j]; cbn [length seq combine map nth].
  - now rewrite Nat.add_0_r.
  - rewrite IH by lia. now replace (S s0 + j) with (s0 + S j) by lia.
Qed.

Lemma clear_slice_nth (start step j : nat) (sieve : list bool) :
  j < length sieve ->
  nth j (clear_slice start step sieve) false
  = if (start <=? j) && ((j - start) mod step =? 0)
    then false else nth j sieve false.
Proof.
  intros Hj. unfold clear_slice. now rewrite clear_slice_from.
Qed.

Lemma clear_slice_length (start step : nat) (sieve : list bool) :
  length (clear_slice start step sieve) = length sieve.
Proof.
  unfold clear_slice.
  rewrite length_map, length_combine, length_seq. lia.
Qed.

(** An index that a round of the loop clears. *)
Definition cleared (i j : nat) : bool :=
  let k := sieve_number i in
  ((k * k / 3 <=? j) && ((j - k * k / 3) mod (2 * k) =? 0))
  || ((k * (k - 2 * Nat.land i 1 + 4) / 3 <=? j)
      && ((j - k * (k - 2 * Nat.land i 1 + 4) / 3) mod (2 * k) =? 0)).

Definition sieve_round (sieve : list bool) (i : nat) : list bool :=
  let k := Nat.lor (3 * i + 1) 1 in
  let sieve := clear_slice (k * k / 3) (2 * k) sieve in
  clear_slice (k * (k - 2 * Nat.land i 1 + 4) / 3) (2 * k) sieve.

Lemma sieve_rounds (rounds : list nat) (sieve : list bool) (j : nat) :
  j < length sieve ->
  length (fold_left sieve_round rounds sieve) = length sieve
  /\ nth j (fold_left sieve_round rounds sieve) false
     = nth j sieve false && forallb (fun i => negb (cleared i j)) rounds.
Proof.
  revert sieve. induction rounds as [|i rounds IH]; intros sieve Hj;
    cbn [fold_left forallb].
  - split; [reflexivity|]. now rewrite andb_true_r.
  - assert (L : length (sieve_round sieve i) = length sieve).
    { unfold sieve_round. now rewrite !clear_slice_length. }
    destruct (IH (sieve_round sieve i) ltac:(lia)) as [IL IN].
    split; [congruence|]. rewrite IN. rewrite andb_assoc. f_equal.
    unfold sieve_round, cleared, sieve_number.
    rewrite clear_slice_nth by (rewrite clear_slice_length; lia).
    rewrite clear_slice_nth by lia.
    set (c1 := (_ <=? j) && (_ =? 0)). set (c2 := (_ <=? j) && (_ =? 0)).
    destruct c1, c2, (nth j sieve false); reflexivity.
Qed.

Lemma nonzero_members (s0 : nat) (sieve : list bool) (x : nat) :
  In x (map fst (filter snd (combine (seq s0 (length sieve)) sieve)))
  <-> exists j, x = s0 + j /\ j < length sieve /\ nth j sieve false = true.
Proof.
  revert s0. induction sieve as [|b sieve IH]; intros s0;
    cbn [length seq combine filter map].
  - split; [intros []|intros (j & _ & Hj & _); simpl in Hj; lia].
  - assert (R : In x (map fst (filter snd
                                 (combine (seq (S s0) (length sieve)) sieve)))
                <-> exists j, x = s0 + S j /\ j < length sieve
                              /\ nth j sieve false = true).
    { rewrite IH. split; intros (j & E & Hj & Hn); exists j;
        (split; [lia|auto]). }
    destruct b; cbn [snd map fst In]; rewrite R; split.
    + intros [<-|(j & E & Hj & Hn)].
      * exists 0. split; [lia|]. split; [simpl; lia|reflexivity].
      * exists (S j). split; [exact E|]. split; [simpl; lia|exact Hn].
    + intros ([|j] & E & Hj & Hn).
      * left. lia.
      * right. exists j. split; [exact E|]. split; [simpl in Hj; lia|exact Hn].
    + intros (j & E & Hj & Hn).
      exists (S j). split; [exact E|]. split; [simpl; lia|exact Hn].
    + intros ([|j] & E & Hj & Hn).
      * discriminate.
      * exists j. split; [exact E|]. split; [simpl in Hj; lia|exact Hn].
Qed.

Lemma nonzero_sorted (s0 : nat) (sieve : list bool) :
  StronglySorted lt
    (map fst (filter snd (combine (seq s0 (length sieve)) sieve))).
Proof.
  revert s0. induction sieve as [|b sieve IH]; intros s0;
    cbn [length seq combine filter map].
  - constructor.
  - destruct b; cbn [snd map fst]; [|apply IH].
    constructor; [apply IH|].
    apply Forall_forall. intros x Hx.
    apply nonzero_members in Hx. destruct Hx as (j & -> & _). lia.
Qed.

Lemma mod6_product (x y : nat) :
  (x * y) mod 6 = 1 \/ (x * y) mod 6 = 5 <->
  (x mod 6 = 1 \/ x mod 6 = 5) /\ (y mod 6 = 1 \/ y mod 6 = 5).
Proof.
  rewrite (Nat.Div0.mul_mod x y 6).
  pose proof (Nat.mod_upper_bound x 6 ltac:(lia)) as Bx.
  pose proof (Nat.mod_upper_bound y 6 ltac:(lia)) as By.
  destruct (x mod 6) as [|[|[|[|[|[|rx]]]]]]; try lia;
    destruct (y mod 6) as [|[|[|[|[|[|ry]]]]]]; try lia;
    cbn; split; intros; try lia; intuition discriminate.
Qed.

Lemma slice_member (start step j : nat) :
  step <> 0 ->
  (start <=? j) && ((j - start) mod step =? 0) = true ->
  exists t, j = start + step * t.
Proof.
  intros Hs Hc. apply andb_prop in Hc. destruct Hc as [Hle Hm].
  apply Nat.leb_le in Hle. apply Nat.eqb_eq in Hm.
  exists ((j - start) / step).
  pose proof (Nat.div_mod_eq (j - start) step). lia.
Qed.

Lemma slice_of_member (start step t : nat) :
  step <> 0 ->
  (start <=? start + step * t)
  && ((start + step * t - start) mod step =? 0) = true.
Proof.
  intros Hs. apply andb_true_intro. split.
  - apply Nat.leb_le. lia.
  - apply Nat.eqb_eq.
    replace (start + step * t - start) with (t * step) by lia.
    apply Nat.Div0.mod_mul.
Qed.

Lemma third_of_product (k b t : nat) :
  k * (b + 6 * t) / 3 = k * b / 3 + 2 * k * t.
Proof.
  replace (k * (b + 6 * t)) with (k * b + (2 * k * t) * 3) by lia.
  apply Nat.div_add. lia.
Qed.

(** The partner [k'] of [k] in the second slice of a round: the next
    number prime to six after [k]. *)
Lemma partner_mod (i : nat) :
  let k := sieve_number i in
  let k' := k - 2 * Nat.land i 1 + 4 in
  1 <= i ->
  5 <= k /\ k < k'
  /\ (k mod 6 = 1 /\ k' = k + 4 \/ k mod 6 = 5 /\ k' = k + 2).
Proof.
  cbv zeta. rewrite land_one, sieve_number_eq. intros Hi. dlia.
Qed.

Lemma cleared_composite (i j : nat) :
  1 <= i -> cleared i j = true ->
  exists a b, 2 <= a /\ 2 <= b /\ sieve_number j = a * b.
Proof.
  intros Hi Hc. unfold cleared in Hc. cbv zeta in Hc.
  destruct (partner_mod i Hi) as (Hk & Hk' & Hmod).
  destruct (sieve_number_mod i) as [Hk6 _].
  set (k := sieve_number i) in *.
  set (k' := k - 2 * Nat.land i 1 + 4) in *.
  apply orb_prop in Hc. destruct Hc as [Hc|Hc];
    apply slice_member in Hc; try lia; destruct Hc as [t Ht].
  - exists k, (k + 6 * t). split; [lia|]. split; [lia|].
    assert (Ej : j = k * (k + 6 * t) / 3).
    { rewrite third_of_product. lia. }
    rewrite Ej. apply sieve_number_index.
    apply mod6_product. split; [exact Hk6|]. dlia.
  - exists k, (k' + 6 * t). split; [lia|]. split; [lia|].
    assert (Ej : j = k * (k' + 6 * t) / 3).
    { rewrite third_of_product. lia. }
    rewrite Ej. apply sieve_number_index.
    apply mod6_product. split; [exact Hk6|]. dlia.
Qed.

Lemma composite_cleared (m a b n : nat) :
  m mod 6 = 1 \/ m mod 6 = 5 ->
  2 <= a -> a <= b -> m = a * b -> m < n ->
  exists i, 1 <= i <= Nat.sqrt n / 3 /\ cleared i (m / 3) = true.
Proof.
  intros Hm Ha Hab -> Hn.
  apply mod6_product in Hm. destruct Hm as [Ha6 Hb6].
  exists (a / 3).
  assert (Ei : sieve_number (a / 3) = a) by now apply sieve_number_index.
  assert (Hi : 1 <= a / 3) by dlia.
  split; [split; [exact Hi|]|].
  - apply Nat.Div0.div_le_mono. apply Nat.sqrt_le_square. nia.
  - destruct (partner_mod (a / 3) Hi) as (Hk & Hk' & Hmod).
    unfold cleared. cbv zeta. rewrite Ei in *.
    set (k' := a - 2 * Nat.land (a / 3) 1 + 4) in *.
    apply orb_true_intro.
    assert (Hcase : (exists t, b = a + 6 * t) \/ (exists t, b = k' + 6 * t)).
    { destruct Hmod as [[Em Ek]|[Em Ek]].
      - destruct Hb6 as [Eb|Eb].
        + left. exists ((b - a) / 6). dlia.
        + right. exists ((b - k') / 6). dlia.
      - destruct Hb6 as [Eb|Eb].
        + right. exists ((b - k') / 6). dlia.
        + left. exists ((b - a) / 6). dlia. }
    destruct Hcase as [[t ->]|[t ->]]; [left|right];
      rewrite third_of_product; apply slice_of_member; lia.
Qed.

Definition nat_prime (m : nat) : Prop :=
  2 <= m /\ forall a b, m = a * b -> a = 1 \/ b = 1.

Lemma nat_prime_prime (m : nat) : nat_prime m <-> Z.prime (Z.of_nat m).
Proof.
  unfold Z.prime, nat_prime. split.
  - intros [Hm Hd]. split; [lia|]. intros d Hdm [q Eq].
    destruct (Hd (Z.to_nat q) (Z.to_nat d)) as [E|E]; nia.
  - intros [Hm Hd]. split; [lia|]. intros a b E.
    destruct (Nat.eq_dec a 1) as [|Ha]; [now left|right].
    destruct (Nat.eq_dec b 1) as [|Hb]; [assumption|exfalso].
    apply (Hd (Z.of_nat a)); [nia|].
    exists (Z.of_nat b). nia.
Qed.

Lemma nth_repeat_true (j L : nat) : j < L -> nth j (repeat true L) false = true.
Proof.
  revert j. induction L as [|L IH]; intros [|j] Hj; simpl; try lia.
  apply IH. lia.
Qed.

Lemma tl_nonzero_members (sieve : list bool) (x : nat) :
  sieve = [] \/ nth 0 sieve false = true ->
  In x (tl (nonzero sieve))
  <-> 1 <= x < length sieve /\ nth x sieve false = true.
Proof.
  intros [->|H0]; [simpl; split; [tauto|lia]|].
  destruct sieve as [|b sieve]; [discriminate|]. simpl in H0. subst b.
  unfold nonzero. cbn [length seq combine filter snd map fst tl].
  rewrite nonzero_members. split.
  - intros (j & -> & Hj & Hn). simpl. split; [lia|exact Hn].
  - intros [[H1 HL] Hn]. destruct x as [|x]; [lia|].
    exists x. simpl in *. split; [lia|]. split; [lia|exact Hn].
Qed.

Lemma tl_nonzero_sorted (sieve : list bool) :
  StronglySorted lt (tl (nonzero sieve)).
Proof.
  pose proof (nonzero_sorted 0 sieve) as Hs. fold (nonzero sieve) in Hs.
  destruct (nonzero sieve); [constructor|].
  now apply StronglySorted_inv in Hs.
Qed.

(** The sieve after the loop. *)
Definition sieved (n : nat) : list bool :=
  fold_left sieve_round (seq 1 (Nat.sqrt n / 3))
    (repeat true (n / 3 + (if n mod 6 =? 2 then 1 else 0))).

Lemma primes_from_2_to_sieved (n : nat) :
  primes_from_2_to n
  = 2%Z :: 3%Z
      :: map (fun i => Z.of_nat (sieve_number i)) (tl (nonzero (sieved n))).
Proof. reflexivity. Qed.

Lemma sieve_rounds_length (rounds : list nat) (sieve : list bool) :
  length (fold_left sieve_round rounds sieve) = length sieve.
Proof.
  revert sieve. induction rounds as [|i rounds IH]; intros sieve;
    cbn [fold_left]; [reflexivity|].
  rewrite IH. unfold sieve_round. now rewrite !clear_slice_length.
Qed.

Lemma sieved_length (n : nat) :
  length (sieved n) = n / 3 + (if n mod 6 =? 2 then 1 else 0).
Proof. unfold sieved. now rewrite sieve_rounds_length, repeat_length. Qed.

Lemma sieved_nth (n j : nat) :
  j < length (sieved n) ->
  nth j (sieved n) false
  = forallb (fun i => negb (cleared i j)) (seq 1 (Nat.sqrt n / 3)).
Proof.
  intros Hj. rewrite sieved_length in Hj. unfold sieved.
  destruct (sieve_rounds (seq 1 (Nat.sqrt n / 3))
              (repeat true (n / 3 + (if n mod 6 =? 2 then 1 else 0))) j)
    as [_ E]; [now rewrite repeat_length|].
  rewrite E, nth_repeat_true by exact Hj. reflexivity.
Qed.

Lemma sieved_first (n : nat) :
  sieved n = [] \/ nth 0 (sieved n) false = true.
Proof.
  destruct (sieved n) as [|b l] eqn:E; [now left|right].
  rewrite <- E. rewrite sieved_nth by (rewrite E; simpl; lia).
  apply forallb_forall. intros i Hi. apply in_seq in Hi.
  destruct (cleared i 0) eqn:Ec; [|reflexivity].
  destruct (cleared_composite i 0 ltac:(lia) Ec) as (a & c & Ha & Hc & Em).
  change (sieve_number 0) with 1 in Em. nia.
Qed.

(** An index of the sieve survives exactly when its number is prime. *)
Lemma sieved_prime (n j : nat) :
  1 <= j < length (sieved n) ->
  nth j (sieved n) false = true <-> nat_prime (sieve_number j).
Proof.
  intros [H1 HL]. rewrite sieved_nth by exact HL.
  destruct (sieve_number_mod j) as [Hm6 Ej].
  assert (Hm : 5 <= sieve_number j) by (rewrite sieve_number_eq; dlia).
  assert (Hn : sieve_number j < n).
  { rewrite sieved_length in HL.
    destruct (Nat.eqb_spec (n mod 6) 2); dlia. }
  rewrite forallb_forall. split.
  - intros Hall. split; [lia|]. intros a b Eab.
    destruct (Nat.eq_dec a 1) as [|Ha]; [now left|right].
    destruct (Nat.eq_dec b 1) as [|Hb]; [assumption|exfalso].
    assert (Ha2 : 2 <= a) by nia. assert (Hb2 : 2 <= b) by nia.
    destruct (composite_cleared (sieve_number j) (Nat.min a b) (Nat.max a b)
                n Hm6 ltac:(lia) ltac:(lia) ltac:(nia) Hn)
      as (i & Hi & Hc).
    rewrite Ej in Hc.
    specialize (Hall i ltac:(apply in_seq; lia)).
    rewrite Hc in Hall. discriminate.
  - intros [_ Hp] i Hi. apply in_seq in Hi.
    destruct (cleared i j) eqn:Ec; [exfalso|reflexivity].
    destruct (cleared_composite i j ltac:(lia) Ec) as (a & b & Ha & Hb & Em).
    destruct (Hp a b Em); lia.
Qed.

Lemma sieved_index_bound (n j : nat) :
  j < length (sieved n) -> sieve_number j < n.
Proof.
  rewrite sieved_length, sieve_number_eq.
  destruct (Nat.eqb_spec (n mod 6) 2); dlia.
Qed.

Lemma sieved_index_of (n m : nat) :
  m mod 6 = 1 \/ m mod 6 = 5 -> m < n -> m / 3 < length (sieved n).
Proof.
  rewrite sieved_length.
  destruct (Nat.eqb_spec (n mod 6) 2); dlia.
Qed.

Lemma nat_prime_mod6 (m : nat) :
  nat_prime m -> m = 2 \/ m = 3 \/ (5 <= m /\ (m mod 6 = 1 \/ m mod 6 = 5)).
Proof.
  intros [Hm Hp].
  destruct (Nat.eq_dec (m mod 2) 0) as [E2|E2].
  { destruct (Hp 2 (m / 2) ltac:(dlia)) as [|E]; [lia|]. left. dlia. }
  destruct (Nat.eq_dec (m mod 3) 0) as [E3|E3].
  { destruct (Hp 3 (m / 3) ltac:(dlia)) as [|E]; [lia|]. right. left. dlia. }
  right. right. dlia.
Qed.

Lemma primes_from_2_to_members (n : nat) (p : Z) :
  4 <= n ->
  In p (primes_from_2_to n) <-> Z.prime p /\ (p < Z.of_nat n)%Z.
Proof.
  intros Hn. rewrite primes_from_2_to_sieved. cbn [In]. rewrite in_map_iff.
  split.
  - intros [<-|[<-|(j & <- & Hj)]].
    + split; [exact Z.prime_2|lia].
    + split; [exact Z.prime_3|lia].
    + apply (tl_nonzero_members _ _ (sieved_first n)) in Hj.
      destruct Hj as [Hj Ht]. split.
      * apply nat_prime_prime. now apply (sieved_prime n j).
      * apply Nat2Z.inj_lt, sieved_index_bound. lia.
  - intros [Hp Hlt].
    pose proof (Z.prime_ge_2 p Hp) as H2.
    assert (Ep : p = Z.of_nat (Z.to_nat p)) by lia.
    rewrite Ep in Hp. apply nat_prime_prime in Hp.
    destruct (nat_prime_mod6 _ Hp) as [E|[E|[H5 H6]]].
    + left. lia.
    + right. left. lia.
    + right. right. exists (Z.to_nat p / 3).
      rewrite (sieve_number_index _ H6). split; [lia|].
      apply (tl_nonzero_members _ _ (sieved_first n)).
      assert (HL : Z.to_nat p / 3 < length (sieved n))
        by (apply sieved_index_of; [exact H6|lia]).
      assert (H1 : 1 <= Z.to_nat p / 3) by dlia.
      split; [lia|].
      apply sieved_prime; [lia|].
      now rewrite (sieve_number_index _ H6).
Qed.

Lemma sorted_map_lt (l : list nat) (f : nat -> Z) :
  (forall a b, a < b -> (f a < f b)%Z) ->
  StronglySorted lt l -> StronglySorted Z.lt (map f l).
Proof.
  intros Hf. induction 1 as [|a l Hs IH Ha]; cbn [map]; constructor.
  - exact IH.
  - apply Forall_map. revert Ha. apply Forall_impl. intros b. apply Hf.
Qed.

Lemma primes_from_2_to_sorted (n : nat) :
  StronglySorted Z.lt (primes_from_2_to n).
Proof.
  rewrite primes_from_2_to_sieved.
  assert (Hs : StronglySorted Z.lt
                 (map (fun i => Z.of_nat (sieve_number i))
                    (tl (nonzero (sieved n))))).
  { apply sorted_map_lt; [|apply tl_nonzero_sorted].
    intros a b Hab. rewrite !sieve_number_eq. dlia. }
  assert (H5 : Forall (fun p => 5 <= p)%Z
                 (map (fun i => Z.of_nat (sieve_number i))
                    (tl (nonzero (sieved n))))).
  { apply Forall_map, Forall_forall. intros j Hj.
    apply (tl_nonzero_members _ _ (sieved_first n)) in Hj.
    rewrite sieve_number_eq. dlia. }
  constructor; [constructor; [exact Hs|]|].
  - revert H5. apply Forall_impl. intros; lia.
  - constructor; [lia|]. revert H5. apply Forall_impl. intros; lia.
Qed.

Lemma primes_from_2_to_small (n : nat) :
  n < 4 -> primes_from_2_to n = [2%Z; 3%Z].
Proof.
  intros Hn.
  destruct n as [|[|[|[|n]]]]; [reflexivity..|lia].
Qed.

Lemma primes_from_2_to_below (n : nat) (p : Z) :
  In p (primes_from_2_to n)
  <-> Z.prime p /\ (p < Z.max (Z.of_nat n) 4)%Z.
Proof.
  destruct (Nat.lt_ge_cases n 4) as [Hn|Hn].
  - rewrite (primes_from_2_to_small n Hn).
    replace (Z.max (Z.of_nat n) 4) with 4%Z by lia.
    cbn [In]. split.
    + intros [<-|[<-|[]]]; (split; [|lia]);
        [exact Z.prime_2|exact Z.prime_3].
    + intros [Hp Hlt]. pose proof (Z.prime_ge_2 p Hp).
      assert (E : p = 2%Z \/ p = 3%Z) by lia.
      destruct E as [->| ->]; auto.
  - replace (Z.max (Z.of_nat n) 4) with (Z.of_nat n) by lia.
    now apply primes_from_2_to_members.
Qed.

(** X19: [primes_from_2_to(n)] is the increasing list of the prime numbers
    below [n]; for [n < 4] it is [[2, 3]], the primes below four.  The
    bound [int(n ** 0.5)] of the loop is the integer square root. *)
Theorem primes_from_2_to_lists_primes (n : nat) :
  (forall p : Z,
     In p (primes_from_2_to n)
     <-> Z.prime p /\ (p < Z.max (Z.of_nat n) 4)%Z)
  /\ StronglySorted Z.lt (primes_from_2_to n).
Proof.
  split; [intros p; apply primes_from_2_to_below|].
  apply primes_from_2_to_sorted.
Qed.

Lemma firstn_members (n : nat) (l : list Z) (x : Z) :
  In x (firstn n l) -> In x l.
Proof.
  revert n. induction l as [|a l IH]; intros [|n]; cbn [firstn In];
    try tauto.
  intros [->|Hx]; [now left|right]. now apply (IH n).
Qed.

Lemma first_primes_sieved : first_primes = primes_from_2_to 1000.
Proof. vm_compute. reflexivity. Qed.

Lemma more_primes_sieved (fuel n big : nat) (primes : list Z) :
  more_primes fuel n big = Some primes ->
  exists N, primes = firstn n (primes_from_2_to N).
Proof.
  revert big. induction fuel as [|fuel IH]; intros big; cbn [more_primes];
    [discriminate|].
  destruct (length (firstn n (primes_from_2_to big)) =? n).
  - intros [= <-]. now exists big.
  - apply IH.
Qed.

Lemma n_primes_sieved (n : nat) (primes : list Z) :
  n_primes n = Some primes ->
  exists N, primes = firstn n (primes_from_2_to N).
Proof.
  unfold n_primes.
  destruct (length (firstn n first_primes) <? n).
  - apply more_primes_sieved.
  - intros [= <-]. exists 1000. now rewrite first_primes_sieved.
Qed.

Lemma firstn_sorted (n : nat) (l : list Z) :
  StronglySorted Z.lt l -> StronglySorted Z.lt (firstn n l).
Proof.
  intros Hs. revert n. induction Hs as [|a l Hs IH Ha]; intros [|n];
    cbn [firstn]; try constructor.
  - apply IH.
  - rewrite Forall_forall in *. intros x Hx. apply Ha.
    revert Hx. apply firstn_members.
Qed.

Lemma firstn_initial (n : nat) (l : list Z) (p q : Z) :
  StronglySorted Z.lt l ->
  In q (firstn n l) -> In p l -> (p < q)%Z -> In p (firstn n l).
Proof.
  intros Hs. revert n. induction Hs as [|a l Hs IH Ha]; intros [|n];
    cbn [firstn In]; try tauto.
  rewrite Forall_forall in Ha.
  intros [Eq|Hq] [Ep|Hp] Hlt;
    [now left|specialize (Ha p Hp); lia|now left|right; now apply (IH n)].
Qed.

Lemma sieve_2000_length : length (primes_from_2_to 2000) = 303.
Proof. vm_compute. reflexivity. Qed.

Lemma n_primes_returns (n : nat) :
  n <= 303 -> exists primes, n_primes n = Some primes.
Proof.
  intros Hn. unfold n_primes.
  destruct (length (firstn n first_primes) <? n) eqn:E; [|eauto].
  apply Nat.ltb_lt in E. destruct n as [|n]; [simpl in E; lia|].
  cbn [more_primes].
  replace (length (firstn (S n) (primes_from_2_to 2000)) =? S n) with true;
    [eauto|].
  symmetry. apply Nat.eqb_eq.
  rewrite length_firstn, sieve_2000_length. lia.
Qed.

(** X20: What [n_primes(n)] returns is the list of the [n] smallest prime
    numbers, in increasing order: [n] entries, each one prime, and every
    prime below an entry is an entry too.  Up to [n = 303] the table or the
    first round of the search, below 2000, gives the result. *)
Theorem n_primes_smallest_primes (n : nat) :
  (n <= 303 -> exists primes, n_primes n = Some primes)
  /\ (forall primes,
        n_primes n = Some primes ->
        length primes = n
        /\ StronglySorted Z.lt primes
        /\ (forall p, In p primes -> Z.prime p)
        /\ (forall p q,
              In q primes -> Z.prime p -> (p < q)%Z -> In p primes)).
Proof.
  split; [apply n_primes_returns|].
  intros primes Hp. split; [now apply n_primes_length|].
  destruct (n_primes_sieved n primes Hp) as [N ->].
  pose proof (primes_from_2_to_below N) as Hm.
  pose proof (primes_from_2_to_sorted N) as Hs.
  split; [now apply firstn_sorted|]. split.
  - intros p Hin. apply firstn_members in Hin. now apply Hm.
  - intros p q Hq Hpp Hlt. apply (firstn_initial n _ p q Hs Hq); [|exact Hlt].
    apply Hm. split; [exact Hpp|].
    apply firstn_members in Hq. apply Hm in Hq. lia.
Qed.

Lemma n_primes_smallest_primes_witness :
  exists primes,
    n_primes 170 = Some primes
    /\ length primes = 170
    /\ StronglySorted Z.lt primes
    /\ (forall p, In p primes -> Z.prime p)
    /\ (forall p q, In q primes -> Z.prime p -> (p < q)%Z -> In p primes).
Proof.
  destruct (n_primes_smallest_primes 170) as [Hr Hc].
  destruct (Hr ltac:(lia)) as [primes E].
  exists primes. split; [exact E|]. exact (Hc primes E).
Defined.

End Sieve.
